(** * Streaming HTML fragments: a model of [dom.ts] and its properties

    The development follows the client-side module that parses HTML
    fragments received from the server: the whole-response parser
    [parseDomFragment], the streaming pipeline ([parseText],
    [parseAndObserveTopLevelNodeAdditions], [convertSubscribableToIterator],
    [streamingParseTopLevelNodes], [dropWhitespaceNodes]) and the [Fragment]
    wrapper with its clone fix-ups. The last parts follow two users of the
    module: the router of [router.ts] and the [<em-bed>] element.

    Host objects (the DOM, [TextDecoder], [DOMParser], promises) are modelled
    by the part of their standard behaviour the module relies on. *)

From Stdlib Require Import ZArith NArith Ascii String List Bool Lia.
From stdpp Require Import base list strings gmap.
Import ListNotations.

Local Open Scope string_scope.
Local Open Scope list_scope.

(** ** JavaScript values used by the module *)

(** A JavaScript string holding text content is a sequence of UTF-16 code
    units. Tag names, attribute names and values and header values are kept
    as [string]. *)
Definition jsstring := list N.

(** ECMAScript [WhiteSpace] and [LineTerminator] code units, the characters
    removed by [String.prototype.trim]. *)
Definition isWhiteSpace (c : N) : bool :=
  ((c =? 0x0009) || (c =? 0x000A) || (c =? 0x000B) || (c =? 0x000C) ||
   (c =? 0x000D) || (c =? 0x0020) || (c =? 0x00A0) || (c =? 0x1680) ||
   ((0x2000 <=? c) && (c <=? 0x200A)) ||
   (c =? 0x2028) || (c =? 0x2029) || (c =? 0x202F) || (c =? 0x205F) ||
   (c =? 0x3000) || (c =? 0xFEFF))%N.

Fixpoint trimStart (s : jsstring) : jsstring :=
  match s with
  | [] => []
  | c :: r => if isWhiteSpace c then trimStart r else s
  end.

Definition trimEnd (s : jsstring) : jsstring := rev (trimStart (rev s)).

(** [s.trim()] *)
Definition trim (s : jsstring) : jsstring := trimEnd (trimStart s).

(** A thrown value: [new Error(message)], or an exception raised by a host
    API. *)
Inductive exn :=
  | Error (message : string)
  | HostException (name : string).

Inductive completion (A : Type) :=
  | Return (a : A)
  | Throw (e : exn).
Arguments Return {A} a.
Arguments Throw {A} e.

(** ** DOM nodes *)

(** Nodes carry an identity [nid]: two nodes are the same object exactly when
    their identities agree. An element has its child nodes, the content of a
    [<template>] (empty for other elements; the content fragment is owned by
    its template) and, when one is attached, a shadow root with its mode. *)
#[warnings="-register-all"]
Inductive Node :=
  | TextNode (nid : nat) (data : jsstring)
  | CommentNode (nid : nat) (data : jsstring)
  | ElementNode (nid : nat) (localName : string)
      (attributes : list (string * string))
      (childNodes : list Node)
      (content : list Node)
      (shadowRoot : option (string * list Node))
  | DocumentFragmentNode (nid : nat) (childNodes : list Node).

Definition TEXT_NODE : N := 3.
Definition COMMENT_NODE : N := 8.
Definition ELEMENT_NODE : N := 1.
Definition DOCUMENT_FRAGMENT_NODE : N := 11.

Definition nodeType (n : Node) : N :=
  match n with
  | TextNode _ _ => TEXT_NODE
  | CommentNode _ _ => COMMENT_NODE
  | ElementNode _ _ _ _ _ _ => ELEMENT_NODE
  | DocumentFragmentNode _ _ => DOCUMENT_FRAGMENT_NODE
  end.

Definition nodeId (n : Node) : nat :=
  match n with
  | TextNode i _ | CommentNode i _ | ElementNode i _ _ _ _ _
  | DocumentFragmentNode i _ => i
  end.

(** [node.textContent]: the data of a text or comment node, the
    concatenated text of the descendants of an element or fragment. *)
Fixpoint textContent (n : Node) : jsstring :=
  let descend := fix descend (l : list Node) : jsstring :=
    match l with
    | [] => []
    | c :: r =>
        match c with
        | CommentNode _ _ => descend r
        | _ => textContent c ++ descend r
        end
    end in
  match n with
  | TextNode _ d => d
  | CommentNode _ d => d
  | ElementNode _ _ _ kids _ _ => descend kids
  | DocumentFragmentNode _ kids => descend kids
  end.

(** ** Fragments *)

(** [Fragment<T>]: a wrapper holding one node, built by [Fragment.of]. *)
Record Fragment := Fragment_of { node : Node }.

(** ** The document and its nodes *)

Module Dom.

(** [element.getAttribute(name)], [None] standing for [null]. *)
Fixpoint getAttribute (attrs : list (string * string)) (name : string)
  : option string :=
  match attrs with
  | [] => None
  | (n, v) :: r => if String.eqb n name then Some v else getAttribute r name
  end.

(** [element.setAttribute(name, value)] *)
Fixpoint setAttribute (attrs : list (string * string)) (name value : string)
  : list (string * string) :=
  match attrs with
  | [] => [(name, value)]
  | (n, v) :: r =>
      if String.eqb n name then (n, value) :: r
      else (n, v) :: setAttribute r name value
  end.

(** [element.getAttributeNames()] *)
Definition getAttributeNames (attrs : list (string * string)) : list string :=
  map fst attrs.

Definition attributesOf (n : Node) : list (string * string) :=
  match n with
  | ElementNode _ _ attrs _ _ _ => attrs
  | _ => []
  end.

Definition childNodesOf (n : Node) : list Node :=
  match n with
  | ElementNode _ _ _ kids _ _ => kids
  | DocumentFragmentNode _ kids => kids
  | _ => []
  end.

Definition isElementNamed (name : string) (n : Node) : bool :=
  match n with
  | ElementNode _ tag _ _ _ _ => String.eqb tag name
  | _ => false
  end.

(** The identities of a node and of all nodes below it, template contents
    and shadow trees included. *)
Fixpoint ids (n : Node) : list nat :=
  let ids_list := fix ids_list (l : list Node) : list nat :=
    match l with
    | [] => []
    | c :: r => ids c ++ ids_list r
    end in
  match n with
  | TextNode i _ => [i]
  | CommentNode i _ => [i]
  | ElementNode i _ _ kids content shadow =>
      i :: ids_list kids ++ ids_list content
        ++ match shadow with Some (_, l) => ids_list l | None => [] end
  | DocumentFragmentNode i kids => i :: ids_list kids
  end.

Definition ids_list (l : list Node) : list nat := flat_map ids l.

Section Selector.
Variable sel : Node -> bool.

(** [root.querySelectorAll(selector)]: the descendants of [root] that match,
    in document order. Template contents and shadow trees are not
    descendants. *)
Fixpoint descendants (n : Node) : list Node :=
  let walk := fix walk (l : list Node) : list Node :=
    match l with
    | [] => []
    | c :: r => (if sel c then [c] else []) ++ descendants c ++ walk r
    end in
  match n with
  | ElementNode _ _ _ kids _ _ => walk kids
  | DocumentFragmentNode _ kids => walk kids
  | _ => []
  end.

(** The matching nodes among a list of siblings and their descendants. *)
Fixpoint walk (l : list Node) : list Node :=
  match l with
  | [] => []
  | c :: r => (if sel c then [c] else []) ++ descendants c ++ walk r
  end.

End Selector.

Definition querySelectorAll := descendants.

(** The selector ['script']. *)
Definition script : Node -> bool := isElementNamed "script".

(** The selector ['template[shadowroot]']. *)
Definition template_shadowroot (n : Node) : bool :=
  isElementNamed "template" n &&
  match getAttribute (attributesOf n) "shadowroot" with
  | Some _ => true
  | None => false
  end.

(** The active document, as far as the module changes it: the counter that
    gives new nodes their identity, the module-level [fixedScriptSet], the
    nodes appended to [document.head] and the modules requested by
    [import()]. *)
Record Document := mkDocument {
  nextId : nat;
  fixedScriptSet : gset nat;
  head : list Node;
  imports : list string
}.

(** [document.importNode(node, true)] and [node.cloneNode(true)]: a copy of
    the node and of its descendants, template contents included and shadow
    trees left out, made of new nodes. *)
Fixpoint importNode (n : Node) (next : nat) : Node * nat :=
  let import_list := fix import_list (l : list Node) (next : nat)
      : list Node * nat :=
    match l with
    | [] => ([], next)
    | c :: r =>
        let '(c', n1) := importNode c next in
        let '(r', n2) := import_list r n1 in
        (c' :: r', n2)
    end in
  match n with
  | TextNode _ d => (TextNode next d, S next)
  | CommentNode _ d => (CommentNode next d, S next)
  | ElementNode _ tag attrs kids content _ =>
      let '(kids', n1) := import_list kids (S next) in
      let '(content', n2) := import_list content n1 in
      (ElementNode next tag attrs kids' content' None, n2)
  | DocumentFragmentNode _ kids =>
      let '(kids', n1) := import_list kids (S next) in
      (DocumentFragmentNode next kids', n1)
  end.

Fixpoint importNodes (l : list Node) (next : nat) : list Node * nat :=
  match l with
  | [] => ([], next)
  | c :: r =>
      let '(c', n1) := importNode c next in
      let '(r', n2) := importNodes r n1 in
      (c' :: r', n2)
  end.

(** [element.cloneNode()]: a new element with the same attributes and no
    children. *)
Definition cloneNode_shallow (n : Node) (next : nat) : Node :=
  match n with
  | TextNode _ d => TextNode next d
  | CommentNode _ d => CommentNode next d
  | ElementNode _ tag attrs _ _ _ => ElementNode next tag attrs [] [] None
  | DocumentFragmentNode _ _ => DocumentFragmentNode next []
  end.

Section Update.
Variables (target : nat) (g : Node -> Node).

(** A change made to the node object of identity [target], wherever it is
    in the tree. *)
Fixpoint update (n : Node) : Node :=
  let update_in := fix update_in (l : list Node) : list Node :=
    match l with
    | [] => []
    | c :: r => update c :: update_in r
    end in
  if Nat.eqb (nodeId n) target then g n
  else
    match n with
    | ElementNode i tag attrs kids content shadow =>
        ElementNode i tag attrs (update_in kids) (update_in content)
          match shadow with
          | Some (m, l) => Some (m, update_in l)
          | None => None
          end
    | DocumentFragmentNode i kids => DocumentFragmentNode i (update_in kids)
    | n => n
    end.

Fixpoint update_in (l : list Node) : list Node :=
  match l with
  | [] => []
  | c :: r => update c :: update_in r
  end.

End Update.

(** All identities of the tree lie in the range from [lo] up to [hi]. *)
Definition ids_within (lo hi : nat) (n : Node) : Prop :=
  Forall (fun i => lo <= i < hi) (ids n).

End Dom.

(** ** Cloning a fragment *)

Section Scripts.

(** Whether [setAttribute] accepts a qualified name. The DOM Standard has it
    throw an [InvalidCharacterError] for a name that is not valid, and the
    HTML parser makes attributes with such names ([=x], for one). *)
Variable validAttributeName : string -> bool.

(** The loop of [manualClone] over [oldScript.getAttributeNames()]: each
    [newScript.setAttribute(name, oldScript.getAttribute(name)!)]. *)
Fixpoint copyAttributes (old : list (string * string)) (names : list string)
    (acc : list (string * string)) : completion (list (string * string)) :=
  match names with
  | [] => Return acc
  | name :: rest =>
      if validAttributeName name then
        copyAttributes old rest
          match Dom.getAttribute old name with
          | Some value => Dom.setAttribute acc name value
          | None => acc
          end
      else Throw (HostException "InvalidCharacterError")
  end.

(** [manualClone(oldScript)]: a script element made by
    [document.createElement], given each attribute of the old one and its
    text content. Setting [textContent] to the empty string leaves the new
    element without children, and otherwise gives it one text node. The
    result comes with the identity counter after it. *)
Definition manualClone (oldScript : Node) (next : nat)
  : completion (Node * nat) :=
  match copyAttributes (Dom.attributesOf oldScript)
          (Dom.getAttributeNames (Dom.attributesOf oldScript)) [] with
  | Throw e => Throw e
  | Return attrs =>
      Return
        match textContent oldScript with
        | [] => (ElementNode next "script" attrs [] [] None, S next)
        | text =>
            (ElementNode next "script" attrs [TextNode (S next) text] [] None,
             S (S next))
        end
  end.

Section ReplaceWith.
Variables (old : nat) (new : Node).

(** [old.replaceWith(new)], seen from the root of the tree [old] was found
    in: the child with the identity of [old] gives its place to [new]. *)
Fixpoint replaceWith (root : Node) : Node :=
  let replace_in := fix replace_in (l : list Node) : list Node :=
    match l with
    | [] => []
    | c :: r =>
        (if Nat.eqb (nodeId c) old then new else replaceWith c)
        :: replace_in r
    end in
  match root with
  | ElementNode i tag attrs kids content shadow =>
      ElementNode i tag attrs (replace_in kids) content shadow
  | DocumentFragmentNode i kids => DocumentFragmentNode i (replace_in kids)
  | n => n
  end.

Fixpoint replace_in (l : list Node) : list Node :=
  match l with
  | [] => []
  | c :: r =>
      (if Nat.eqb (nodeId c) old then new else replaceWith c)
      :: replace_in r
  end.

End ReplaceWith.

(** The loop of [fixupScripts] over the scripts found: the document and
    the tree as the loop leaves them, and how it ends. When [manualClone]
    throws, the element it had created is dropped and the scripts after the
    offending one are not visited. *)
Fixpoint fixupLoop (scripts : list Node) (doc : Dom.Document) (root : Node)
  : Dom.Document * Node * completion unit :=
  match scripts with
  | [] => (doc, root, Return tt)
  | oldScript :: rest =>
      if bool_decide (nodeId oldScript ∈ Dom.fixedScriptSet doc) then
        fixupLoop rest doc root
      else
        match manualClone oldScript (Dom.nextId doc) with
        | Throw e =>
            (Dom.mkDocument (S (Dom.nextId doc)) (Dom.fixedScriptSet doc)
               (Dom.head doc) (Dom.imports doc), root, Throw e)
        | Return (newScript, next) =>
            fixupLoop rest
              (Dom.mkDocument next
                 ({[nodeId newScript]} ∪ Dom.fixedScriptSet doc)
                 (Dom.head doc) (Dom.imports doc))
              (replaceWith (nodeId oldScript) newScript root)
        end
  end.

(** [fixupScripts(root)] *)
Definition fixupScripts (root : Node) (doc : Dom.Document)
  : Dom.Document * Node * completion unit :=
  fixupLoop (Dom.querySelectorAll Dom.script root) doc root.

End Scripts.

Section Clone.

(** Whether [attachShadow] accepts an element of this name as a host, and
    whether [setAttribute] accepts a name. *)
Variable canAttachShadow : string -> bool.
Variable validAttributeName : string -> bool.

Section Stamp.
Variables (template : nat) (mode : string) (contents : list Node).

(** [template.parentElement!.attachShadow({ mode })], the append of the
    copied contents and [template.remove()], seen from the root: [None]
    when the template is not below this node. *)
Fixpoint stamp (root : Node) : option (completion Node) :=
  let stamp_in := fix stamp_in (l : list Node)
      : option (completion (list Node)) :=
    match l with
    | [] => None
    | c :: r =>
        match stamp c with
        | Some (Return c') => Some (Return (c' :: r))
        | Some (Throw e) => Some (Throw e)
        | None =>
            match stamp_in r with
            | Some (Return r') => Some (Return (c :: r'))
            | Some (Throw e) => Some (Throw e)
            | None => None
            end
        end
    end in
  match root with
  | ElementNode i tag attrs kids content shadow =>
      if existsb (fun c => Nat.eqb (nodeId c) template) kids then
        if negb (String.eqb mode "open" || String.eqb mode "closed") then
          Some (Throw (HostException "TypeError"))
        else if negb (canAttachShadow tag) then
          Some (Throw (HostException "NotSupportedError"))
        else
          match shadow with
          | Some _ => Some (Throw (HostException "NotSupportedError"))
          | None =>
              Some (Return
                (ElementNode i tag attrs
                   (List.filter (fun c => negb (Nat.eqb (nodeId c) template)) kids)
                   content (Some (mode, contents))))
          end
      else
        match stamp_in kids with
        | Some (Return kids') =>
            Some (Return (ElementNode i tag attrs kids' content shadow))
        | Some (Throw e) => Some (Throw e)
        | None => None
        end
  | DocumentFragmentNode i kids =>
      if existsb (fun c => Nat.eqb (nodeId c) template) kids then
        Some (Throw (HostException "TypeError"))
      else
        match stamp_in kids with
        | Some (Return kids') => Some (Return (DocumentFragmentNode i kids'))
        | Some (Throw e) => Some (Throw e)
        | None => None
        end
  | _ => None
  end.

Fixpoint stamp_in (l : list Node) : option (completion (list Node)) :=
  match l with
  | [] => None
  | c :: r =>
      match stamp c with
      | Some (Return c') => Some (Return (c' :: r))
      | Some (Throw e) => Some (Throw e)
      | None =>
          match stamp_in r with
          | Some (Return r') => Some (Return (c :: r'))
          | Some (Throw e) => Some (Throw e)
          | None => None
          end
      end
  end.

End Stamp.

(** The loop of [fixupDeclarativeShadowDom] over the templates found. *)
Fixpoint stampTemplates (templates : list Node) (doc : Dom.Document)
    (root : Node) : Dom.Document * completion Node :=
  match templates with
  | [] => (doc, Return root)
  | template :: rest =>
      match Dom.getAttribute (Dom.attributesOf template) "shadowroot" with
      | None | Some EmptyString => stampTemplates rest doc root
      | Some mode =>
          let content :=
            match template with
            | ElementNode _ _ _ _ content _ => content
            | _ => []
            end in
          let '(contents, next) := Dom.importNodes content (Dom.nextId doc) in
          match stamp (nodeId template) mode contents root with
          | Some (Return root') =>
              stampTemplates rest
                (Dom.mkDocument next (Dom.fixedScriptSet doc) (Dom.head doc)
                   (Dom.imports doc))
                root'
          | Some (Throw e) => (doc, Throw e)
          | None => (doc, Throw (HostException "TypeError"))
          end
      end
  end.

(** [fixupDeclarativeShadowDom(root)] *)
Definition fixupDeclarativeShadowDom (root : Node) (doc : Dom.Document)
  : Dom.Document * completion Node :=
  stampTemplates (Dom.querySelectorAll Dom.template_shadowroot root) doc root.

(** [fragment.cloneContent()] *)
Definition cloneContent (fragment : Fragment) (doc : Dom.Document)
  : Dom.Document * completion Node :=
  let '(clone, next) := Dom.importNode (node fragment) (Dom.nextId doc) in
  let doc1 := Dom.mkDocument next (Dom.fixedScriptSet doc) (Dom.head doc)
                (Dom.imports doc) in
  match clone with
  | ElementNode _ _ _ _ _ _ | DocumentFragmentNode _ _ =>
      match fixupDeclarativeShadowDom clone doc1 with
      | (doc2, Throw e) => (doc2, Throw e)
      | (doc2, Return clone2) =>
          match fixupScripts validAttributeName clone2 doc2 with
          | (doc3, clone3, Return _) => (doc3, Return clone3)
          | (doc3, _, Throw e) => (doc3, Throw e)
          end
      end
  | _ => (doc1, Return clone)
  end.

End Clone.

(** *** What [fixupScripts] is to achieve *)

(** The element [manualClone] returns when no [setAttribute] throws, with
    the identity counter after it. *)
Definition scriptCopy (oldScript : Node) (next : nat) : Node * nat :=
  let attrs :=
    fold_left
      (fun acc name =>
         match Dom.getAttribute (Dom.attributesOf oldScript) name with
         | Some value => Dom.setAttribute acc name value
         | None => acc
         end)
      (Dom.getAttributeNames (Dom.attributesOf oldScript)) [] in
  match textContent oldScript with
  | [] => (ElementNode next "script" attrs [] [] None, S next)
  | text =>
      (ElementNode next "script" attrs [TextNode (S next) text] [] None,
       S (S next))
  end.

(** The body of the loop of [fixupScripts] on a script whose copy is made
    without an error, and the loop over the scripts of a root. *)
Definition fixupStep (state : Dom.Document * Node) (oldScript : Node)
  : Dom.Document * Node :=
  let '(doc, root) := state in
  if bool_decide (nodeId oldScript ∈ Dom.fixedScriptSet doc) then (doc, root)
  else
    let '(newScript, next) := scriptCopy oldScript (Dom.nextId doc) in
    (Dom.mkDocument next ({[nodeId newScript]} ∪ Dom.fixedScriptSet doc)
       (Dom.head doc) (Dom.imports doc),
     replaceWith (nodeId oldScript) newScript root).

Definition fixupSteps (root : Node) (doc : Dom.Document)
  : Dom.Document * Node :=
  let scripts := Dom.querySelectorAll Dom.script root in
  fold_left fixupStep scripts (doc, root).

(** The same loop body on the children of the root. *)
Definition fixupStep_in (state : Dom.Document * list Node) (oldScript : Node)
  : Dom.Document * list Node :=
  let '(doc, forest) := state in
  if bool_decide (nodeId oldScript ∈ Dom.fixedScriptSet doc) then (doc, forest)
  else
    let '(newScript, next) := scriptCopy oldScript (Dom.nextId doc) in
    (Dom.mkDocument next ({[nodeId newScript]} ∪ Dom.fixedScriptSet doc)
       (Dom.head doc) (Dom.imports doc),
     replace_in (nodeId oldScript) newScript forest).

(** [new] is a script element with the attributes and the text content of
    [old], and nothing else. *)
Definition copy_of (old new : Node) : Prop :=
  match new with
  | ElementNode _ tag attrs kids content shadow =>
      tag = "script" /\
      (forall name,
         Dom.getAttribute attrs name
         = Dom.getAttribute (Dom.attributesOf old) name) /\
      textContent new = textContent old /\
      (kids = [] \/ exists i, kids = [TextNode i (textContent old)]) /\
      content = [] /\ shadow = None
  | _ => False
  end.

Section Rewritten.

(** The set of fixed scripts before and after, and the value of the
    identity counter before. *)
Variables (fixed fixed' : gset nat) (born : nat).

(** [n'] is [n] with each script below it that was not in the set replaced,
    where it stood, by a copy that is a new node and is in the set
    afterwards; nothing else differs. A script that was in the set stays,
    and the scripts below it are treated alike. *)
Fixpoint rewritten (n n' : Node) : Prop :=
  let children := fix children (l l' : list Node) : Prop :=
    match l, l' with
    | [], [] => True
    | c :: r, c' :: r' =>
        (if Dom.script c && negb (bool_decide (nodeId c ∈ fixed))
         then copy_of c c' /\ nodeId c' ∈ fixed' /\ born <= nodeId c'
         else rewritten c c')
        /\ children r r'
    | _, _ => False
    end in
  match n with
  | ElementNode i tag attrs kids content shadow =>
      exists kids',
        n' = ElementNode i tag attrs kids' content shadow /\
        children kids kids'
  | DocumentFragmentNode i kids =>
      exists kids', n' = DocumentFragmentNode i kids' /\ children kids kids'
  | _ => n' = n
  end.

Fixpoint rewritten_in (l l' : list Node) : Prop :=
  match l, l' with
  | [], [] => True
  | c :: r, c' :: r' =>
      (if Dom.script c && negb (bool_decide (nodeId c ∈ fixed))
       then copy_of c c' /\ nodeId c' ∈ fixed' /\ born <= nodeId c'
       else rewritten c c')
      /\ rewritten_in r r'
  | _, _ => False
  end.

End Rewritten.

(** What a run of the loop of [fixupScripts] leaves unchanged or only
    grows in the document. *)
Definition grows (doc doc' : Dom.Document) : Prop :=
  Dom.nextId doc <= Dom.nextId doc' /\
  Dom.fixedScriptSet doc ⊆ Dom.fixedScriptSet doc' /\
  (forall i, i ∈ Dom.fixedScriptSet doc' ->
     i ∈ Dom.fixedScriptSet doc \/ Dom.nextId doc <= i < Dom.nextId doc') /\
  Dom.head doc' = Dom.head doc /\ Dom.imports doc' = Dom.imports doc.

(** What the loop of [fixupScripts] makes of a list of sibling trees: the
    scripts not in [fixed0] are replaced by copies recorded in the set, and
    every identity of the result is one of the input or a new one. *)
Definition reconstructed (doc doc' : Dom.Document) (fixed0 : gset nat)
    (l l' : list Node) : Prop :=
  grows doc doc' /\
  (forall (fixed' : gset nat) born,
     Dom.fixedScriptSet doc' ⊆ fixed' -> born <= Dom.nextId doc ->
     rewritten_in fixed0 fixed' born l l') /\
  Forall (fun i => In i (Dom.ids_list l) \/
                   Dom.nextId doc <= i < Dom.nextId doc')
    (Dom.ids_list l').

(** The scripts of a tree are dealt with as the loop is to deal with
    them, whatever the document when the loop starts. *)
Definition reconstructs (l : list Node) : Prop :=
  forall doc fixed0,
    NoDup (Dom.ids_list l) ->
    Forall (fun i => i < Dom.nextId doc) (Dom.ids_list l) ->
    (forall i, In i (Dom.ids_list l) ->
       (i ∈ Dom.fixedScriptSet doc <-> i ∈ fixed0)) ->
    exists doc' l',
      fold_left fixupStep_in (Dom.walk Dom.script l) (doc, l) = (doc', l') /\
      reconstructed doc doc' fixed0 l l'.

(** ** Preloading the scripts of a fragment *)

Definition double_quote : string := String (ascii_of_nat 34) EmptyString.

(** The message of the error thrown by [preloadScripts]; the script element
    interpolated into the template literal prints as
    [[object HTMLScriptElement]]. *)
Definition module_required_message : string :=
  "Found `<script src=" +:+ double_quote +:+ "[object HTMLScriptElement]"
  +:+ double_quote +:+ "></script>` *without* `type=" +:+ double_quote
  +:+ "module" +:+ double_quote
  +:+ "`. Module scripts are *required* in `preloadScripts()`,".

(** [script.getAttribute('type') !== 'module'] is false. *)
Definition isModule (script : Node) : bool :=
  match Dom.getAttribute (Dom.attributesOf script) "type" with
  | Some t => String.eqb t "module"
  | None => false
  end.

(** The first loop of [preloadScripts]: each script is checked and a copy
    of it is appended to [document.head]. *)
Fixpoint appendScripts (scripts : list Node) (doc : Dom.Document)
  : Dom.Document * completion unit :=
  match scripts with
  | [] => (doc, Return tt)
  | script :: rest =>
      if negb (isModule script) then
        (doc, Throw (Error module_required_message))
      else
        appendScripts rest
          (Dom.mkDocument (S (Dom.nextId doc)) (Dom.fixedScriptSet doc)
             (Dom.head doc ++ [Dom.cloneNode_shallow script (Dom.nextId doc)])
             (Dom.imports doc))
  end.

(** The modules requested by the second part: a script with no [src], or
    an empty one, is skipped. *)
Definition sources (scripts : list Node) : list string :=
  flat_map (fun script =>
    match Dom.getAttribute (Dom.attributesOf script) "src" with
    | Some EmptyString | None => []
    | Some src => [src]
    end) scripts.

Section Preload.

(** Whether the promise of [import(src)] is fulfilled. *)
Variable import_loads : string -> bool.

(** [fragment.preloadScripts()]: the document it leaves and how its promise
    settles. *)
Definition preloadScripts (fragment : Fragment) (doc : Dom.Document)
  : Dom.Document * completion unit :=
  if negb (nodeType (node fragment) =? ELEMENT_NODE)%N
     && negb (nodeType (node fragment) =? DOCUMENT_FRAGMENT_NODE)%N
  then (doc, Return tt)
  else
    let scripts := Dom.querySelectorAll Dom.script (node fragment) in
    match appendScripts scripts doc with
    | (doc1, Throw e) => (doc1, Throw e)
    | (doc1, Return _) =>
        (Dom.mkDocument (Dom.nextId doc1) (Dom.fixedScriptSet doc1)
           (Dom.head doc1) (Dom.imports doc1 ++ sources scripts),
         if forallb import_loads (sources scripts) then Return tt
         else Throw (HostException "import"))
    end.

End Preload.

(** The copies appended to [document.head] for a list of scripts. *)
Fixpoint shallow_copies (scripts : list Node) (next : nat) : list Node :=
  match scripts with
  | [] => []
  | s :: r => Dom.cloneNode_shallow s next :: shallow_copies r (S next)
  end.

(** The scripts [preloadScripts] looks at. *)
Definition scripts_of (fragment : Fragment) : list Node :=
  match node fragment with
  | ElementNode _ _ _ _ _ _ | DocumentFragmentNode _ _ =>
      Dom.querySelectorAll Dom.script (node fragment)
  | _ => []
  end.

(** ** The whole-response parser *)

Module WholeResponse.

(** The part of a [Response] read by [parseDomFragment]: the body text
    resolved by [res.text()] and the answer of
    [res.headers.get('Content-Type')], [None] standing for [null]. *)
Record Response := mkResponse {
  text : string;
  contentTypeHeader : option string
}.

(** [s.indexOf(c)] for a one-character [c]: [-1] when [c] does not occur. *)
Fixpoint indexOf (c : ascii) (s : string) : Z :=
  match s with
  | EmptyString => -1
  | String a r =>
      if Ascii.eqb a c then 0
      else let i := indexOf c r in if (i =? -1)%Z then (-1)%Z else (i + 1)%Z
  end.

(** [s.slice(0, e)] *)
Definition slice0 (s : string) (e : Z) : string :=
  substring 0 (Z.to_nat e) s.

Definition simpleContentType (contentType : string) : string :=
  if (indexOf ";" contentType =? -1)%Z then contentType
  else slice0 contentType (indexOf ";" contentType).

Section Parser.

(** [new DOMParser().parseFromString(html, type)] followed by
    [doc.body.childNodes]: the host parser gives the top-level nodes, or
    throws a [TypeError] ([None]) on a type it does not support. *)
Variable parseFromString : string -> string -> option (list Node).

(** [parseDomFragment(res)]; [frag] is the identity of the fragment made by
    [document.createDocumentFragment()]. *)
Definition parseDomFragment (frag : nat) (res : Response) : completion Fragment :=
  let html := text res in
  match contentTypeHeader res with
  | None | Some EmptyString => Throw (Error "Response has no Content-Type.")
  | Some contentType =>
      match parseFromString html (simpleContentType contentType) with
      | None => Throw (HostException "TypeError")
      | Some childNodes =>
          Return (Fragment_of (DocumentFragmentNode frag childNodes))
      end
  end.

End Parser.

End WholeResponse.

(** ** The whitespace filter *)

Module Filter.

(** The test of [dropWhitespaceNodes]:
    [node.nodeType === Node.TEXT_NODE && node.textContent!.trim() === ''] *)
Definition isWhitespace (node : Node) : bool :=
  (nodeType node =? TEXT_NODE)%N &&
  match trim (textContent node) with [] => true | _ => false end.

(** [dropWhitespaceNodes]: the generator reads its source one node at a time
    and yields the node unless it is whitespace; over a finite source it
    yields this list. *)
Fixpoint dropWhitespaceNodes (nodes : list Node) : list Node :=
  match nodes with
  | [] => []
  | node :: rest =>
      if negb (isWhitespace node) then node :: dropWhitespaceNodes rest
      else dropWhitespaceNodes rest
  end.

End Filter.

(** ** The byte-to-text decoder *)

Module Decoder.

(** A [Uint8Array] chunk: bytes are numbers below 256. *)
Definition chunk := list N.

(** The state of a [TextDecoder] for UTF-8 in replacement mode with
    [ignoreBOM] false, after the Encoding Standard: the UTF-8 decoder's
    variables and the BOM-seen flag. *)
Record TextDecoder := mkDecoder {
  code_point : N;
  bytes_seen : N;
  bytes_needed : N;
  lower_boundary : N;
  upper_boundary : N;
  BOM_seen : bool
}.

(** [new TextDecoder()] *)
Definition new_TextDecoder : TextDecoder :=
  {| code_point := 0; bytes_seen := 0; bytes_needed := 0;
     lower_boundary := 0x80; upper_boundary := 0xBF; BOM_seen := false |}.

Definition REPLACEMENT : N := 0xFFFD.

Definition in_range (lo hi b : N) : bool := ((lo <=? b) && (b <=? hi))%N.

(** The decoder's handler on a byte when no bytes are needed: the scalar
    values it returns (one for an ASCII byte, U+FFFD for an error) and the
    state for a lead byte. *)
Definition lead (bom : bool) (b : N) : TextDecoder * list N :=
  if in_range 0x00 0x7F b then
    (mkDecoder 0 0 0 0x80 0xBF bom, [b])
  else if in_range 0xC2 0xDF b then
    (mkDecoder (N.land b 0x1F) 0 1 0x80 0xBF bom, [])
  else if in_range 0xE0 0xEF b then
    (mkDecoder (N.land b 0xF) 0 2
       (if (b =? 0xE0)%N then 0xA0 else 0x80)
       (if (b =? 0xED)%N then 0x9F else 0xBF) bom, [])
  else if in_range 0xF0 0xF4 b then
    (mkDecoder (N.land b 0x7) 0 3
       (if (b =? 0xF0)%N then 0x90 else 0x80)
       (if (b =? 0xF4)%N then 0x8F else 0xBF) bom, [])
  else
    (mkDecoder 0 0 0 0x80 0xBF bom, [REPLACEMENT]).

(** The handler on one byte. A byte outside the boundaries ends the
    sequence in progress with U+FFFD and is then processed again as the
    first byte of a new sequence. *)
Definition handler (d : TextDecoder) (b : N) : TextDecoder * list N :=
  if (bytes_needed d =? 0)%N then lead (BOM_seen d) b
  else if negb (in_range (lower_boundary d) (upper_boundary d) b) then
    let '(d', out) := lead (BOM_seen d) b in (d', REPLACEMENT :: out)
  else
    let cp := N.lor (N.shiftl (code_point d) 6) (N.land b 0x3F) in
    let seen := (bytes_seen d + 1)%N in
    if (seen =? bytes_needed d)%N then
      (mkDecoder 0 0 0 0x80 0xBF (BOM_seen d), [cp])
    else
      (mkDecoder cp seen (bytes_needed d) 0x80 0xBF (BOM_seen d), []).

(** Running the handler over the bytes of the I/O queue. *)
Fixpoint process (d : TextDecoder) (bytes : chunk) : TextDecoder * list N :=
  match bytes with
  | [] => (d, [])
  | b :: r =>
      let '(d1, out1) := handler d b in
      let '(d2, out2) := process d1 r in
      (d2, out1 ++ out2)
  end.

(** The handler at end-of-queue: a sequence in progress is an error. *)
Definition finish (d : TextDecoder) : TextDecoder * list N :=
  if (bytes_needed d =? 0)%N then (d, [])
  else (mkDecoder (code_point d) (bytes_seen d) 0 (lower_boundary d)
          (upper_boundary d) (BOM_seen d), [REPLACEMENT]).

(** The UTF-16 code units of a scalar value. *)
Definition code_units (cp : N) : jsstring :=
  if (cp <? 0x10000)%N then [cp]
  else [(0xD800 + N.shiftr (cp - 0x10000) 10)%N;
        (0xDC00 + N.land (cp - 0x10000) 0x3FF)%N].

(** "Serialize I/O queue": the first scalar value ever output is dropped
    when it is the byte order mark. *)
Fixpoint serialize (bom : bool) (out : list N) : bool * jsstring :=
  match out with
  | [] => (bom, [])
  | cp :: r =>
      if negb bom && (cp =? 0xFEFF)%N then serialize true r
      else let '(bom', s) := serialize true r in (bom', code_units cp ++ s)
  end.

Definition set_BOM_seen (d : TextDecoder) (bom : bool) : TextDecoder :=
  mkDecoder (code_point d) (bytes_seen d) (bytes_needed d)
    (lower_boundary d) (upper_boundary d) bom.

(** [decoder.decode(chunk, { stream: true })]: the bytes are processed and
    end-of-queue is not given to the handler; the state is kept. *)
Definition decode_stream (d : TextDecoder) (bytes : chunk)
  : TextDecoder * jsstring :=
  let '(d1, out) := process d bytes in
  let '(bom, s) := serialize (BOM_seen d1) out in
  (set_BOM_seen d1 bom, s).

(** [decoder.decode(bytes)] without [stream]: the bytes are processed, then
    end-of-queue. *)
Definition decode (d : TextDecoder) (bytes : chunk) : jsstring :=
  let '(d1, out) := process d bytes in
  let '(_, fin) := finish d1 in
  snd (serialize (BOM_seen d1) (out ++ fin)).

(** [parseText(stream)]: one text chunk per byte chunk, decoded by the one
    [decoder] of the generator. *)
Fixpoint parseText_from (decoder : TextDecoder) (stream : list chunk)
  : list jsstring :=
  match stream with
  | [] => []
  | chunk :: rest =>
      let '(decoder', text) := decode_stream decoder chunk in
      text :: parseText_from decoder' rest
  end.

Definition parseText (stream : list chunk) : list jsstring :=
  parseText_from new_TextDecoder stream.

(** The decoder state of [parseText] once the stream is exhausted. *)
Fixpoint final_decoder (decoder : TextDecoder) (stream : list chunk)
  : TextDecoder :=
  match stream with
  | [] => decoder
  | chunk :: rest => final_decoder (fst (decode_stream decoder chunk)) rest
  end.

End Decoder.

(** ** The push-to-pull adapter *)

Module Adapter.

(** [IteratorResult<T, void>]: [{ value, done: false }] or
    [{ value: undefined, done: true }]. *)
Inductive IteratorResult (T : Type) :=
  | Value (value : T)
  | Done.
Arguments Value {T} value.
Arguments Done {T}.

Section Adapter.
Context {T : Type}.

(** The closure state of [convertSubscribableToIterator]. Promises handed
    out by [next()] are numbered in call order; [pendingResolve] holds the
    promise whose [resolve] function is stored, and [settled] logs, in the
    order it happens, which promise was resolved with which result. *)
Record state := mkState {
  pendingResolve : option nat;
  resultQueue : list (IteratorResult T);
  promises : nat;
  settled : list (nat * IteratorResult T)
}.

Definition init : state :=
  {| pendingResolve := None; resultQueue := []; promises := 0; settled := [] |}.

(** [emit(value)] *)
Definition emit (value : IteratorResult T) (s : state) : state :=
  match pendingResolve s with
  | Some p =>
      {| pendingResolve := None;
         resultQueue := resultQueue s;
         promises := promises s;
         settled := settled s ++ [(p, value)] |}
  | None =>
      {| pendingResolve := None;
         resultQueue := resultQueue s ++ [value];
         promises := promises s;
         settled := settled s |}
  end.

(** [next()]: the promise returned is number [promises s]. *)
Definition next (s : state) : state :=
  match resultQueue s with
  | r :: q =>
      {| pendingResolve := pendingResolve s;
         resultQueue := q;
         promises := S (promises s);
         settled := settled s ++ [(promises s, r)] |}
  | [] =>
      {| pendingResolve := Some (promises s);
         resultQueue := [];
         promises := S (promises s);
         settled := settled s |}
  end.

(** Several calls of [emit] in a row. *)
Definition emit_all (values : list (IteratorResult T)) (s : state) : state :=
  fold_left (fun a r => emit r a) values s.

(** An interleaving of producer and consumer calls. *)
Inductive call :=
  | Emit (value : IteratorResult T)
  | Next.

Definition step (s : state) (c : call) : state :=
  match c with
  | Emit v => emit v s
  | Next => next s
  end.

Definition run (s : state) (t : list call) : state := fold_left step t s.

(** The results passed to [emit], in call order, and the number of [next()]
    calls of an interleaving. *)
Fixpoint emitted (t : list call) : list (IteratorResult T) :=
  match t with
  | [] => []
  | Emit v :: r => v :: emitted r
  | Next :: r => emitted r
  end.

Fixpoint requests (t : list call) : nat :=
  match t with
  | [] => 0
  | Emit _ :: r => requests r
  | Next :: r => S (requests r)
  end.

(** The values among a list of results. *)
Fixpoint values (rs : list (IteratorResult T)) : list T :=
  match rs with
  | [] => []
  | Value v :: r => v :: values r
  | Done :: r => values r
  end.

(** The results delivered so far, in delivery order. *)
Definition delivered (s : state) : list (IteratorResult T) :=
  map snd (settled s).

(** The consumer discipline of [for await]: [next()] is not called while
    the promise of an earlier call is still pending. *)
Fixpoint serial (s : state) (t : list call) : bool :=
  match t with
  | [] => true
  | c :: r =>
      match c, pendingResolve s with
      | Next, Some _ => false
      | _, _ => serial (step s c) r
      end
  end.

End Adapter.
Arguments state T : clear implicits.
Arguments call T : clear implicits.

End Adapter.

(** ** The node boundary detector *)

Module Observer.

(** What the HTML parser does to the child nodes of the [<body>] it is
    building, while it reads a chunk given to [doc.write]: it appends a
    node, inserts a node before one already there (foster parenting), or
    changes the subtree of a node already there (more text, more
    descendants). *)
Inductive mutation :=
  | Append (n : Node)
  | InsertBefore (sibling : nat) (n : Node)
  | Extend (n : Node).

(** The effect of a text chunk on the document is the list of mutations the
    parser performs for it. *)
Definition write := list mutation.

(** A reference to a node object. *)
Definition ref := nat.

Fixpoint insertBefore (sibling : nat) (n : Node) (body : list Node)
  : list Node :=
  match body with
  | [] => [n]
  | c :: rest =>
      if Nat.eqb (nodeId c) sibling then n :: c :: rest
      else c :: insertBefore sibling n rest
  end.

Definition apply (body : list Node) (m : mutation) : list Node :=
  match m with
  | Append n => body ++ [n]
  | InsertBefore sibling n => insertBefore sibling n body
  | Extend n =>
      map (fun c => if Nat.eqb (nodeId c) (nodeId n) then n else c) body
  end.

(** The [addedNodes] of the records a [{ childList: true }] observer of the
    [<body>] under construction would be given: subtree changes are not
    reported. *)
Fixpoint addedNodes (w : write) : list ref :=
  match w with
  | [] => []
  | Append n :: r => nodeId n :: addedNodes r
  | InsertBefore _ n :: r => nodeId n :: addedNodes r
  | Extend _ :: r => addedNodes r
  end.

(** The closure state of the subscriber function returned by
    [parseAndObserveTopLevelNodeAdditions]: what the text stream still has
    to answer (chunks, or a failure), the element given to [obs.observe],
    the element that is [doc.body] now and its child nodes, whether the
    document has a parser, the [canceled] flag, whether the asynchronous
    loop has completed, and the chunks given to [doc.write]. *)
Record state := mkState {
  stream : list (completion write);
  observed : nat;
  documentBody : nat;
  parser : bool;
  body : list Node;
  canceled : bool;
  completed : bool;
  written : list write
}.

(** [document.implementation.createHTMLDocument()] gives a document with an
    empty [<body>] and no parser; [obs.observe(doc.body, ...)] is called on
    that element, before anything is written. *)
Definition subscribe (stream : list (completion write)) : state :=
  {| stream := stream; observed := 0; documentBody := 0; parser := false;
     body := []; canceled := false; completed := false; written := [] |}.

(** The element that is [doc.body] while a chunk is parsed. On a document
    without a parser [doc.write] first runs the document open steps: the
    children of the document are removed, the [<body>] it had among them,
    and the new parser builds another one. *)
Definition bodyWritten (s : state) : nat :=
  if parser s then documentBody s else S (documentBody s).

(** [doc.write(chunk)] and the callback of the observer that follows it:
    the nodes passed to [emit]. The observer is told of the children added
    to the element it observes. *)
Definition doc_write (chunk : write) (rest : list (completion write))
    (s : state) : state * list ref :=
  ({| stream := rest; observed := observed s;
      documentBody := bodyWritten s; parser := true;
      body := fold_left apply chunk (if parser s then body s else []);
      canceled := canceled s; completed := completed s;
      written := written s ++ [chunk] |},
   if Nat.eqb (observed s) (bodyWritten s) then addedNodes chunk else []).

(** The end of the asynchronous loop: the [finally] block disconnects the
    observer and emits the end-of-stream result, whether the stream ended,
    the loop was left by [break], or the stream failed; the error of a
    failed stream goes no further than the promise of the loop, which
    nobody holds. *)
Definition finish (rest : list (completion write)) (s : state)
  : state * list (Adapter.IteratorResult ref) :=
  ({| stream := rest; observed := observed s;
      documentBody := documentBody s; parser := parser s; body := body s;
      canceled := canceled s; completed := true; written := written s |},
   [Adapter.Done]).

(** One turn of the asynchronous loop, run when the stream answers: the
    results passed to [emit] in that turn. The observer's callback runs at
    the end of the turn that wrote the chunk. *)
Definition turn (s : state) : state * list (Adapter.IteratorResult ref) :=
  if completed s then (s, [])
  else
    match stream s with
    | [] => finish [] s
    | Throw _ :: rest => finish rest s
    | Return chunk :: rest =>
        if canceled s then finish rest s
        else
          let '(s', added) := doc_write chunk rest s in
          (s', map Adapter.Value added)
    end.

(** The [Cancel] function returned to the adapter. *)
Definition cancel (s : state) : state :=
  {| stream := stream s; observed := observed s;
     documentBody := documentBody s; parser := parser s; body := body s;
     canceled := true; completed := completed s; written := written s |}.

End Observer.

(** The iterator over observed nodes:
    [convertSubscribableToIterator(parseAndObserveTopLevelNodeAdditions(stream))]. *)
Module Nodes.

Record state := mkState {
  producer : Observer.state;
  iterator : Adapter.state Observer.ref;
  emissions : list (Adapter.IteratorResult Observer.ref)
}.

Definition create (stream : list (completion Observer.write)) : state :=
  {| producer := Observer.subscribe stream; iterator := Adapter.init;
     emissions := [] |}.

(** A turn of the producer, with its calls of [emit]. *)
Definition turn (s : state) : state :=
  let '(p, results) := Observer.turn (producer s) in
  {| producer := p;
     iterator := Adapter.emit_all results (iterator s);
     emissions := emissions s ++ results |}.

(** [nodes.next()] *)
Definition next (s : state) : state :=
  {| producer := producer s; iterator := Adapter.next (iterator s);
     emissions := emissions s |}.

(** [nodes.return()] (and [nodes.throw()], which has the same body): the
    subscription is canceled and the promise returned resolves with the
    second component. *)
Definition return_ (s : state)
  : state * Adapter.IteratorResult Observer.ref :=
  ({| producer := Observer.cancel (producer s); iterator := iterator s;
      emissions := emissions s |}, Adapter.Done).

Inductive event :=
  | Turn
  | Next
  | Return_.

Definition step (s : state) (e : event) : state :=
  match e with
  | Turn => turn s
  | Next => next s
  | Return_ => fst (return_ s)
  end.

Definition run (s : state) (t : list event) : state := fold_left step t s.

End Nodes.

(** [streamingParseTopLevelNodes]: the generator that holds each node back
    until the next one is received. *)
Module Detector.

Import Observer.

(** Where the generator body stands: not yet started, about to call
    [nodes.next()], awaiting the promise it returned, suspended at the
    [yield] inside the loop (with the loop variable [node]), suspended at
    the [yield] after the loop, completed by running to its end,
    completed by the consumer's [return()] at a [yield], or completed by
    [return()] before it had started, in which case the body never runs
    and nothing is subscribed. *)
Inductive position :=
  | NotStarted
  | LoopHead
  | Awaiting (p : nat)
  | InLoop (node : ref)
  | AfterLoop
  | Finished
  | Closed
  | Discarded.

(** [yielded] logs each node yielded to the consumer together with the node
    object as it is in the document at that moment. *)
Record state := mkState {
  nodes : Nodes.state;
  prevNode : option ref;
  control : position;
  yielded : list (ref * option Node)
}.

(** The node object behind a reference. *)
Definition deref (body : list Node) (r : ref) : option Node :=
  List.find (fun n => Nat.eqb (nodeId n) r) body.

(** The result a promise of [nodes.next()] was resolved with, if any. *)
Definition result_of (p : nat) (a : Adapter.state ref)
  : option (Adapter.IteratorResult ref) :=
  option_map snd (List.find (fun pr => Nat.eqb (fst pr) p) (Adapter.settled a)).

Definition yield (r : ref) (next_control : position) (s : state) : state :=
  {| nodes := nodes s; prevNode := prevNode s; control := next_control;
     yielded := yielded s
       ++ [(r, deref (Observer.body (Nodes.producer (nodes s))) r)] |}.

(** The loop body on a result of [nodes.next()], up to the next [yield]. *)
Definition handle (r : Adapter.IteratorResult ref) (s : state) : state :=
  match r with
  | Adapter.Value node =>
      match prevNode s with
      | Some prev => yield prev (InLoop node) s
      | None =>
          {| nodes := nodes s; prevNode := Some node; control := LoopHead;
             yielded := yielded s |}
      end
  | Adapter.Done =>
      match prevNode s with
      | Some prev => yield prev AfterLoop s
      | None =>
          {| nodes := nodes s; prevNode := None; control := Finished;
             yielded := yielded s |}
      end
  end.

(** At the loop head the generator calls [nodes.next()] and awaits it. *)
Definition pass (s : state) : state :=
  let p := Adapter.promises (Nodes.iterator (nodes s)) in
  let s' := {| nodes := Nodes.next (nodes s); prevNode := prevNode s;
              control := Awaiting p; yielded := yielded s |} in
  match result_of p (Nodes.iterator (nodes s')) with
  | Some r => handle r s'
  | None => s'
  end.

(** The generator runs until it is suspended: after the first node is
    stored in [prevNode] the loop goes round once more. *)
Fixpoint advance_for (rounds : nat) (s : state) : state :=
  match rounds with
  | 0 => s
  | S k =>
      match control s with
      | LoopHead => advance_for k (pass s)
      | _ => s
      end
  end.

Definition advance : state -> state := advance_for 2.

(** [streamingParseTopLevelNodes(stream)]: nothing runs before the first
    request. *)
Definition create (stream : list (completion write)) : state :=
  {| nodes := Nodes.create stream; prevNode := None; control := NotStarted;
     yielded := [] |}.

(** The consumer is a [for await] loop: it requests the next value
    ([Pull]) or closes the generator ([Close]) only while the generator is
    suspended at a [yield] or not started. [Turn] is a turn of the
    producer, after which an awaited promise that was resolved lets the
    generator run on. *)
Inductive event :=
  | Turn
  | Pull
  | Close.

Definition step (s : state) (e : event) : state :=
  match e with
  | Turn =>
      match control s with
      | NotStarted | Discarded => s
      | Awaiting p =>
          let s' := {| nodes := Nodes.turn (nodes s); prevNode := prevNode s;
                      control := Awaiting p; yielded := yielded s |} in
          match result_of p (Nodes.iterator (nodes s')) with
          | Some r => advance (handle r s')
          | None => s'
          end
      | c =>
          {| nodes := Nodes.turn (nodes s); prevNode := prevNode s;
             control := c; yielded := yielded s |}
      end
  | Pull =>
      match control s with
      | NotStarted =>
          advance {| nodes := nodes s; prevNode := prevNode s;
                     control := LoopHead; yielded := yielded s |}
      | InLoop node =>
          advance {| nodes := nodes s; prevNode := Some node;
                     control := LoopHead; yielded := yielded s |}
      | AfterLoop =>
          {| nodes := nodes s; prevNode := prevNode s; control := Finished;
             yielded := yielded s |}
      | _ => s
      end
  | Close =>
      match control s with
      | NotStarted =>
          {| nodes := nodes s; prevNode := prevNode s; control := Discarded;
             yielded := yielded s |}
      | AfterLoop =>
          {| nodes := nodes s; prevNode := prevNode s; control := Closed;
             yielded := yielded s |}
      | InLoop _ =>
          {| nodes := fst (Nodes.return_ (nodes s)); prevNode := prevNode s;
             control := Closed; yielded := yielded s |}
      | _ => s
      end
  end.

Definition run (s : state) (t : list event) : state := fold_left step t s.

(** The child nodes of [doc.body] once the given chunks have been
    written. *)
Definition final_body (chunks : list write) : list Node :=
  fold_left apply (concat chunks) [].

(** The results the generator has received from [nodes]. *)
Definition received (s : state) : list (Adapter.IteratorResult ref) :=
  Adapter.delivered (Nodes.iterator (nodes s)).

End Detector.

(** ** Invariants of the adapter *)

Section AdapterInvariants.
Context {T : Type}.
Implicit Types (s : Adapter.state T).

(** A stored [resolve] function and queued results never coexist; promise
    numbers in use are below the allocation counter, and no promise is
    resolved twice. *)
Definition adapter_inv s : Prop :=
  (Adapter.pendingResolve s <> None -> Adapter.resultQueue s = []) /\
  (forall p, Adapter.pendingResolve s = Some p -> p < Adapter.promises s) /\
  (forall p, p ∈ map fst (Adapter.settled s) -> p < Adapter.promises s) /\
  (forall p, Adapter.pendingResolve s = Some p ->
     p ∉ map fst (Adapter.settled s)) /\
  NoDup (map fst (Adapter.settled s)).

(** The state reached under the [for await] discipline: promises are
    settled in the order they were handed out, and at most the last one is
    outstanding. *)
Definition serial_inv s : Prop :=
  map fst (Adapter.settled s) = seq 0 (length (Adapter.settled s)) /\
  length (Adapter.settled s) + match Adapter.pendingResolve s with Some _ => 1 | None => 0 end
  = Adapter.promises s /\
  (forall p, Adapter.pendingResolve s = Some p ->
     p = length (Adapter.settled s) /\ Adapter.resultQueue s = []).

End AdapterInvariants.

(** ** Invariants of the observer and of the detector *)

(** The document is what the writes made of it, and once something has
    been written the element observed is not the [<body>] of the
    document. *)
Definition observer_inv (p : Observer.state) : Prop :=
  Observer.body p = Detector.final_body (Observer.written p) /\
  if Observer.parser p
  then Observer.observed p <> Observer.documentBody p
  else Observer.observed p = Observer.documentBody p /\
       Observer.written p = [].

(** All the observer ever emits is the end-of-stream result, once. *)
Definition nodes_inv (n : Nodes.state) : Prop :=
  observer_inv (Nodes.producer n) /\
  Nodes.emissions n
  = (if Observer.completed (Nodes.producer n) then [Adapter.Done] else []) /\
  adapter_inv (Nodes.iterator n) /\
  Adapter.delivered (Nodes.iterator n) ++ Adapter.resultQueue (Nodes.iterator n)
  = Nodes.emissions n.

(** The generator has never been handed a node. *)
Definition detector_inv (s : Detector.state) : Prop :=
  nodes_inv (Detector.nodes s) /\
  Detector.prevNode s = None /\
  Detector.yielded s = [] /\
  match Detector.control s with
  | Detector.InLoop _ | Detector.AfterLoop => False
  | _ => True
  end.

(** ** The streaming pipeline: [iterateReader], [streamingParse] *)

Module Streaming.

(** What a call of [reader.read()] settles with: [{ value, done }], where
    [value] is a chunk or [undefined], or a rejection. The reader is used
    at [Uint8Array], whose values are all truthy. *)
Inductive ReadResult (T : Type) :=
  | Read (value : option T) (done : bool)
  | Rejected (e : exn).
Arguments Read {T} value done.
Arguments Rejected {T} e.

(** How far the generator of [iterateReader] has come: awaiting a read,
    completed, or completed by the error of a read. *)
Inductive progress :=
  | Reading
  | Completed
  | Failed (e : exn).

(** [iterateReader(stream)] against the results of successive reads, for a
    consumer that keeps requesting: the chunks yielded and where the
    generator stands when the results given are used up. *)
Fixpoint iterateReader {T} (reads : list (ReadResult T)) : list T * progress :=
  match reads with
  | [] => ([], Reading)
  | Rejected e :: _ => ([], Failed e)
  | Read value done :: rest =>
      let yielded := match value with Some v => [v] | None => [] end in
      if done then (yielded, Completed)
      else let '(more, p) := iterateReader rest in (yielded ++ more, p)
  end.

(** The [finally] block has run, [reader.releaseLock()] has been called,
    once the generator is completed either way. *)
Definition lockReleased (p : progress) : bool :=
  match p with
  | Reading => false
  | Completed | Failed _ => true
  end.

(** The number of calls of [reader.read()] made. *)
Fixpoint reads_made {T} (reads : list (ReadResult T)) : nat :=
  match reads with
  | [] => 1
  | Rejected _ :: _ => 1
  | Read _ done :: rest => if done then 1 else S (reads_made rest)
  end.

(** [streamingParse]: each node that [dropWhitespaceNodes] lets through is
    wrapped by [Fragment.of]. *)
Definition streamingParse (nodes : list Node) : list Fragment :=
  map Fragment_of (Filter.dropWhitespaceNodes nodes).

End Streaming.

(** ** The router *)

Module Router.

(** A [Route]: the pathname, the entries of the search parameters in
    order, and the hash of a URL. *)
Record Route := mkRoute {
  path : string;
  params : list (string * string);
  hash : string
}.

(** [zip(first, second)]: under the length check every index of [first] is
    an index of [second], so the pairs are the two arrays side by
    side. [new Error()] has an empty message. *)
Definition zip {T1 T2 : Type} (first : list T1) (second : list T2)
  : completion (list (T1 * T2)) :=
  if negb (Nat.eqb (length first) (length second)) then Throw (Error EmptyString)
  else Return (combine first second).

(** The loop of [routeEquals] over the zipped entries. *)
Fixpoint entriesEqual (zippedParams : list ((string * string) * (string * string)))
  : bool :=
  match zippedParams with
  | [] => true
  | ((firstName, firstValue), (secondName, secondValue)) :: rest =>
      if negb (String.eqb firstName secondName) then false
      else if negb (String.eqb firstValue secondValue) then false
      else entriesEqual rest
  end.

(** [routeEquals(first, second)] *)
Definition routeEquals (first second : Route) : completion bool :=
  if negb (String.eqb (path first) (path second)) then Return false
  else if negb (String.eqb (hash first) (hash second)) then Return false
  else
    match zip (params first) (params second) with
    | Throw e => Throw e
    | Return zippedParams => Return (entriesEqual zippedParams)
    end.

(** The router element and the module-level [currentRoute]: the fragment
    cache with the child nodes each cached fragment holds, the child nodes
    of the content root, the URLs given to [history.pushState] and the
    routes [route()] was called with. *)
Record state := mkState {
  currentRoute : Route;
  fragmentCache : gmap string (list Node);
  content : list Node;
  pushed : list string;
  routed : list Route
}.

Section Navigate.

(** [params.toString()] of [URLSearchParams]. *)
Variable serializeParams : list (string * string) -> string.

(** [route.toString()] *)
Definition toString (r : Route) : string :=
  path r +:+ "?" +:+ serializeParams (params r) +:+ hash r.

(** How the promise of the subclass's [route(route)] settles at its n-th
    call: with the child nodes of a fragment, or rejected. *)
Variable route : nat -> Route -> completion (list Node).

(** The end of [navigate]: the children of the content root move into a
    new fragment cached under the previous route, and the children of
    [newFragment] move into the content root. A fragment taken from the
    cache stays in the map, emptied, unless the previous route has the same
    key. *)
Definition swap (prevRoute : Route) (newFragment : list Node) (cached : bool)
    (s : state) : state :=
  let cache1 := <[toString prevRoute := content s]> (fragmentCache s) in
  let cache2 :=
    if cached && negb (String.eqb (toString prevRoute)
                         (toString (currentRoute s)))
    then <[toString (currentRoute s) := []]> cache1
    else cache1 in
  {| currentRoute := currentRoute s; fragmentCache := cache2;
     content := newFragment; pushed := pushed s; routed := routed s |}.

(** [navigate(route)], for a navigation that has settled before the next
    one starts. *)
Definition navigate (target : Route) (s : state) : state * completion unit :=
  let prevRoute := currentRoute s in
  let s1 := {| currentRoute := target; fragmentCache := fragmentCache s;
               content := content s; pushed := pushed s;
               routed := routed s |} in
  match routeEquals prevRoute target with
  | Throw e => (s1, Throw e)
  | Return true => (s1, Return tt)
  | Return false =>
      let s2 := {| currentRoute := target; fragmentCache := fragmentCache s;
                   content := content s;
                   pushed := pushed s ++ [path target +:+ hash target];
                   routed := routed s |} in
      match fragmentCache s !! toString target with
      | Some newFragment => (swap prevRoute newFragment true s2, Return tt)
      | None =>
          let s3 := {| currentRoute := target;
                       fragmentCache := fragmentCache s;
                       content := content s; pushed := pushed s2;
                       routed := routed s ++ [target] |} in
          match route (length (routed s)) target with
          | Throw e => (s3, Throw e)
          | Return newFragment =>
              (swap prevRoute newFragment false s3, Return tt)
          end
      end
  end.

End Navigate.

End Router.

(** ** The [<em-bed>] element *)

Module Embed.

(** The [loaded] field and the URLs given to [fetch]. *)
Record state := mkState {
  loaded : bool;
  fetched : list string
}.

Definition init : state := {| loaded := false; fetched := [] |}.

(** [connectedCallback()], with the answer of [getAttribute('src')] at
    that moment. *)
Definition connectedCallback (src : option string) (s : state)
  : state * completion unit :=
  if loaded s then (s, Return tt)
  else
    match src with
    | None | Some EmptyString =>
        (s, Throw (Error "<em-bed /> requires a `src` attribute."))
    | Some url =>
        ({| loaded := true; fetched := fetched s ++ [url] |}, Return tt)
    end.

(** The element attached again and again. *)
Definition connect_all (srcs : list (option string)) (s : state) : state :=
  fold_left (fun s src => fst (connectedCallback src s)) srcs s.

End Embed.

(** ** What [querySelectorAll] does not reach *)

(** The nodes kept in the contents of templates and in shadow trees, of a
    node and of its descendants: [querySelectorAll] on the node finds
    neither them nor anything below them. *)
Fixpoint hidden (n : Node) : list Node :=
  let hidden_in := fix hidden_in (l : list Node) : list Node :=
    match l with
    | [] => []
    | c :: r => hidden c ++ hidden_in r
    end in
  match n with
  | ElementNode _ _ _ kids content shadow =>
      content
      ++ match shadow with Some (_, l) => l | None => [] end
      ++ hidden_in kids
  | DocumentFragmentNode _ kids => hidden_in kids
  | _ => []
  end.

Fixpoint hidden_in (l : list Node) : list Node :=
  match l with
  | [] => []
  | c :: r => hidden c ++ hidden_in r
  end.

(** * Properties *)

(** ** The push-to-pull adapter *)

Section AdapterFacts.
Context {T : Type}.
Implicit Types (s : Adapter.state T) (t : list (Adapter.call T)).

Lemma adapter_inv_init : adapter_inv (@Adapter.init T).
Proof.
  unfold adapter_inv; simpl. repeat split; try congruence.
  - intros p Hp. inversion Hp.
  - constructor.
Qed.

Lemma NoDup_snoc_fresh (l : list nat) (p : nat) :
  NoDup l -> p ∉ l -> NoDup (l ++ [p]).
Proof.
  intros Hd Hp. apply NoDup_app. split; [exact Hd|]. split.
  - intros x Hx Hx'. apply list_elem_of_singleton in Hx'. subst. auto.
  - apply NoDup_singleton.
Qed.

Lemma adapter_inv_emit s v : adapter_inv s -> adapter_inv (Adapter.emit v s).
Proof.
  intros (Hq & Hp & Hs & Hn & Hd). unfold Adapter.emit, adapter_inv.
  destruct (Adapter.pendingResolve s) as [p|] eqn:E; simpl.
  - split; [congruence|]. split; [congruence|]. split; [|split; [congruence|]].
    + intros x. rewrite map_app, elem_of_app. simpl.
      intros [Hx|Hx]; [auto|].
      apply list_elem_of_singleton in Hx. subst. auto.
    + rewrite map_app. simpl. apply NoDup_snoc_fresh; auto.
  - split; [congruence|]. split; [congruence|]. split; [auto|].
    split; [congruence|auto].
Qed.

Lemma adapter_inv_next s : adapter_inv s -> adapter_inv (Adapter.next s).
Proof.
  intros (Hq & Hp & Hs & Hn & Hd). unfold Adapter.next, adapter_inv.
  destruct (Adapter.resultQueue s) as [|r q] eqn:E; simpl.
  - split; [auto|]. split; [intros p [= <-]; lia|].
    split; [intros p Hin; specialize (Hs p Hin); lia|].
    split; [|auto].
    intros p [= <-] Hin. specialize (Hs _ Hin). lia.
  - assert (Hnone : Adapter.pendingResolve s = None).
    { destruct (Adapter.pendingResolve s) eqn:E'; auto.
      assert (r :: q = []) by (apply Hq; congruence). congruence. }
    rewrite Hnone. split; [congruence|]. split; [congruence|].
    split; [|split; [congruence|]].
    + intros x. rewrite map_app, elem_of_app. simpl.
      intros [Hx|Hx]; [specialize (Hs x Hx); lia|].
      apply list_elem_of_singleton in Hx. subst. lia.
    + rewrite map_app. simpl. apply NoDup_snoc_fresh; auto.
      intros Hin. specialize (Hs _ Hin). lia.
Qed.

Lemma adapter_inv_step s c : adapter_inv s -> adapter_inv (Adapter.step s c).
Proof.
  destruct c; simpl; auto using adapter_inv_emit, adapter_inv_next.
Qed.

Lemma adapter_inv_run t : forall s, adapter_inv s -> adapter_inv (Adapter.run s t).
Proof.
  induction t as [|c t IH]; intros s H; simpl; auto.
  apply IH, adapter_inv_step, H.
Qed.

(** Whatever the interleaving, the results delivered so far followed by the
    results still queued are the results emitted, in emission order. *)
Lemma adapter_values_step s c :
  adapter_inv s ->
  Adapter.delivered (Adapter.step s c) ++ Adapter.resultQueue (Adapter.step s c)
  = (Adapter.delivered s ++ Adapter.resultQueue s) ++ Adapter.emitted [c].
Proof.
  intros (Hq & _). unfold Adapter.delivered.
  destruct c as [v|]; simpl.
  - unfold Adapter.emit. destruct (Adapter.pendingResolve s) eqn:E; simpl.
    + rewrite Hq by congruence. rewrite map_app. simpl.
      now rewrite !app_nil_r.
    + now rewrite app_assoc.
  - unfold Adapter.next. destruct (Adapter.resultQueue s) eqn:E; simpl.
    + now rewrite !app_nil_r.
    + rewrite map_app. simpl. now rewrite app_nil_r, <- app_assoc.
Qed.

Lemma emitted_app t1 t2 :
  Adapter.emitted (t1 ++ t2) = Adapter.emitted t1 ++ @Adapter.emitted T t2.
Proof.
  induction t1 as [|[v|] t1 IH]; simpl; auto. now rewrite IH.
Qed.

Lemma adapter_values_run t : forall s,
  adapter_inv s ->
  Adapter.delivered (Adapter.run s t) ++ Adapter.resultQueue (Adapter.run s t)
  = (Adapter.delivered s ++ Adapter.resultQueue s) ++ Adapter.emitted t.
Proof.
  induction t as [|c t IH]; intros s H; simpl.
  - now rewrite app_nil_r.
  - rewrite IH by now apply adapter_inv_step.
    rewrite adapter_values_step by assumption.
    rewrite <- app_assoc. f_equal. now destruct c.
Qed.

Lemma serial_inv_step s c :
  serial_inv s ->
  match c, Adapter.pendingResolve s with
  | Adapter.Next, Some _ => False
  | _, _ => True
  end ->
  serial_inv (Adapter.step s c).
Proof.
  intros (Hs & Hl & Hq) Hc. unfold serial_inv.
  destruct c as [v|]; simpl.
  - unfold Adapter.emit. destruct (Adapter.pendingResolve s) eqn:E; simpl.
    + rewrite map_app, length_app, seq_app, Hs. simpl.
      destruct (Hq _ eq_refl) as [-> _].
      split; [reflexivity|]. split; [lia|congruence].
    + split; [auto|]. split; [lia|congruence].
  - destruct (Adapter.pendingResolve s) eqn:E; [contradiction|].
    unfold Adapter.next. destruct (Adapter.resultQueue s) eqn:E'; simpl.
    + split; [auto|]. split; [lia|]. intros p [= <-]. split; [lia|auto].
    + rewrite E. rewrite map_app, length_app, seq_app, Hs. simpl.
      split; [do 2 f_equal; lia|]. split; [lia|congruence].
Qed.

Lemma serial_inv_run t : forall s,
  serial_inv s -> Adapter.serial s t = true -> serial_inv (Adapter.run s t).
Proof.
  induction t as [|c t IH]; intros s H Hser; simpl in *; auto.
  apply IH.
  - apply serial_inv_step; auto.
    destruct c; auto. destruct (Adapter.pendingResolve s); [discriminate|auto].
  - destruct c; auto. destruct (Adapter.pendingResolve s); [discriminate|auto].
Qed.

Lemma promises_run t : forall s,
  Adapter.promises (Adapter.run s t) = Adapter.promises s + Adapter.requests t.
Proof.
  induction t as [|c t IH]; intros s; simpl; [lia|].
  rewrite IH. destruct c as [v|]; simpl.
  - unfold Adapter.emit. destruct (Adapter.pendingResolve s); simpl; lia.
  - unfold Adapter.next. destruct (Adapter.resultQueue s); simpl; lia.
Qed.

Lemma zip_fst_snd {A B} (l : list (A * B)) : zip (map fst l) (map snd l) = l.
Proof. induction l as [|[a b] l IH]; simpl; congruence. Qed.

End AdapterFacts.

(** C1 (as amended). For every interleaving of [emit] and [next()] calls the
    results delivered, followed by the results still queued, are exactly the
    results emitted, in emission order, and no promise is resolved twice.
    When [next()] is never called while an earlier request is pending, the
    i-th request receives the i-th emitted result, for every i below both
    the number of requests and the number of emits. *)
Theorem adapter_delivers_in_emission_order {T} (t : list (Adapter.call T)) :
  let s := Adapter.run Adapter.init t in
  let k := Nat.min (Adapter.requests t) (length (Adapter.emitted t)) in
  Adapter.delivered s ++ Adapter.resultQueue s = Adapter.emitted t /\
  NoDup (map fst (Adapter.settled s)) /\
  (Adapter.serial Adapter.init t = true ->
   Adapter.settled s = zip (seq 0 k) (take k (Adapter.emitted t))).
Proof.
  intros s k.
  pose proof (adapter_inv_run t _ adapter_inv_init) as (Hq & _ & _ & _ & Hd).
  pose proof (adapter_values_run t _ adapter_inv_init) as Hv. simpl in Hv.
  fold s in Hq, Hd, Hv. split; [exact Hv|]. split; [exact Hd|].
  intros Hser.
  assert (Hi : serial_inv (@Adapter.init T)).
  { unfold serial_inv; simpl. split; [auto|]. split; [auto|congruence]. }
  pose proof (serial_inv_run t _ Hi Hser) as (Hs & Hl & _). fold s in Hs, Hl.
  pose proof (promises_run t (@Adapter.init T)) as Hp. simpl in Hp. fold s in Hp.
  assert (Hlen : length (Adapter.delivered s) = length (Adapter.settled s))
    by (unfold Adapter.delivered; now rewrite length_map).
  assert (Hk : length (Adapter.settled s) = k).
  { unfold k. rewrite <- Hv, length_app, Hlen.
    destruct (Adapter.pendingResolve s) eqn:E.
    - rewrite Hq by congruence. simpl. lia.
    - lia. }
  rewrite <- (zip_fst_snd (Adapter.settled s)) at 1.
  rewrite Hs, Hk. f_equal.
  rewrite <- Hv, take_app_length'; [reflexivity|]. now rewrite Hlen.
Qed.

Lemma adapter_delivers_in_emission_order_witness :
  let t := [Adapter.Emit (Adapter.Value 7); Adapter.Next; Adapter.Next;
            Adapter.Emit (Adapter.Value 8); Adapter.Emit Adapter.Done] in
  Adapter.serial Adapter.init t = true /\
  Adapter.settled (Adapter.run Adapter.init t)
  = [(0, Adapter.Value 7); (1, Adapter.Value 8)].
Proof.
  intros t. split; [reflexivity|].
  destruct (adapter_delivers_in_emission_order t) as (_ & _ & H).
  rewrite H; reflexivity.
Defined.

(** C1 (as stated) fails: with two [next()] calls before any [emit], the
    second call overwrites the stored [resolve] of the first. Two requests
    and two emits later only one result has been delivered, to the second
    request; the first request is never answered. *)
Lemma adapter_overlapping_requests_counterexample :
  let t := [Adapter.Next; Adapter.Next;
            Adapter.Emit (Adapter.Value 10); Adapter.Emit (Adapter.Value 20)] in
  Adapter.settled (Adapter.run Adapter.init t) = [(1, Adapter.Value 10)] /\
  Adapter.resultQueue (Adapter.run Adapter.init t) = [Adapter.Value 20] /\
  ~ (forall t : list (Adapter.call nat),
       length (Adapter.emitted t) <= Adapter.requests t ->
       Adapter.delivered (Adapter.run Adapter.init t) = Adapter.emitted t).
Proof.
  intros t. split; [reflexivity|]. split; [reflexivity|].
  intros H. specialize (H t). simpl in H.
  specialize (H (le_n 2)). discriminate H.
Qed.

(** ** The whitespace filter *)

Lemma trimStart_nil_iff (s : jsstring) :
  trimStart s = [] <-> forallb isWhiteSpace s = true.
Proof.
  induction s as [|c s IH]; simpl; [tauto|].
  destruct (isWhiteSpace c); simpl; [exact IH|].
  split; discriminate.
Qed.

Lemma trimStart_suffix (s : jsstring) :
  exists p, s = p ++ trimStart s /\ forallb isWhiteSpace p = true.
Proof.
  induction s as [|c s (p & Hp & Hw)]; simpl.
  - now exists [].
  - destruct (isWhiteSpace c) eqn:E.
    + exists (c :: p). simpl. rewrite E, Hw. split; [congruence|reflexivity].
    + now exists [].
Qed.

Lemma forallb_rev {A} (f : A -> bool) (l : list A) :
  forallb f (rev l) = forallb f l.
Proof.
  induction l as [|a l IH]; simpl; auto.
  rewrite forallb_app, IH. simpl. rewrite andb_true_r. apply andb_comm.
Qed.

(** [s.trim() === ''] holds exactly when every code unit of [s] is white
    space. *)
Lemma trim_nil_iff (s : jsstring) :
  trim s = [] <-> forallb isWhiteSpace s = true.
Proof.
  unfold trim, trimEnd. split.
  - intros H. apply (f_equal (@rev N)) in H. rewrite rev_involutive in H.
    simpl in H. apply trimStart_nil_iff in H. rewrite forallb_rev in H.
    destruct (trimStart_suffix s) as (p & Hp & Hw).
    rewrite Hp, forallb_app, Hw, H. reflexivity.
  - intros H. apply trimStart_nil_iff in H. rewrite H. reflexivity.
Qed.

(** C8. [dropWhitespaceNodes] keeps, in their order and unmodified, exactly
    the nodes that are not whitespace, and a node is whitespace exactly when
    it is a text node all of whose code units are white space (so that its
    trimmed content is empty); a text node holding a code unit that is not
    white space is kept, and so is every node that is not a text node. *)
Theorem dropWhitespaceNodes_removes_exactly_blank_text (nodes : list Node) :
  Filter.dropWhitespaceNodes nodes
  = List.filter (fun n => negb (Filter.isWhitespace n)) nodes /\
  (forall n, Filter.isWhitespace n = true <->
     exists i d, n = TextNode i d /\ trim d = []) /\
  (forall i d, existsb (fun c => negb (isWhiteSpace c)) d = true ->
     In (TextNode i d) nodes ->
     In (TextNode i d) (Filter.dropWhitespaceNodes nodes)) /\
  (forall n, nodeType n <> TEXT_NODE -> In n nodes ->
     In n (Filter.dropWhitespaceNodes nodes)).
Proof.
  assert (Heq : Filter.dropWhitespaceNodes nodes
    = List.filter (fun n => negb (Filter.isWhitespace n)) nodes).
  { induction nodes as [|n l IH]; simpl; [reflexivity|].
    destruct (negb (Filter.isWhitespace n)); congruence. }
  split; [exact Heq|]. split; [|split].
  - intros n. unfold Filter.isWhitespace. split.
    + destruct n as [i d|i d|i tg a k c sh|i k]; simpl; try discriminate.
      destruct (trim d) eqn:E; [|discriminate]. intros _. now exists i, d.
    + intros (i & d & -> & Hd). simpl. now rewrite Hd.
  - intros i d Hex Hin. rewrite Heq. apply filter_In. split; [exact Hin|].
    unfold Filter.isWhitespace. simpl.
    destruct (trim d) eqn:E; [|reflexivity].
    apply trim_nil_iff in E. exfalso.
    apply existsb_exists in Hex as (c & Hc & Hn).
    rewrite forallb_forall in E. rewrite (E c Hc) in Hn. discriminate.
  - intros n Hn Hin. rewrite Heq. apply filter_In. split; [exact Hin|].
    unfold Filter.isWhitespace.
    destruct (N.eqb_spec (nodeType n) TEXT_NODE); [contradiction|reflexivity].
Qed.

Lemma dropWhitespaceNodes_removes_exactly_blank_text_witness :
  let a := ElementNode 1 "div" [] [TextNode 2 [65%N]] [] None in
  let w := TextNode 3 [32%N; 32%N] in
  let m := TextNode 4 [32%N; 66%N; 10%N] in
  Filter.dropWhitespaceNodes [a; w; m] = [a; m] /\
  In m (Filter.dropWhitespaceNodes [a; w; m]) /\
  In a (Filter.dropWhitespaceNodes [a; w; m]).
Proof.
  intros a w m. split; [reflexivity|].
  destruct (dropWhitespaceNodes_removes_exactly_blank_text [a; w; m])
    as (_ & _ & Ht & Hn).
  split.
  - apply (Ht 4 [32%N; 66%N; 10%N]); [reflexivity|simpl; tauto].
  - apply (Hn a); [discriminate|simpl; tauto].
Defined.

(** ** The whole-response parser *)

Lemma indexOf_range c s :
  (WholeResponse.indexOf c s = -1 \/
   0 <= WholeResponse.indexOf c s < Z.of_nat (String.length s))%Z.
Proof.
  induction s as [|a r IH]; simpl; [now left|].
  destruct (Ascii.eqb a c); [right; lia|].
  destruct (Z.eqb_spec (WholeResponse.indexOf c r) (-1)); [now left|].
  right. lia.
Qed.

Lemma indexOf_split c s :
  WholeResponse.indexOf c s <> (-1)%Z ->
  exists r,
    s = WholeResponse.slice0 s (WholeResponse.indexOf c s) +:+ String c r /\
    WholeResponse.indexOf c
      (WholeResponse.slice0 s (WholeResponse.indexOf c s)) = (-1)%Z.
Proof.
  unfold WholeResponse.slice0.
  induction s as [|a r IH]; simpl; [congruence|].
  destruct (Ascii.eqb_spec a c) as [->|Hne].
  - intros _. exists r. simpl. split; reflexivity.
  - destruct (Z.eqb_spec (WholeResponse.indexOf c r) (-1)) as [|Hi]; [congruence|].
    intros _. destruct (IH Hi) as (r' & Hr & Hn).
    exists r'. pose proof (indexOf_range c r) as [?|Hrange]; [congruence|].
    replace (Z.to_nat (WholeResponse.indexOf c r + 1))
      with (S (Z.to_nat (WholeResponse.indexOf c r))) by lia.
    simpl. split; [change (String a r = String a
      (substring 0 (Z.to_nat (WholeResponse.indexOf c r)) r +:+ String c r'));
      now rewrite <- Hr|].
    destruct (Ascii.eqb_spec a c); [contradiction|]. now rewrite Hn.
Qed.

(** C6 (as amended). [parseDomFragment] throws its "no Content-Type" error
    exactly when the Content-Type header is absent or is the empty string.
    Otherwise the host parser is called with the part of the header value
    that precedes the first semicolon (the whole value when there is none),
    and what it returns is wrapped in a fragment. *)
Theorem parseDomFragment_content_type
    (parseFromString : string -> string -> option (list Node))
    (frag : nat) (res : WholeResponse.Response) :
  (WholeResponse.parseDomFragment parseFromString frag res
   = Throw (Error "Response has no Content-Type.") <->
   WholeResponse.contentTypeHeader res = None \/
   WholeResponse.contentTypeHeader res = Some "") /\
  (forall ct, WholeResponse.contentTypeHeader res = Some ct -> ct <> "" ->
     WholeResponse.parseDomFragment parseFromString frag res
     = match parseFromString (WholeResponse.text res)
               (WholeResponse.simpleContentType ct) with
       | Some nodes => Return (Fragment_of (DocumentFragmentNode frag nodes))
       | None => Throw (HostException "TypeError")
       end /\
     WholeResponse.indexOf ";" (WholeResponse.simpleContentType ct) = (-1)%Z /\
     (WholeResponse.simpleContentType ct = ct \/
      exists params,
        ct = WholeResponse.simpleContentType ct +:+ String ";" params)).
Proof.
  unfold WholeResponse.parseDomFragment. split.
  - destruct (WholeResponse.contentTypeHeader res) as [[|a ct]|]; split;
      auto; try (intros [H|H]; discriminate).
    destruct (parseFromString _ _); discriminate.
  - intros ct -> Hne. destruct ct as [|a ct]; [congruence|].
    split; [reflexivity|].
    unfold WholeResponse.simpleContentType.
    destruct (Z.eqb_spec (WholeResponse.indexOf ";" (String a ct)) (-1)) as [E|E].
    + split; [exact E|now left].
    + destruct (indexOf_split _ _ E) as (r & Hr & Hn).
      split; [exact Hn|]. right. now exists r.
Qed.

Lemma parseDomFragment_content_type_witness :
  let parser := fun (_ _ : string) => Some [TextNode 1 [104%N; 105%N]] in
  let res := WholeResponse.mkResponse "hi" (Some "text/html; charset=utf-8") in
  WholeResponse.simpleContentType "text/html; charset=utf-8" = "text/html" /\
  WholeResponse.parseDomFragment parser 0 res
  = Return (Fragment_of (DocumentFragmentNode 0 [TextNode 1 [104%N; 105%N]])).
Proof.
  intros parser res. split; [reflexivity|].
  destruct (parseDomFragment_content_type parser 0 res) as (_ & H).
  destruct (H "text/html; charset=utf-8") as (-> & _);
    [reflexivity|discriminate|reflexivity].
Defined.

(** C6 (as stated) fails: a response that carries a Content-Type header whose
    value is the empty string makes [!contentType] true, and the parser
    throws the same error as for a missing header. *)
Lemma parseDomFragment_empty_content_type_counterexample :
  let parser := fun (_ _ : string) => Some ([] : list Node) in
  let res := WholeResponse.mkResponse "<p>x</p>" (Some "") in
  WholeResponse.parseDomFragment parser 0 res
  = Throw (Error "Response has no Content-Type.") /\
  WholeResponse.contentTypeHeader res <> None /\
  ~ (forall parser frag res,
       WholeResponse.parseDomFragment parser frag res
       = Throw (Error "Response has no Content-Type.") <->
       WholeResponse.contentTypeHeader res = None).
Proof.
  intros parser res. split; [reflexivity|]. split; [discriminate|].
  intros H. destruct (H parser 0 res) as [H1 _].
  specialize (H1 eq_refl). discriminate H1.
Qed.

(** ** The byte-to-text decoder *)

Lemma lead_BOM bom b :
  Decoder.BOM_seen (fst (Decoder.lead bom b)) = bom.
Proof.
  unfold Decoder.lead.
  repeat match goal with |- context [if ?c then _ else _] => destruct c end;
    reflexivity.
Qed.

Lemma handler_BOM d b :
  Decoder.BOM_seen (fst (Decoder.handler d b)) = Decoder.BOM_seen d.
Proof.
  unfold Decoder.handler.
  destruct (Decoder.bytes_needed d =? 0)%N; [apply lead_BOM|].
  destruct (negb _).
  - pose proof (lead_BOM (Decoder.BOM_seen d) b) as H.
    destruct (Decoder.lead (Decoder.BOM_seen d) b). exact H.
  - destruct (_ =? _)%N; reflexivity.
Qed.

Lemma process_BOM bytes : forall d,
  Decoder.BOM_seen (fst (Decoder.process d bytes)) = Decoder.BOM_seen d.
Proof.
  induction bytes as [|b r IH]; intros d; simpl; [reflexivity|].
  pose proof (handler_BOM d b) as Hh.
  destruct (Decoder.handler d b) as [d1 o1]. simpl in Hh.
  specialize (IH d1). destruct (Decoder.process d1 r) as [d2 o2].
  simpl in *. congruence.
Qed.

(** The handler does not read the BOM flag. *)
Lemma handler_set_BOM d bom b :
  Decoder.handler (Decoder.set_BOM_seen d bom) b
  = (Decoder.set_BOM_seen (fst (Decoder.handler d b)) bom,
     snd (Decoder.handler d b)).
Proof.
  unfold Decoder.handler, Decoder.set_BOM_seen, Decoder.lead. simpl.
  repeat match goal with |- context [if ?c then _ else _] => destruct c end;
    reflexivity.
Qed.

Lemma process_set_BOM bytes : forall d bom,
  Decoder.process (Decoder.set_BOM_seen d bom) bytes
  = (Decoder.set_BOM_seen (fst (Decoder.process d bytes)) bom,
     snd (Decoder.process d bytes)).
Proof.
  induction bytes as [|b r IH]; intros d bom; simpl; [reflexivity|].
  rewrite handler_set_BOM.
  destruct (Decoder.handler d b) as [d1 o1]. simpl.
  rewrite IH. destruct (Decoder.process d1 r) as [d2 o2]. reflexivity.
Qed.

Lemma process_app a : forall d b,
  Decoder.process d (a ++ b)
  = (fst (Decoder.process (fst (Decoder.process d a)) b),
     snd (Decoder.process d a)
     ++ snd (Decoder.process (fst (Decoder.process d a)) b)).
Proof.
  induction a as [|x a IH]; intros d b; simpl.
  - now destruct (Decoder.process d b).
  - destruct (Decoder.handler d x) as [d1 o1]. rewrite IH.
    destruct (Decoder.process d1 a) as [d2 o2]. simpl.
    destruct (Decoder.process d2 b) as [d3 o3]. simpl.
    now rewrite app_assoc.
Qed.

Lemma serialize_app o1 : forall bom o2,
  Decoder.serialize bom (o1 ++ o2)
  = (fst (Decoder.serialize (fst (Decoder.serialize bom o1)) o2),
     snd (Decoder.serialize bom o1)
     ++ snd (Decoder.serialize (fst (Decoder.serialize bom o1)) o2)).
Proof.
  induction o1 as [|cp o1 IH]; intros bom o2; simpl.
  - now destruct (Decoder.serialize bom o2).
  - destruct (negb bom && (cp =? 65279)%N).
    + apply IH.
    + rewrite IH. destruct (Decoder.serialize true o1) as [b1 s1]. simpl.
      destruct (Decoder.serialize b1 o2) as [b2 s2]. simpl.
      now rewrite app_assoc.
Qed.

Lemma finish_set_BOM d bom :
  snd (Decoder.finish (Decoder.set_BOM_seen d bom)) = snd (Decoder.finish d).
Proof.
  unfold Decoder.finish, Decoder.set_BOM_seen. simpl.
  destruct (Decoder.bytes_needed d =? 0)%N; reflexivity.
Qed.

(** Decoding a chunk in streaming mode and then the rest is decoding the
    concatenation. *)
Lemma decode_app d a b :
  Decoder.decode d (a ++ b)
  = snd (Decoder.decode_stream d a)
    ++ Decoder.decode (fst (Decoder.decode_stream d a)) b.
Proof.
  unfold Decoder.decode, Decoder.decode_stream.
  rewrite process_app.
  pose proof (process_BOM a d) as Ha.
  destruct (Decoder.process d a) as [d1 o1]. simpl in *.
  destruct (Decoder.serialize (Decoder.BOM_seen d1) o1) as [bom s1] eqn:Es.
  simpl. rewrite process_set_BOM.
  pose proof (process_BOM b d1) as Hb.
  destruct (Decoder.process d1 b) as [d2 o2]. simpl in *.
  pose proof (finish_set_BOM d2 bom) as Hf.
  destruct (Decoder.finish (Decoder.set_BOM_seen d2 bom)) as [d3 f3].
  destruct (Decoder.finish d2) as [d4 f4]. simpl in *. subst f4.
  rewrite Hb, <- app_assoc, serialize_app, Es. reflexivity.
Qed.

(** The text chunks of [parseText], concatenated and followed by what the
    decoder still owes at the end of the stream, are the decoding of the
    concatenated bytes. *)
Lemma parseText_from_concat stream : forall d,
  concat (Decoder.parseText_from d stream)
  ++ Decoder.decode (Decoder.final_decoder d stream) []
  = Decoder.decode d (concat stream).
Proof.
  induction stream as [|c rest IH]; intros d; simpl; [reflexivity|].
  rewrite decode_app.
  destruct (Decoder.decode_stream d c) as [d' text]. simpl.
  rewrite <- IH, app_assoc. reflexivity.
Qed.

(** When the stream does not end inside a multi-byte sequence, the
    concatenated text chunks are the decoding of the concatenated byte
    chunks, wherever the chunk boundaries fall. *)
Lemma parseText_concat_complete (stream : list Decoder.chunk) :
  Decoder.bytes_needed (Decoder.final_decoder Decoder.new_TextDecoder stream)
  = 0%N ->
  concat (Decoder.parseText stream)
  = Decoder.decode Decoder.new_TextDecoder (concat stream).
Proof.
  intros H. unfold Decoder.parseText. rewrite <- parseText_from_concat.
  unfold Decoder.decode at 1. simpl. unfold Decoder.finish. rewrite H. simpl.
  now rewrite app_nil_r.
Qed.

Lemma parseText_concat_complete_witness :
  concat (Decoder.parseText [[0x41; 0xE2]; [0x82]; [0xAC; 0xFF]])%N
  = [0x41; 0x20AC; 0xFFFD]%N.
Proof.
  rewrite (parseText_concat_complete [[0x41; 0xE2]; [0x82]; [0xAC; 0xFF]]%N);
    reflexivity.
Defined.

(** C7 at a stream that ends inside a multi-byte character: [parseText]
    never calls [decode] without [stream], so the bytes the decoder holds
    back are dropped, where decoding the concatenated bytes ends with
    U+FFFD. *)
Theorem parseText_truncated_stream_drops_replacement :
  Decoder.parseText [[0xE2; 0x82]]%N = [[]] /\
  Decoder.decode Decoder.new_TextDecoder (concat [[0xE2; 0x82]]%N)
  = [0xFFFD]%N /\
  concat (Decoder.parseText [[0xE2; 0x82]]%N)
  <> Decoder.decode Decoder.new_TextDecoder (concat [[0xE2; 0x82]]%N).
Proof.
  split; [reflexivity|]. split; [reflexivity|]. discriminate.
Qed.

(** ** The observer of top-level nodes *)

Lemma final_body_snoc (chunks : list Observer.write) (chunk : Observer.write) :
  Detector.final_body (chunks ++ [chunk])
  = fold_left Observer.apply chunk (Detector.final_body chunks).
Proof.
  unfold Detector.final_body.
  rewrite concat_app, fold_left_app. simpl. now rewrite app_nil_r.
Qed.

(** [doc.write] on the document keeps the element observed apart from the
    [<body>] of the document, so the callback of the observer is given
    nothing. *)
Lemma doc_write_inv (p : Observer.state) (chunk : Observer.write)
    (rest : list (completion Observer.write)) :
  observer_inv p ->
  observer_inv (fst (Observer.doc_write chunk rest p)) /\
  snd (Observer.doc_write chunk rest p) = [].
Proof.
  intros [Hb Hp]. unfold Observer.doc_write, observer_inv, Observer.bodyWritten.
  simpl. destruct (Observer.parser p).
  - split; [split; [|exact Hp]|].
    + now rewrite final_body_snoc, Hb.
    + now apply Nat.eqb_neq in Hp as ->.
  - destruct Hp as [Ho Hw]. rewrite Hw, Ho. simpl.
    split; [split; [|lia]|].
    + unfold Detector.final_body. simpl. now rewrite app_nil_r.
    + destruct (Nat.eqb_spec (Observer.documentBody p)
                  (S (Observer.documentBody p))); [lia|reflexivity].
Qed.

(** A turn of the loop emits nothing, except for the end-of-stream result
    in the turn that completes it. *)
Lemma observer_inv_turn (p : Observer.state) :
  observer_inv p ->
  observer_inv (fst (Observer.turn p)) /\
  snd (Observer.turn p)
  = (if Observer.completed p then []
     else if Observer.completed (fst (Observer.turn p)) then [Adapter.Done]
     else []) /\
  (Observer.completed p = true ->
   Observer.completed (fst (Observer.turn p)) = true).
Proof.
  intros Hp. unfold Observer.turn.
  destruct (Observer.completed p) eqn:Ec.
  { simpl. split; [exact Hp|]. split; [reflexivity|auto]. }
  assert (Hfin : forall rest,
    observer_inv (fst (Observer.finish rest p)) /\
    snd (Observer.finish rest p)
    = (if Observer.completed (fst (Observer.finish rest p))
       then [Adapter.Done] else []) /\
    (false = true -> Observer.completed (fst (Observer.finish rest p)) = true)).
  { intros rest. simpl. split; [exact Hp|]. split; [reflexivity|auto]. }
  destruct (Observer.stream p) as [|[chunk|e] rest]; [apply Hfin| |apply Hfin].
  destruct (Observer.canceled p); [apply Hfin|].
  destruct (doc_write_inv p chunk rest Hp) as [Hi Hn].
  unfold Observer.doc_write in *. simpl in *. rewrite Hn, Ec.
  split; [exact Hi|]. split; [reflexivity|discriminate].
Qed.

(** The turn that writes a chunk. *)
Lemma observer_turn_write (p : Observer.state) (chunk : Observer.write)
    (rest : list (completion Observer.write)) :
  observer_inv p ->
  Observer.completed p = false -> Observer.canceled p = false ->
  Observer.stream p = Return chunk :: rest ->
  Observer.turn p = (fst (Observer.doc_write chunk rest p), []).
Proof.
  intros Hp Hc Hx Hs. unfold Observer.turn. rewrite Hc, Hs, Hx.
  destruct (doc_write_inv p chunk rest Hp) as [_ Hn].
  destruct (Observer.doc_write chunk rest p) as [p' added].
  simpl in *. now subst added.
Qed.



(** ** The iterator over observed nodes *)

Lemma nodes_inv_create (stream : list (completion Observer.write)) :
  nodes_inv (Nodes.create stream).
Proof.
  unfold nodes_inv, observer_inv. simpl.
  split; [auto|]. split; [reflexivity|].
  split; [apply adapter_inv_init|reflexivity].
Qed.

Lemma nodes_inv_turn (n : Nodes.state) : nodes_inv n -> nodes_inv (Nodes.turn n).
Proof.
  intros (Hp & He & Ha & Hd). unfold Nodes.turn.
  destruct (observer_inv_turn _ Hp) as (Hp' & Hrs & Hc).
  destruct (Observer.turn (Nodes.producer n)) as [p' rs]. simpl in *.
  unfold nodes_inv. simpl. split; [exact Hp'|].
  destruct (Observer.completed (Nodes.producer n)).
  - subst rs. rewrite (Hc eq_refl), app_nil_r. simpl. auto.
  - destruct (Observer.completed p'); subst rs.
    + rewrite He. simpl. split; [reflexivity|].
      split; [now apply adapter_inv_emit|].
      pose proof (adapter_values_step (Nodes.iterator n)
                    (Adapter.Emit Adapter.Done) Ha) as Hv.
      simpl in Hv. rewrite Hv, Hd, He. reflexivity.
    + rewrite app_nil_r. simpl. auto.
Qed.

Lemma nodes_inv_next (n : Nodes.state) : nodes_inv n -> nodes_inv (Nodes.next n).
Proof.
  intros (Hp & He & Ha & Hd). unfold nodes_inv. simpl.
  split; [exact Hp|]. split; [exact He|].
  split; [now apply adapter_inv_next|].
  pose proof (adapter_values_step (Nodes.iterator n) Adapter.Next Ha) as Hv.
  simpl in Hv. rewrite Hv, app_nil_r. exact Hd.
Qed.

Lemma nodes_inv_return (n : Nodes.state) :
  nodes_inv n -> nodes_inv (fst (Nodes.return_ n)).
Proof.
  intros (Hp & He & Ha & Hd). unfold nodes_inv. simpl. auto.
Qed.

Lemma nodes_inv_step (n : Nodes.state) (e : Nodes.event) :
  nodes_inv n -> nodes_inv (Nodes.step n e).
Proof.
  destruct e; simpl;
    auto using nodes_inv_turn, nodes_inv_next, nodes_inv_return.
Qed.

Lemma nodes_inv_run (t : list Nodes.event) : forall n,
  nodes_inv n -> nodes_inv (Nodes.run n t).
Proof.
  induction t as [|e t IH]; intros n H; simpl; auto.
  apply IH, nodes_inv_step, H.
Qed.

(** Every promise of [nodes.next()] that is resolved is resolved with the
    end-of-stream result. *)
Lemma delivered_done (n : Nodes.state) (r : Adapter.IteratorResult Observer.ref) :
  nodes_inv n -> In r (Adapter.delivered (Nodes.iterator n)) -> r = Adapter.Done.
Proof.
  intros (_ & He & _ & Hd) Hin.
  assert (Hin' : In r (Nodes.emissions n)).
  { rewrite <- Hd. apply in_or_app. now left. }
  rewrite He in Hin'.
  destruct (Observer.completed (Nodes.producer n)); [|destruct Hin'].
  destruct Hin' as [<-|[]]. reflexivity.
Qed.

Lemma result_of_done (n : Nodes.state) (p : nat)
    (r : Adapter.IteratorResult Observer.ref) :
  nodes_inv n -> Detector.result_of p (Nodes.iterator n) = Some r ->
  r = Adapter.Done.
Proof.
  intros Hn Hr. apply (delivered_done n r Hn).
  unfold Detector.result_of in Hr.
  destruct (find _ _) as [[q r']|] eqn:Ef; [|discriminate].
  simpl in Hr. injection Hr as ->.
  apply find_some in Ef as [Hin _].
  unfold Adapter.delivered. change r with (snd (q, r)). now apply in_map.
Qed.











(** ** The node boundary detector *)

(** The loop body on the only result the iterator ever delivers. *)
Lemma detector_inv_handle (s : Detector.state)
    (r : Adapter.IteratorResult Observer.ref) :
  nodes_inv (Detector.nodes s) -> Detector.prevNode s = None ->
  Detector.yielded s = [] -> r = Adapter.Done ->
  detector_inv (Detector.handle r s) /\
  Detector.control (Detector.handle r s) = Detector.Finished.
Proof.
  intros Hn Hp Hy ->. unfold Detector.handle, detector_inv.
  rewrite Hp. simpl. auto.
Qed.

Lemma detector_inv_pass (s : Detector.state) :
  detector_inv s ->
  detector_inv (Detector.pass s) /\
  Detector.control (Detector.pass s) <> Detector.LoopHead.
Proof.
  intros (Hn & Hp & Hy & _). unfold Detector.pass.
  pose proof (nodes_inv_next _ Hn) as Hn'.
  set (p := Adapter.promises (Nodes.iterator (Detector.nodes s))).
  set (s' := Detector.mkState _ _ _ _).
  destruct (Detector.result_of p (Nodes.iterator (Detector.nodes s')))
    as [r|] eqn:Er.
  - destruct (detector_inv_handle s' r Hn' Hp Hy) as [Hi Hc].
    { exact (result_of_done _ _ _ Hn' Er). }
    split; [exact Hi|]. rewrite Hc. discriminate.
  - split; [|discriminate]. unfold detector_inv. simpl. auto.
Qed.

Lemma detector_inv_advance (s : Detector.state) :
  detector_inv s -> detector_inv (Detector.advance s).
Proof.
  intros Hs. unfold Detector.advance. simpl.
  destruct (Detector.control s); try exact Hs.
  destruct (detector_inv_pass s Hs) as [Hi Hc].
  destruct (Detector.control (Detector.pass s)); [| congruence |..]; exact Hi.
Qed.

Lemma detector_inv_create (stream : list (completion Observer.write)) :
  detector_inv (Detector.create stream).
Proof.
  unfold detector_inv. simpl. split; [apply nodes_inv_create|auto].
Qed.

Lemma detector_inv_step (s : Detector.state) (e : Detector.event) :
  detector_inv s -> detector_inv (Detector.step s e).
Proof.
  intros Hs. pose proof Hs as (Hn & Hp & Hy & Hc).
  pose proof (nodes_inv_turn _ Hn) as Hn'.
  destruct e; simpl.
  - destruct (Detector.control s) as [| |p|node| | | |] eqn:Ec;
      try exact Hs; try (unfold detector_inv; simpl; now auto).
    set (s' := Detector.mkState _ _ _ _).
    destruct (Detector.result_of p
                (Nodes.iterator (Nodes.turn (Detector.nodes s))))
      as [r|] eqn:Er.
    + destruct (detector_inv_handle s' r Hn' Hp Hy) as [Hi _].
      { exact (result_of_done _ _ _ Hn' Er). }
      now apply detector_inv_advance.
    + unfold detector_inv. simpl. auto.
  - destruct (Detector.control s) as [| |p|node| | | |] eqn:Ec;
      try exact Hs; try contradiction.
    apply detector_inv_advance. unfold detector_inv. simpl. auto.
  - destruct (Detector.control s) as [| |p|node| | | |] eqn:Ec;
      try exact Hs; try contradiction.
    unfold detector_inv. simpl. auto.
Qed.

Lemma detector_inv_run (t : list Detector.event) : forall s,
  detector_inv s -> detector_inv (Detector.run s t).
Proof.
  induction t as [|e t IH]; intros s H; simpl; auto.
  apply IH, detector_inv_step, H.
Qed.

(** *** The generator runs to its end *)

Lemma nodes_turn_write (n : Nodes.state) (chunk : Observer.write)
    (rest : list (completion Observer.write)) :
  nodes_inv n ->
  Observer.completed (Nodes.producer n) = false ->
  Observer.canceled (Nodes.producer n) = false ->
  Observer.stream (Nodes.producer n) = Return chunk :: rest ->
  Nodes.producer (Nodes.turn n)
  = fst (Observer.doc_write chunk rest (Nodes.producer n)) /\
  Nodes.iterator (Nodes.turn n) = Nodes.iterator n.
Proof.
  intros (Hp & _) Hc Hx Hs. unfold Nodes.turn.
  rewrite (observer_turn_write _ chunk rest Hp Hc Hx Hs). simpl. auto.
Qed.

Lemma nodes_turn_end (n : Nodes.state) :
  Observer.completed (Nodes.producer n) = false ->
  Observer.stream (Nodes.producer n) = [] ->
  Nodes.producer (Nodes.turn n) = fst (Observer.finish [] (Nodes.producer n)) /\
  Nodes.iterator (Nodes.turn n) = Adapter.emit Adapter.Done (Nodes.iterator n).
Proof.
  intros Hc Hs. unfold Nodes.turn, Observer.turn. rewrite Hc, Hs. simpl. auto.
Qed.

(** While the generator awaits its first request, each answer of the
    stream is one turn: the chunks are written one by one and the turn
    after the last one ends the generator. *)
Lemma turns_reach_finished (chunks : list Observer.write) :
  forall (s : Detector.state) (p : nat),
  detector_inv s ->
  Detector.control s = Detector.Awaiting p ->
  Adapter.pendingResolve (Nodes.iterator (Detector.nodes s)) = Some p ->
  Adapter.settled (Nodes.iterator (Detector.nodes s)) = [] ->
  Observer.stream (Nodes.producer (Detector.nodes s)) = map Return chunks ->
  Observer.completed (Nodes.producer (Detector.nodes s)) = false ->
  Observer.canceled (Nodes.producer (Detector.nodes s)) = false ->
  let s' := Detector.run s (repeat Detector.Turn (S (length chunks))) in
  Detector.control s' = Detector.Finished /\
  Observer.written (Nodes.producer (Detector.nodes s'))
  = Observer.written (Nodes.producer (Detector.nodes s)) ++ chunks.
Proof.
  induction chunks as [|chunk chunks IH]; intros s p Hi Hctl Hpend Hset Hs Hc Hx.
  - simpl. rewrite Hctl.
    destruct (nodes_turn_end (Detector.nodes s) Hc Hs) as [Hp' Hi'].
    rewrite Hi'. unfold Adapter.emit. rewrite Hpend, Hset.
    unfold Detector.result_of. simpl. rewrite Nat.eqb_refl. simpl.
    destruct Hi as (_ & Hprev & _). rewrite Hprev. simpl.
    split; [reflexivity|]. rewrite Hp'. simpl. now rewrite app_nil_r.
  - pose proof Hi as (Hn & Hprev & Hy & _).
    destruct (nodes_turn_write (Detector.nodes s) chunk (map Return chunks)
                Hn Hc Hx Hs) as [Hp' Hi'].
    assert (Est : Detector.step s Detector.Turn
                  = Detector.mkState (Nodes.turn (Detector.nodes s))
                      (Detector.prevNode s) (Detector.Awaiting p)
                      (Detector.yielded s)).
    { simpl. rewrite Hctl, Hi'. unfold Detector.result_of. rewrite Hset.
      reflexivity. }
    change (repeat Detector.Turn (S (length (chunk :: chunks))))
      with (Detector.Turn :: repeat Detector.Turn (S (length chunks))).
    cbn [Detector.run fold_left].
    destruct (IH (Detector.step s Detector.Turn) p) as [H1 H2].
    + now apply detector_inv_step.
    + now rewrite Est.
    + rewrite Est. simpl. now rewrite Hi'.
    + rewrite Est. simpl. now rewrite Hi'.
    + rewrite Est. simpl. now rewrite Hp'.
    + rewrite Est. simpl. now rewrite Hp'.
    + rewrite Est. simpl. now rewrite Hp'.
    + unfold Detector.run in H1, H2. split; [exact H1|].
      rewrite H2, Est. simpl. rewrite Hp'. simpl.
      now rewrite <- app_assoc.
Qed.

Lemma values_all_done {T} (l : list (Adapter.IteratorResult T)) :
  (forall r, In r l -> r = Adapter.Done) -> Adapter.values l = [].
Proof.
  induction l as [|r l IH]; intros H; [reflexivity|].
  rewrite (H r) by now left. simpl. apply IH. intros x Hx. apply H. now right.
Qed.

(** C2 (the code does not do it). The observer watches the [<body>] the
    new document has before anything is written; the first [doc.write]
    opens the document, which replaces that element, and the parser fills
    another one. So, for every stream and whatever the consumer requests
    and whenever the stream answers, the generator receives no node from
    the iterator and yields nothing. In particular, when a stream of
    chunks is read to its end by a consumer that has made its first
    request, the generator ends with all the chunks written and the child
    nodes of [doc.body] as the chunks made them, and with no node
    yielded. *)
Theorem detector_yields_no_node (stream : list (completion Observer.write))
    (t : list Detector.event) (chunks : list Observer.write) :
  (Detector.yielded (Detector.run (Detector.create stream) t) = [] /\
   Adapter.values (Detector.received (Detector.run (Detector.create stream) t))
   = []) /\
  let s := Detector.run (Detector.create (map Return chunks))
             (Detector.Pull :: repeat Detector.Turn (S (length chunks))) in
  Detector.control s = Detector.Finished /\
  Observer.written (Nodes.producer (Detector.nodes s)) = chunks /\
  Observer.body (Nodes.producer (Detector.nodes s))
  = Detector.final_body chunks /\
  Detector.yielded s = [].
Proof.
  split.
  - pose proof (detector_inv_run t _ (detector_inv_create stream))
      as (Hn & _ & Hy & _).
    split; [exact Hy|]. apply values_all_done. intros r.
    apply (delivered_done _ r Hn).
  - intros s.
    pose proof (detector_inv_run
                  (Detector.Pull :: repeat Detector.Turn (S (length chunks)))
                  _ (detector_inv_create (map Return chunks)))
      as (((Hb & _) & _) & _ & Hy & _).
    fold s in Hb, Hy.
    set (s1 := Detector.step (Detector.create (map Return chunks)) Detector.Pull).
    assert (Hi1 : detector_inv s1)
      by apply detector_inv_step, detector_inv_create.
    destruct (turns_reach_finished chunks s1 0 Hi1)
      as [Hc Hw]; try reflexivity.
    change (Detector.run s1 (repeat Detector.Turn (S (length chunks))))
      with s in Hc, Hw.
    split; [exact Hc|]. split; [exact Hw|]. split; [|exact Hy].
    rewrite Hb, Hw. reflexivity.
Qed.

Lemma detector_yields_no_node_witness :
  let p := ElementNode 1 "p" [] [TextNode 2 [97%N]] [] None in
  let stream := [Return [Observer.Append p]] in
  let s := Detector.run (Detector.create stream)
             [Detector.Pull; Detector.Turn; Detector.Turn] in
  Detector.control s = Detector.Finished /\
  Observer.body (Nodes.producer (Detector.nodes s)) = [p] /\
  Detector.yielded s = [].
Proof.
  intros p stream s.
  destruct (detector_yields_no_node stream [] [[Observer.Append p]])
    as (_ & Hc & _ & Hb & Hy).
  split; [exact Hc|]. split; [exact Hb|exact Hy].
Defined.

(** ** Preloading scripts *)

Lemma appendScripts_all_modules (scripts : list Node) : forall doc,
  forallb isModule scripts = true ->
  appendScripts scripts doc
  = (Dom.mkDocument (Dom.nextId doc + length scripts) (Dom.fixedScriptSet doc)
       (Dom.head doc ++ shallow_copies scripts (Dom.nextId doc))
       (Dom.imports doc),
     Return tt).
Proof.
  induction scripts as [|s r IH]; intros doc H; simpl in *.
  - destruct doc; simpl. now rewrite Nat.add_0_r, app_nil_r.
  - apply andb_prop in H as [Hs Hr]. rewrite Hs. simpl.
    rewrite IH by assumption. simpl. rewrite <- app_assoc. simpl.
    do 2 f_equal. lia.
Qed.

Lemma appendScripts_first_offender (pre post : list Node) (s : Node) :
  forall doc,
  forallb isModule pre = true -> isModule s = false ->
  appendScripts (pre ++ s :: post) doc
  = (Dom.mkDocument (Dom.nextId doc + length pre) (Dom.fixedScriptSet doc)
       (Dom.head doc ++ shallow_copies pre (Dom.nextId doc))
       (Dom.imports doc),
     Throw (Error module_required_message)).
Proof.
  induction pre as [|x pre IH]; intros doc Hpre Hs; simpl in *.
  - rewrite Hs. simpl. destruct doc; simpl.
    now rewrite Nat.add_0_r, app_nil_r.
  - apply andb_prop in Hpre as [Hx Hpre]. rewrite Hx. simpl.
    rewrite IH by assumption. simpl. rewrite <- app_assoc. simpl.
    do 2 f_equal. lia.
Qed.

Lemma first_offender (scripts : list Node) :
  forallb isModule scripts = false ->
  exists pre s post,
    scripts = pre ++ s :: post /\ forallb isModule pre = true /\
    isModule s = false.
Proof.
  induction scripts as [|x r IH]; simpl; [discriminate|].
  destruct (isModule x) eqn:E; simpl.
  - intros H. destruct (IH H) as (pre & s & post & -> & Hp & Hs).
    exists (x :: pre), s, post. simpl. now rewrite E.
  - intros _. now exists [], x, r.
Qed.

Lemma scripts_of_eq (fragment : Fragment) :
  negb (nodeType (node fragment) =? ELEMENT_NODE)%N
  && negb (nodeType (node fragment) =? DOCUMENT_FRAGMENT_NODE)%N = false ->
  scripts_of fragment = Dom.querySelectorAll Dom.script (node fragment).
Proof.
  unfold scripts_of. destruct (node fragment); simpl; try discriminate; auto.
Qed.

Lemma scripts_of_nil (fragment : Fragment) :
  negb (nodeType (node fragment) =? ELEMENT_NODE)%N
  && negb (nodeType (node fragment) =? DOCUMENT_FRAGMENT_NODE)%N = true ->
  scripts_of fragment = [].
Proof.
  unfold scripts_of. destruct (node fragment); simpl; try discriminate; auto.
Qed.

(** C4 (as amended). [preloadScripts] throws its error exactly when some
    script below the wrapped node does not have [type="module"]; whether a
    script is inline plays no part. When it throws, the scripts before the
    first offending one have been copied into [document.head], no later one
    has, and no module has been requested. When every script has
    [type="module"], a copy of each is appended to [document.head], a module
    is requested for each non-empty [src], in document order, and the
    promise is fulfilled exactly when all these modules load. *)
Theorem preloadScripts_requires_module_type
    (import_loads : string -> bool) (fragment : Fragment) (doc : Dom.Document) :
  let scripts := scripts_of fragment in
  let res := preloadScripts import_loads fragment doc in
  (snd res = Throw (Error module_required_message) <->
   forallb isModule scripts = false) /\
  (forall pre s post,
     scripts = pre ++ s :: post -> forallb isModule pre = true ->
     isModule s = false ->
     Dom.head (fst res) = Dom.head doc ++ shallow_copies pre (Dom.nextId doc) /\
     Dom.imports (fst res) = Dom.imports doc) /\
  (forallb isModule scripts = true ->
   Dom.head (fst res) = Dom.head doc ++ shallow_copies scripts (Dom.nextId doc) /\
   Dom.imports (fst res) = Dom.imports doc ++ sources scripts /\
   (snd res = Return tt <-> forallb import_loads (sources scripts) = true)).
Proof.
  intros scripts res. unfold res, scripts, preloadScripts.
  destruct (negb (nodeType (node fragment) =? ELEMENT_NODE)%N
            && negb (nodeType (node fragment) =? DOCUMENT_FRAGMENT_NODE)%N)
    eqn:Ety.
  - rewrite (scripts_of_nil _ Ety). simpl. split; [split; discriminate|].
    split.
    + intros pre s post H. destruct pre; discriminate.
    + intros _. now rewrite !app_nil_r.
  - rewrite (scripts_of_eq _ Ety).
    set (l := Dom.querySelectorAll Dom.script (node fragment)).
    destruct (forallb isModule l) eqn:Eall.
    + rewrite (appendScripts_all_modules l doc Eall). simpl.
      split; [split; [|discriminate]|split].
      * destruct (forallb import_loads (sources l)); discriminate.
      * intros pre s post Hl Hpre Hs. exfalso.
        rewrite Hl, forallb_app in Eall. simpl in Eall. rewrite Hs in Eall.
        now rewrite andb_false_r in Eall.
      * intros _. split; [reflexivity|]. split; [reflexivity|].
        destruct (forallb import_loads (sources l)); split; congruence.
    + destruct (first_offender l Eall) as (pre & s & post & Hl & Hpre & Hs).
      rewrite Hl, (appendScripts_first_offender pre post s doc Hpre Hs).
      simpl. split; [split; auto|]. split; [|discriminate].
      intros pre' s' post' Hl' Hpre' Hs'.
      assert (pre' = pre); [|subst; auto].
      clear - Hl' Hpre Hs Hpre' Hs'. revert pre' Hl' Hpre'.
      induction pre as [|x pre IH]; intros [|y pre'] Hl' Hpre'; simpl in *.
      * reflexivity.
      * injection Hl' as <- _. apply andb_prop in Hpre' as [? _]. congruence.
      * injection Hl' as -> _. apply andb_prop in Hpre as [? _]. congruence.
      * injection Hl' as -> Hl'. apply andb_prop in Hpre as [_ Hpre].
        apply andb_prop in Hpre' as [_ Hpre']. f_equal. now apply IH.
Qed.

Lemma preloadScripts_requires_module_type_witness :
  let a := ElementNode 1 "script" [("type", "module"); ("src", "/a.js")] [] [] None in
  let b := ElementNode 2 "script" [("src", "/b.js")] [] [] None in
  let c := ElementNode 3 "script" [("type", "module"); ("src", "/c.js")] [] [] None in
  let doc := Dom.mkDocument 10 ∅ [] [] in
  let res := preloadScripts (fun _ => true)
               (Fragment_of (DocumentFragmentNode 0 [a; b; c])) doc in
  snd res = Throw (Error module_required_message) /\
  Dom.head (fst res)
  = [ElementNode 10 "script" [("type", "module"); ("src", "/a.js")] [] [] None] /\
  Dom.imports (fst res) = [].
Proof.
  intros a b c doc res.
  destruct (preloadScripts_requires_module_type (fun _ => true)
              (Fragment_of (DocumentFragmentNode 0 [a; b; c])) doc)
    as (H1 & H2 & _).
  split; [apply H1; reflexivity|].
  apply (H2 [a] b [c]); reflexivity.
Defined.

(** C4 (as stated) fails: an inline script with [type="module"] passes the
    check, is copied into [document.head], and the promise is fulfilled. *)
Lemma preloadScripts_inline_module_counterexample :
  let inline := ElementNode 1 "script" [("type", "module")]
                  [TextNode 2 [120%N]] [] None in
  let fragment := Fragment_of (DocumentFragmentNode 0 [inline]) in
  let doc := Dom.mkDocument 10 ∅ [] [] in
  scripts_of fragment = [inline] /\
  Dom.getAttribute (Dom.attributesOf inline) "src" = None /\
  preloadScripts (fun _ => true) fragment doc
  = (Dom.mkDocument 11 ∅
       [ElementNode 10 "script" [("type", "module")] [] [] None] [],
     Return tt) /\
  ~ (forall import_loads fragment doc,
       (exists s, In s (scripts_of fragment) /\
          (Dom.getAttribute (Dom.attributesOf s) "src" = None \/
           isModule s = false)) ->
       exists e, snd (preloadScripts import_loads fragment doc) = Throw e).
Proof.
  intros inline fragment doc.
  split; [reflexivity|]. split; [reflexivity|]. split; [reflexivity|].
  intros H. destruct (H (fun _ => true) fragment doc) as (e & He).
  - exists inline. split; [now left|now left].
  - discriminate He.
Qed.

(** ** Trees *)

Lemma Node_induction (P : Node -> Prop) :
  (forall i d, P (TextNode i d)) ->
  (forall i d, P (CommentNode i d)) ->
  (forall i tag attrs kids content shadow,
     Forall P kids -> Forall P content ->
     (forall m l, shadow = Some (m, l) -> Forall P l) ->
     P (ElementNode i tag attrs kids content shadow)) ->
  (forall i kids, Forall P kids -> P (DocumentFragmentNode i kids)) ->
  forall n, P n.
Proof.
  intros Ht Hc He Hf.
  fix IH 1. intros n.
  destruct n as [i d|i d|i tag attrs kids content shadow|i kids].
  - apply Ht.
  - apply Hc.
  - apply He.
    + induction kids as [|c r IHl]; constructor; [apply IH|exact IHl].
    + induction content as [|c r IHl]; constructor; [apply IH|exact IHl].
    + destruct shadow as [[m l]|]; [|discriminate].
      intros m' l' [= <- <-].
      induction l as [|c r IHl]; constructor; [apply IH|exact IHl].
  - apply Hf.
    induction kids as [|c r IHl]; constructor; [apply IH|exact IHl].
Qed.

Lemma ids_unfold (n : Node) :
  Dom.ids n
  = match n with
    | TextNode i _ | CommentNode i _ => [i]
    | ElementNode i _ _ kids content shadow =>
        i :: Dom.ids_list kids ++ Dom.ids_list content
          ++ match shadow with
             | Some (_, l) => Dom.ids_list l
             | None => []
             end
    | DocumentFragmentNode i kids => i :: Dom.ids_list kids
    end.
Proof.
  destruct n as [i d|i d|i tag attrs kids content [[m l]|]|i kids];
    reflexivity.
Qed.

Lemma importNode_unfold (n : Node) (next : nat) :
  Dom.importNode n next
  = match n with
    | TextNode _ d => (TextNode next d, S next)
    | CommentNode _ d => (CommentNode next d, S next)
    | ElementNode _ tag attrs kids content _ =>
        let '(kids', n1) := Dom.importNodes kids (S next) in
        let '(content', n2) := Dom.importNodes content n1 in
        (ElementNode next tag attrs kids' content' None, n2)
    | DocumentFragmentNode _ kids =>
        let '(kids', n1) := Dom.importNodes kids (S next) in
        (DocumentFragmentNode next kids', n1)
    end.
Proof.
  assert (Hl : forall l k,
    (fix import_list (l : list Node) (next : nat) : list Node * nat :=
       match l with
       | [] => ([], next)
       | c :: r =>
           let '(c', n1) := Dom.importNode c next in
           let '(r', n2) := import_list r n1 in (c' :: r', n2)
       end) l k
    = Dom.importNodes l k).
  { induction l as [|c r IH]; intros k; simpl; [reflexivity|].
    destruct (Dom.importNode c k). now rewrite IH. }
  destruct n; simpl; try reflexivity; now rewrite ?Hl.
Qed.

Lemma importNodes_fresh_from (l : list Node) :
  Forall (fun n => forall next,
    next <= snd (Dom.importNode n next) /\
    Dom.ids_within next (snd (Dom.importNode n next))
      (fst (Dom.importNode n next))) l ->
  forall k, k <= snd (Dom.importNodes l k) /\
    Forall (fun i => k <= i < snd (Dom.importNodes l k))
      (Dom.ids_list (fst (Dom.importNodes l k))).
Proof.
  unfold Dom.ids_within.
  induction l as [|c r IHl]; intros Hl k; simpl.
  - split; [lia|constructor].
  - inversion Hl as [|? ? Hc Hr]; subst.
    destruct (Hc k) as (H1 & H2).
    destruct (Dom.importNode c k) as [c' n1]. simpl in *.
    destruct (IHl Hr n1) as (H3 & H4).
    destruct (Dom.importNodes r n1) as [r' n2]. simpl in *.
    split; [lia|]. apply Forall_app. split.
    + eapply Forall_impl; [exact H2|]. simpl. intros; lia.
    + eapply Forall_impl; [exact H4|]. simpl. intros; lia.
Qed.

(** An imported tree is made of the identities from [next] up to the new
    counter. *)
Lemma importNode_fresh (n : Node) : forall next,
  next <= snd (Dom.importNode n next) /\
  Dom.ids_within next (snd (Dom.importNode n next))
    (fst (Dom.importNode n next)).
Proof.
  induction n as [i d|i d|i tag attrs kids content shadow IHk IHc _|i kids IHk]
    using Node_induction; intros next; rewrite importNode_unfold;
    unfold Dom.ids_within.
  - simpl. split; [lia|]. repeat constructor; lia.
  - simpl. split; [lia|]. repeat constructor; lia.
  - destruct (importNodes_fresh_from kids IHk (S next)) as (H1 & H2).
    destruct (Dom.importNodes kids (S next)) as [kids' n1]. cbn [fst snd] in *.
    destruct (importNodes_fresh_from content IHc n1) as (H3 & H4).
    destruct (Dom.importNodes content n1) as [content' n2]. cbn [fst snd] in *.
    split; [lia|]. rewrite ids_unfold. constructor; [lia|].
    rewrite app_nil_r. apply Forall_app. split.
    + eapply Forall_impl; [exact H2|]. simpl. intros; lia.
    + eapply Forall_impl; [exact H4|]. simpl. intros; lia.
  - destruct (importNodes_fresh_from kids IHk (S next)) as (H1 & H2).
    destruct (Dom.importNodes kids (S next)) as [kids' n1]. cbn [fst snd] in *.
    split; [lia|]. rewrite ids_unfold. constructor; [lia|].
    eapply Forall_impl; [exact H2|]. simpl. intros; lia.
Qed.

Lemma importNodes_fresh (l : list Node) (k : nat) :
  k <= snd (Dom.importNodes l k) /\
  Forall (fun i => k <= i < snd (Dom.importNodes l k))
    (Dom.ids_list (fst (Dom.importNodes l k))).
Proof.
  apply importNodes_fresh_from. apply Forall_forall.
  intros n _. apply importNode_fresh.
Qed.

Lemma descendants_unfold (sel : Node -> bool) (n : Node) :
  Dom.descendants sel n = Dom.walk sel (Dom.childNodesOf n).
Proof. destruct n; reflexivity. Qed.

Lemma replaceWith_unfold (old : nat) (new root : Node) :
  replaceWith old new root
  = match root with
    | ElementNode i tag attrs kids content shadow =>
        ElementNode i tag attrs (replace_in old new kids) content shadow
    | DocumentFragmentNode i kids =>
        DocumentFragmentNode i (replace_in old new kids)
    | n => n
    end.
Proof. destruct root; reflexivity. Qed.

Lemma update_unfold (target : nat) (g : Node -> Node) (n : Node) :
  Dom.update target g n
  = if Nat.eqb (nodeId n) target then g n
    else
      match n with
      | ElementNode i tag attrs kids content shadow =>
          ElementNode i tag attrs (Dom.update_in target g kids)
            (Dom.update_in target g content)
            match shadow with
            | Some (m, l) => Some (m, Dom.update_in target g l)
            | None => None
            end
      | DocumentFragmentNode i kids =>
          DocumentFragmentNode i (Dom.update_in target g kids)
      | n => n
      end.
Proof. destruct n; reflexivity. Qed.

Lemma stamp_unfold (can : string -> bool) (template : nat) (mode : string)
    (contents : list Node) (root : Node) :
  stamp can template mode contents root
  = match root with
    | ElementNode i tag attrs kids content shadow =>
        if existsb (fun c => Nat.eqb (nodeId c) template) kids then
          if negb (String.eqb mode "open" || String.eqb mode "closed") then
            Some (Throw (HostException "TypeError"))
          else if negb (can tag) then
            Some (Throw (HostException "NotSupportedError"))
          else
            match shadow with
            | Some _ => Some (Throw (HostException "NotSupportedError"))
            | None =>
                Some (Return
                  (ElementNode i tag attrs
                     (List.filter
                        (fun c => negb (Nat.eqb (nodeId c) template)) kids)
                     content (Some (mode, contents))))
            end
        else
          match stamp_in can template mode contents kids with
          | Some (Return kids') =>
              Some (Return (ElementNode i tag attrs kids' content shadow))
          | Some (Throw e) => Some (Throw e)
          | None => None
          end
    | DocumentFragmentNode i kids =>
        if existsb (fun c => Nat.eqb (nodeId c) template) kids then
          Some (Throw (HostException "TypeError"))
        else
          match stamp_in can template mode contents kids with
          | Some (Return kids') => Some (Return (DocumentFragmentNode i kids'))
          | Some (Throw e) => Some (Throw e)
          | None => None
          end
    | _ => None
    end.
Proof. destruct root; reflexivity. Qed.

(** *** Identities kept by the fix-ups *)

Lemma ids_list_filter (Q : nat -> Prop) (f : Node -> bool) (l : list Node) :
  Forall Q (Dom.ids_list l) -> Forall Q (Dom.ids_list (List.filter f l)).
Proof.
  unfold Dom.ids_list. induction l as [|c r IH]; simpl; [auto|].
  intros H. apply Forall_app in H as [Hc Hr].
  destruct (f c); simpl; [apply Forall_app; split|]; auto.
Qed.

Lemma ids_element (Q : nat -> Prop) i tag attrs kids content shadow :
  Forall Q (Dom.ids (ElementNode i tag attrs kids content shadow)) <->
  Q i /\ Forall Q (Dom.ids_list kids) /\ Forall Q (Dom.ids_list content) /\
  match shadow with
  | Some (_, l) => Forall Q (Dom.ids_list l)
  | None => True
  end.
Proof.
  rewrite ids_unfold, Forall_cons, !Forall_app.
  destruct shadow as [[m l]|]; [tauto|].
  split; [intros (? & ? & ? & _); tauto|intros (? & ? & ? & _)].
  repeat split; auto.
Qed.

Lemma ids_fragment (Q : nat -> Prop) i kids :
  Forall Q (Dom.ids (DocumentFragmentNode i kids)) <->
  Q i /\ Forall Q (Dom.ids_list kids).
Proof. now rewrite ids_unfold, Forall_cons. Qed.

Section StampIds.
Variables (Q : nat -> Prop) (can : string -> bool) (template : nat)
  (mode : string) (contents : list Node).
Hypothesis Hcontents : Forall Q (Dom.ids_list contents).

Lemma stamp_in_ids (l : list Node) :
  Forall (fun n => Forall Q (Dom.ids n) -> forall r,
            stamp can template mode contents n = Some (Return r) ->
            Forall Q (Dom.ids r)) l ->
  Forall Q (Dom.ids_list l) -> forall l',
  stamp_in can template mode contents l = Some (Return l') ->
  Forall Q (Dom.ids_list l').
Proof.
  induction l as [|c r IH]; intros Hall Hl l'; simpl; [discriminate|].
  inversion Hall as [|? ? Hc Hr]; subst.
  unfold Dom.ids_list in Hl. simpl in Hl. apply Forall_app in Hl as [Hlc Hlr].
  destruct (stamp can template mode contents c) as [[c'|e]|] eqn:Ec.
  - intros [= <-]. unfold Dom.ids_list. simpl. apply Forall_app. split; eauto.
  - discriminate.
  - destruct (stamp_in can template mode contents r) as [[r'|e]|] eqn:Er;
      try discriminate.
    intros [= <-]. unfold Dom.ids_list. simpl. apply Forall_app.
    split; [assumption|]. now apply IH.
Qed.

Lemma stamp_ids (root : Node) :
  Forall Q (Dom.ids root) -> forall r,
  stamp can template mode contents root = Some (Return r) ->
  Forall Q (Dom.ids r).
Proof.
  induction root as [i d|i d|i tag attrs kids content shadow IHk _ _|i kids IHk]
    using Node_induction; intros Hroot r; rewrite stamp_unfold;
    try discriminate.
  - apply ids_element in Hroot as (Hi & Hk & Hc & Hs).
    destruct (existsb _ kids).
    + destruct (negb _); [discriminate|].
      destruct (negb _); [discriminate|].
      destruct shadow; [discriminate|]. intros [= <-].
      apply ids_element. repeat split; auto. now apply ids_list_filter.
    + destruct (stamp_in can template mode contents kids) as [[kids'|e]|] eqn:E;
        try discriminate.
      intros [= <-]. apply ids_element. repeat split; auto.
      now apply (stamp_in_ids kids IHk Hk).
  - apply ids_fragment in Hroot as (Hi & Hk).
    destruct (existsb _ kids); [discriminate|].
    destruct (stamp_in can template mode contents kids) as [[kids'|e]|] eqn:E;
      try discriminate.
    intros [= <-]. apply ids_fragment. split; auto.
    now apply (stamp_in_ids kids IHk Hk).
Qed.

End StampIds.

Lemma ids_within_weaken (lo hi lo' hi' : nat) (n : Node) :
  lo' <= lo -> hi <= hi' -> Dom.ids_within lo hi n -> Dom.ids_within lo' hi' n.
Proof.
  unfold Dom.ids_within. intros ? ? H.
  eapply Forall_impl; [exact H|]. simpl. intros; lia.
Qed.

Lemma stampTemplates_within (can : string -> bool) (lo : nat)
    (templates : list Node) :
  forall doc root doc' r,
  lo <= Dom.nextId doc -> Dom.ids_within lo (Dom.nextId doc) root ->
  stampTemplates can templates doc root = (doc', Return r) ->
  Dom.nextId doc <= Dom.nextId doc' /\
  Dom.ids_within lo (Dom.nextId doc') r /\
  Dom.fixedScriptSet doc' = Dom.fixedScriptSet doc.
Proof.
  induction templates as [|t rest IH]; intros doc root doc' r Hlo Hroot; simpl.
  - intros [= <- <-]. auto.
  - destruct (Dom.getAttribute (Dom.attributesOf t) "shadowroot")
      as [[|a mode]|]; try (now apply IH).
    set (content := match t with
                    | ElementNode _ _ _ _ c _ => c
                    | _ => []
                    end).
    destruct (importNodes_fresh content (Dom.nextId doc)) as (Hn & Hc).
    destruct (Dom.importNodes content (Dom.nextId doc)) as [contents next].
    cbn [fst snd] in *.
    destruct (stamp can (nodeId t) (String a mode) contents root)
      as [[root'|e]|] eqn:Es; try discriminate.
    intros Hrest.
    assert (Hroot' : Dom.ids_within lo next root').
    { apply (stamp_ids (fun i => lo <= i < next) can (nodeId t)
               (String a mode) contents) with (root := root); [| |exact Es].
      - eapply Forall_impl; [exact Hc|]. simpl. intros; lia.
      - eapply Forall_impl; [exact Hroot|]. simpl. intros; lia. }
    apply IH in Hrest as (H1 & H2 & H3); simpl; [|lia|exact Hroot'].
    simpl in *. split; [lia|]. split; assumption.
Qed.

Lemma replaceWith_ids (Q : nat -> Prop) (old : nat) (new : Node) :
  Forall Q (Dom.ids new) -> forall root,
  Forall Q (Dom.ids root) -> Forall Q (Dom.ids (replaceWith old new root)).
Proof.
  intros Hnew.
  induction root as [i d|i d|i tag attrs kids content shadow IHk _ _|i kids IHk]
    using Node_induction; intros Hroot; rewrite replaceWith_unfold; auto.
  - apply ids_element in Hroot as (Hi & Hk & Hc & Hs).
    apply ids_element. repeat split; auto.
    clear - IHk Hk Hnew. unfold Dom.ids_list in *.
    induction kids as [|c r IH]; simpl in *; [constructor|].
    inversion IHk; subst. apply Forall_app in Hk as [? ?].
    apply Forall_app. split; [|auto].
    destruct (Nat.eqb (nodeId c) old); auto.
  - apply ids_fragment in Hroot as (Hi & Hk).
    apply ids_fragment. split; auto.
    clear - IHk Hk Hnew. unfold Dom.ids_list in *.
    induction kids as [|c r IH]; simpl in *; [constructor|].
    inversion IHk; subst. apply Forall_app in Hk as [? ?].
    apply Forall_app. split; [|auto].
    destruct (Nat.eqb (nodeId c) old); auto.
Qed.

Lemma scriptCopy_fresh (oldScript : Node) (next : nat) :
  next < snd (scriptCopy oldScript next) /\
  nodeId (fst (scriptCopy oldScript next)) = next /\
  Dom.ids_within next (snd (scriptCopy oldScript next))
    (fst (scriptCopy oldScript next)).
Proof.
  unfold scriptCopy, Dom.ids_within.
  destruct (textContent oldScript); simpl.
  - split; [lia|]. split; [reflexivity|]. repeat constructor; lia.
  - split; [lia|]. split; [reflexivity|]. repeat constructor; lia.
Qed.

Lemma fixupStep_within (lo : nat) (doc : Dom.Document) (root s : Node) :
  lo <= Dom.nextId doc -> Dom.ids_within lo (Dom.nextId doc) root ->
  Dom.nextId doc <= Dom.nextId (fst (fixupStep (doc, root) s)) /\
  Dom.ids_within lo (Dom.nextId (fst (fixupStep (doc, root) s)))
    (snd (fixupStep (doc, root) s)).
Proof.
  intros Hlo Hroot. unfold fixupStep.
  destruct (bool_decide _); simpl; [auto|].
  destruct (scriptCopy_fresh s (Dom.nextId doc)) as (H1 & _ & H2).
  destruct (scriptCopy s (Dom.nextId doc)) as [new next]. simpl in *.
  split; [lia|]. apply replaceWith_ids.
  - eapply Forall_impl; [exact H2|]. simpl. intros; lia.
  - eapply Forall_impl; [exact Hroot|]. simpl. intros; lia.
Qed.

Lemma fixupSteps_fold_within (lo : nat) (scripts : list Node) :
  forall doc root,
  lo <= Dom.nextId doc -> Dom.ids_within lo (Dom.nextId doc) root ->
  Dom.nextId doc <= Dom.nextId (fst (fold_left fixupStep scripts (doc, root))) /\
  Dom.ids_within lo
    (Dom.nextId (fst (fold_left fixupStep scripts (doc, root))))
    (snd (fold_left fixupStep scripts (doc, root))).
Proof.
  induction scripts as [|s r IH]; intros doc root Hlo Hroot;
    cbn [fold_left]; [simpl; auto|].
  destruct (fixupStep_within lo doc root s Hlo Hroot) as (H1 & H2).
  destruct (fixupStep (doc, root) s) as [doc1 root1]. cbn [fst snd] in *.
  destruct (IH doc1 root1 ltac:(lia) H2) as (H3 & H4).
  split; [lia|assumption].
Qed.

(** A clone is made of identities handed out during the call. *)
(** *** The loop of [fixupScripts] and its steps *)

Section ScriptLoop.
Variable valid : string -> bool.

Lemma copyAttributes_returns (old : list (string * string))
    (names : list string) : forall acc r,
  copyAttributes valid old names acc = Return r ->
  r = fold_left
        (fun acc name =>
           match Dom.getAttribute old name with
           | Some value => Dom.setAttribute acc name value
           | None => acc
           end) names acc.
Proof.
  induction names as [|name rest IH]; intros acc r; simpl.
  - now intros [= <-].
  - destruct (valid name); [apply IH|discriminate].
Qed.

Lemma manualClone_returns (oldScript : Node) (next : nat) (r : Node * nat) :
  manualClone valid oldScript next = Return r -> r = scriptCopy oldScript next.
Proof.
  unfold manualClone, scriptCopy.
  destruct (copyAttributes valid _ _ []) as [attrs|e] eqn:E; [|discriminate].
  apply copyAttributes_returns in E. subst attrs. now intros [= <-].
Qed.

Lemma manualClone_throws (oldScript : Node) (next : nat) (e : exn) :
  manualClone valid oldScript next = Throw e ->
  e = HostException "InvalidCharacterError" /\
  forallb valid (Dom.getAttributeNames (Dom.attributesOf oldScript)) = false.
Proof.
  unfold manualClone.
  generalize (@nil (string * string)).
  induction (Dom.getAttributeNames (Dom.attributesOf oldScript))
    as [|name rest IH]; intros acc; simpl; [discriminate|].
  destruct (valid name); simpl; [apply IH|].
  intros [= <-]. auto.
Qed.

(** A loop that ends normally has made the steps of all its scripts. *)
Lemma fixupLoop_returns (scripts : list Node) : forall doc root doc' root',
  fixupLoop valid scripts doc root = (doc', root', Return tt) ->
  fold_left fixupStep scripts (doc, root) = (doc', root').
Proof.
  induction scripts as [|s rest IH]; intros doc root doc' root'; simpl.
  - now intros [= <- <-].
  - destruct (bool_decide (nodeId s ∈ Dom.fixedScriptSet doc)); [apply IH|].
    destruct (manualClone valid s (Dom.nextId doc)) as [[new next]|e] eqn:E;
      [|discriminate].
    apply manualClone_returns in E. rewrite <- E. apply IH.
Qed.


(** Scripts that are all in the set are all skipped. *)
Lemma fixupLoop_skip (scripts : list Node) (doc : Dom.Document) (root : Node) :
  (forall s, In s scripts -> nodeId s ∈ Dom.fixedScriptSet doc) ->
  fixupLoop valid scripts doc root = (doc, root, Return tt).
Proof.
  induction scripts as [|s rest IH]; intros H; simpl; [reflexivity|].
  rewrite bool_decide_eq_true_2 by (apply H; now left).
  apply IH. intros x Hx. apply H. now right.
Qed.

End ScriptLoop.

Lemma cloneContent_within (can valid : string -> bool) (fragment : Fragment)
    (doc doc' : Dom.Document) (clone : Node) :
  cloneContent can valid fragment doc = (doc', Return clone) ->
  Dom.nextId doc <= Dom.nextId doc' /\
  Dom.ids_within (Dom.nextId doc) (Dom.nextId doc') clone.
Proof.
  unfold cloneContent.
  destruct (importNode_fresh (node fragment) (Dom.nextId doc)) as (Hn & Hc).
  destruct (Dom.importNode (node fragment) (Dom.nextId doc)) as [c next].
  cbn [fst snd] in *.
  assert (Hfix : forall doc' clone,
    match fixupDeclarativeShadowDom can c
            (Dom.mkDocument next (Dom.fixedScriptSet doc) (Dom.head doc)
               (Dom.imports doc)) with
    | (doc2, Throw e) => (doc2, Throw e)
    | (doc2, Return clone2) =>
        match fixupScripts valid clone2 doc2 with
        | (doc3, clone3, Return _) => (doc3, Return clone3)
        | (doc3, _, Throw e) => (doc3, Throw e)
        end
    end = (doc', Return clone) ->
    Dom.nextId doc <= Dom.nextId doc' /\
    Dom.ids_within (Dom.nextId doc) (Dom.nextId doc') clone).
  { clear doc' clone. intros doc' clone. unfold fixupDeclarativeShadowDom.
    destruct (stampTemplates can _ _ c) as [doc2 [clone2|e]] eqn:Es;
      [|discriminate].
    apply (stampTemplates_within can (Dom.nextId doc)) in Es
      as (H1 & H2 & _); [|simpl; lia|exact Hc].
    simpl in H1.
    destruct (fixupSteps_fold_within (Dom.nextId doc)
                (Dom.querySelectorAll Dom.script clone2) doc2 clone2
                ltac:(lia) H2) as (H3 & H4).
    destruct (fixupScripts valid clone2 doc2) as [[doc3 clone3] [[]|e]] eqn:Ef;
      [|discriminate].
    apply fixupLoop_returns in Ef. rewrite Ef in H3, H4.
    intros [= <- <-]. simpl in *. split; [lia|assumption]. }
  destruct c; try (intros [= <- <-]; simpl; auto); apply Hfix.
Qed.

(** A change addressed to a node that is not in a tree leaves the tree as
    it is. *)
Lemma update_absent (target : nat) (g : Node -> Node) (n : Node) :
  ~ In target (Dom.ids n) -> Dom.update target g n = n.
Proof.
  induction n as [i d|i d|i tag attrs kids content shadow IHk IHc IHs|i kids IHk]
    using Node_induction; intros Hn; rewrite update_unfold;
    rewrite ids_unfold in Hn; simpl in Hn;
    (match goal with |- context [Nat.eqb ?a target] =>
       destruct (Nat.eqb_spec a target) as [E|_] end;
     [simpl in E; tauto|]); try reflexivity.
  - assert (Hlist : forall l,
      Forall (fun n => ~ In target (Dom.ids n) -> Dom.update target g n = n) l ->
      ~ In target (Dom.ids_list l) -> Dom.update_in target g l = l).
    { induction l as [|c r IH]; intros Hl Hni; simpl; [reflexivity|].
      inversion Hl; subst. unfold Dom.ids_list in Hni. simpl in Hni.
      rewrite in_app_iff in Hni. f_equal; [|apply IH]; tauto. }
    rewrite !in_app_iff in Hn.
    rewrite (Hlist kids IHk), (Hlist content IHc) by tauto.
    destruct shadow as [[m l]|]; [|reflexivity].
    rewrite (Hlist l (IHs m l eq_refl)) by tauto. reflexivity.
  - f_equal. clear - IHk Hn.
    assert (Hni : ~ In target (Dom.ids_list kids)) by tauto. clear Hn.
    induction kids as [|c r IH]; simpl; [reflexivity|].
    inversion IHk; subst. unfold Dom.ids_list in Hni. simpl in Hni.
    rewrite in_app_iff in Hni. f_equal; [|apply IH]; tauto.
Qed.

(** C9. Two clones of a fragment, and the wrapped node, have no node in
    common: every node of a clone is created during the call that returns
    it. So a change made to a node of one clone leaves the other clone and
    the wrapped node as they are. *)
Theorem clones_share_no_node (can valid : string -> bool) (fragment : Fragment)
    (doc doc1 doc1' doc2 : Dom.Document) (c1 c2 : Node) :
  Dom.ids_within 0 (Dom.nextId doc) (node fragment) ->
  cloneContent can valid fragment doc = (doc1, Return c1) ->
  Dom.nextId doc1 <= Dom.nextId doc1' ->
  cloneContent can valid fragment doc1' = (doc2, Return c2) ->
  (forall i, In i (Dom.ids c1) ->
     ~ In i (Dom.ids c2) /\ ~ In i (Dom.ids (node fragment))) /\
  (forall i, In i (Dom.ids c2) -> ~ In i (Dom.ids (node fragment))) /\
  (forall target g, In target (Dom.ids c1) ->
     Dom.update target g c2 = c2 /\
     Dom.update target g (node fragment) = node fragment) /\
  (forall target g, In target (Dom.ids c2) ->
     Dom.update target g c1 = c1 /\
     Dom.update target g (node fragment) = node fragment).
Proof.
  intros Hsrc H1 Hle H2.
  apply cloneContent_within in H1 as (Hn1 & Hc1).
  apply cloneContent_within in H2 as (Hn2 & Hc2).
  unfold Dom.ids_within in *. rewrite Forall_forall in Hsrc, Hc1, Hc2.
  assert (D12 : forall i, In i (Dom.ids c1) -> ~ In i (Dom.ids c2)).
  { intros i Hi Hi'. apply list_elem_of_In in Hi, Hi'.
    specialize (Hc1 i Hi). specialize (Hc2 i Hi'). lia. }
  assert (D1s : forall i, In i (Dom.ids c1) -> ~ In i (Dom.ids (node fragment))).
  { intros i Hi Hi'. apply list_elem_of_In in Hi, Hi'.
    specialize (Hc1 i Hi). specialize (Hsrc i Hi'). lia. }
  assert (D2s : forall i, In i (Dom.ids c2) -> ~ In i (Dom.ids (node fragment))).
  { intros i Hi Hi'. apply list_elem_of_In in Hi, Hi'.
    specialize (Hc2 i Hi). specialize (Hsrc i Hi'). lia. }
  split; [auto|]. split; [auto|]. split.
  - intros target g Ht. split; apply update_absent; auto.
  - intros target g Ht. split; apply update_absent; auto.
    intros Hin. exact (D12 _ Hin Ht).
Qed.

Lemma clones_share_no_node_witness :
  let source := DocumentFragmentNode 0
    [ElementNode 1 "my-tweet" [("tweet-id", "1")]
       [ElementNode 2 "template" [("shadowroot", "open")] []
          [ElementNode 3 "span" [] [TextNode 4 [65%N]] [] None] None;
        ElementNode 5 "script" [("src", "/tweet.js"); ("type", "module")]
          [] [] None] [] None] in
  let c1 := DocumentFragmentNode 6
    [ElementNode 7 "my-tweet" [("tweet-id", "1")]
       [ElementNode 14 "script" [("src", "/tweet.js"); ("type", "module")]
          [] [] None] []
       (Some ("open", [ElementNode 12 "span" [] [TextNode 13 [65%N]] [] None]))] in
  let c2 := DocumentFragmentNode 15
    [ElementNode 16 "my-tweet" [("tweet-id", "1")]
       [ElementNode 23 "script" [("src", "/tweet.js"); ("type", "module")]
          [] [] None] []
       (Some ("open", [ElementNode 21 "span" [] [TextNode 22 [65%N]] [] None]))] in
  let doc := Dom.mkDocument 6 ∅ [] [] in
  let r1 := cloneContent (fun _ => true) (fun _ => true) (Fragment_of source) doc in
  let r2 := cloneContent (fun _ => true) (fun _ => true) (Fragment_of source) (fst r1) in
  snd r1 = Return c1 /\ snd r2 = Return c2 /\
  Dom.update 13 (fun _ => TextNode 13 []) c2 = c2 /\
  Dom.update 13 (fun _ => TextNode 13 []) source = source.
Proof.
  intros source c1 c2 doc r1 r2.
  assert (E1 : r1 = (fst r1, Return c1)) by (vm_compute; reflexivity).
  assert (E2 : r2 = (fst r2, Return c2)) by (vm_compute; reflexivity).
  split; [now rewrite E1|]. split; [now rewrite E2|].
  refine (proj1 (proj2 (proj2
    (clones_share_no_node (fun _ => true) (fun _ => true) (Fragment_of source) doc (fst r1)
       (fst r1) (fst r2) c1 c2 _ E1 (le_n _) E2))) 13 _ _).
  - unfold Dom.ids_within. simpl. repeat constructor; lia.
  - simpl. tauto.
Defined.

(** C10. For a wrapped node that is neither an element nor a document
    fragment, [cloneContent] returns the node imported into the document
    and nothing else happens: the result is a new node of the same kind
    with the same data, the set of fixed scripts is unchanged, and no
    fix-up has run. *)
Theorem cloneContent_plain_node (can valid : string -> bool) (fragment : Fragment)
    (doc : Dom.Document) :
  nodeType (node fragment) <> ELEMENT_NODE ->
  nodeType (node fragment) <> DOCUMENT_FRAGMENT_NODE ->
  cloneContent can valid fragment doc
  = (Dom.mkDocument (snd (Dom.importNode (node fragment) (Dom.nextId doc)))
       (Dom.fixedScriptSet doc) (Dom.head doc) (Dom.imports doc),
     Return (fst (Dom.importNode (node fragment) (Dom.nextId doc)))) /\
  Dom.importNode (node fragment) (Dom.nextId doc)
  = (match node fragment with
     | TextNode _ d => TextNode (Dom.nextId doc) d
     | CommentNode _ d => CommentNode (Dom.nextId doc) d
     | n => n
     end, S (Dom.nextId doc)).
Proof.
  intros He Hf. unfold cloneContent.
  destruct (node fragment) as [i d|i d| |]; simpl in *;
    try (exfalso; apply He; reflexivity);
    try (exfalso; apply Hf; reflexivity); split; reflexivity.
Qed.

Lemma cloneContent_plain_node_witness :
  cloneContent (fun _ => true) (fun _ => true) (Fragment_of (TextNode 3 [104%N; 105%N]))
    (Dom.mkDocument 10 ∅ [] [])
  = (Dom.mkDocument 11 ∅ [] [], Return (TextNode 10 [104%N; 105%N])).
Proof.
  destruct (cloneContent_plain_node (fun _ => true) (fun _ => true)
              (Fragment_of (TextNode 3 [104%N; 105%N]))
              (Dom.mkDocument 10 ∅ [] [])) as (H & _);
    [discriminate|discriminate|].
  exact H.
Defined.

(** ** Script reconstruction *)

Lemma rewritten_unfold (S S' : gset nat) (born : nat) (n n' : Node) :
  rewritten S S' born n n'
  = match n with
    | ElementNode i tag attrs kids content shadow =>
        exists kids',
          n' = ElementNode i tag attrs kids' content shadow /\
          rewritten_in S S' born kids kids'
    | DocumentFragmentNode i kids =>
        exists kids',
          n' = DocumentFragmentNode i kids' /\
          rewritten_in S S' born kids kids'
    | _ => n' = n
    end.
Proof. destruct n; reflexivity. Qed.

Lemma getAttribute_setAttribute (attrs : list (string * string))
    (name value x : string) :
  Dom.getAttribute (Dom.setAttribute attrs name value) x
  = if String.eqb name x then Some value else Dom.getAttribute attrs x.
Proof.
  induction attrs as [|[n v] r IH]; simpl.
  - reflexivity.
  - destruct (String.eqb_spec n name) as [->|Hne]; simpl.
    + destruct (String.eqb name x); reflexivity.
    + rewrite IH. destruct (String.eqb_spec n x) as [->|]; [|reflexivity].
      destruct (String.eqb_spec name x); [congruence|reflexivity].
Qed.

Lemma copy_attributes (old : list (string * string)) (names : list string) :
  forall acc x,
  Dom.getAttribute
    (fold_left
       (fun acc name =>
          match Dom.getAttribute old name with
          | Some value => Dom.setAttribute acc name value
          | None => acc
          end) names acc) x
  = if existsb (String.eqb x) names
    then match Dom.getAttribute old x with
         | Some v => Some v
         | None => Dom.getAttribute acc x
         end
    else Dom.getAttribute acc x.
Proof.
  induction names as [|n names IH]; intros acc x; simpl; [reflexivity|].
  rewrite IH. destruct (String.eqb_spec x n) as [->|Hne]; simpl.
  - destruct (Dom.getAttribute old n) as [v|] eqn:E.
    + rewrite getAttribute_setAttribute, String.eqb_refl.
      now destruct (existsb _ names).
    + now destruct (existsb _ names).
  - destruct (Dom.getAttribute old n) as [v|] eqn:E; [|reflexivity].
    rewrite getAttribute_setAttribute.
    destruct (String.eqb_spec n x); [congruence|reflexivity].
Qed.

Lemma getAttribute_names (attrs : list (string * string)) (x : string) :
  existsb (String.eqb x) (Dom.getAttributeNames attrs) = false ->
  Dom.getAttribute attrs x = None.
Proof.
  induction attrs as [|[n v] r IH]; simpl; [reflexivity|].
  destruct (String.eqb_spec x n) as [->|Hne]; simpl; [discriminate|].
  destruct (String.eqb_spec n x); [congruence|]. exact IH.
Qed.

(** The element made by [scriptCopy] is a copy of the old script. *)
Lemma scriptCopy_copy (oldScript : Node) (next : nat) :
  copy_of oldScript (fst (scriptCopy oldScript next)).
Proof.
  unfold scriptCopy.
  set (attrs := fold_left _ _ []).
  assert (Hattrs : forall name,
    Dom.getAttribute attrs name
    = Dom.getAttribute (Dom.attributesOf oldScript) name).
  { intros x. unfold attrs. rewrite copy_attributes. simpl.
    destruct (existsb _ _) eqn:E.
    - now destruct (Dom.getAttribute (Dom.attributesOf oldScript) x).
    - symmetry. now apply getAttribute_names. }
  destruct (textContent oldScript) as [|u t] eqn:Et; simpl.
  - repeat split; auto.
  - repeat split; auto.
    + now rewrite app_nil_r, Et.
    + right. exists (S next). now rewrite Et.
Qed.

Lemma replace_in_app (old : nat) (new : Node) (a b : list Node) :
  replace_in old new (a ++ b) = replace_in old new a ++ replace_in old new b.
Proof. induction a as [|c r IH]; simpl; [reflexivity|]. now rewrite IH. Qed.

(** Replacing a node that is not in a tree leaves the tree as it is. *)
Lemma replaceWith_absent (old : nat) (new : Node) (n : Node) :
  ~ In old (Dom.ids n) -> replaceWith old new n = n.
Proof.
  induction n as [i d|i d|i tag attrs kids content shadow IHk _ _|i kids IHk]
    using Node_induction; intros Hn; rewrite replaceWith_unfold;
    try reflexivity; rewrite ids_unfold in Hn; simpl in Hn;
    rewrite ?in_app_iff in Hn; f_equal.
  - assert (Hk : ~ In old (Dom.ids_list kids)) by tauto. clear Hn.
    induction kids as [|c r IH]; simpl; [reflexivity|].
    inversion IHk as [|? ? Hc Hr]; subst.
    unfold Dom.ids_list in Hk. simpl in Hk. rewrite in_app_iff in Hk.
    destruct (Nat.eqb_spec (nodeId c) old) as [E|_].
    + exfalso. apply Hk. left. rewrite ids_unfold. destruct c; simpl in *; auto.
    + f_equal; [apply Hc|apply IH]; tauto.
  - assert (Hk : ~ In old (Dom.ids_list kids)) by tauto. clear Hn.
    induction kids as [|c r IH]; simpl; [reflexivity|].
    inversion IHk as [|? ? Hc Hr]; subst.
    unfold Dom.ids_list in Hk. simpl in Hk. rewrite in_app_iff in Hk.
    destruct (Nat.eqb_spec (nodeId c) old) as [E|_].
    + exfalso. apply Hk. left. rewrite ids_unfold. destruct c; simpl in *; auto.
    + f_equal; [apply Hc|apply IH]; tauto.
Qed.

Lemma nodeId_in_ids (n : Node) : In (nodeId n) (Dom.ids n).
Proof. rewrite ids_unfold. destruct n; simpl; auto. Qed.

Lemma replace_in_absent (old : nat) (new : Node) (l : list Node) :
  ~ In old (Dom.ids_list l) -> replace_in old new l = l.
Proof.
  unfold Dom.ids_list.
  induction l as [|c r IH]; simpl; [reflexivity|].
  rewrite in_app_iff. intros Hn.
  destruct (Nat.eqb_spec (nodeId c) old) as [E|_].
  - exfalso. apply Hn. left. rewrite <- E. apply nodeId_in_ids.
  - f_equal; [apply replaceWith_absent|apply IH]; tauto.
Qed.

Lemma ids_children (n : Node) (i : nat) :
  In i (Dom.ids_list (Dom.childNodesOf n)) -> In i (Dom.ids n).
Proof.
  rewrite ids_unfold. destruct n; simpl; try tauto.
  intros H. right. rewrite in_app_iff. now left.
Qed.

Lemma walk_ids (sel : Node -> bool) (s : Node) (l : list Node) :
  Forall (fun n => In s (Dom.descendants sel n) ->
                   In (nodeId s) (Dom.ids_list (Dom.childNodesOf n))) l ->
  In s (Dom.walk sel l) -> In (nodeId s) (Dom.ids_list l).
Proof.
  unfold Dom.ids_list at 2.
  induction l as [|c r IH]; intros Hall; simpl; [tauto|].
  inversion Hall as [|? ? Hc Hr]; subst.
  rewrite !in_app_iff. intros [H|[H|H]].
  - left. destruct (sel c); [|contradiction].
    destruct H as [<-|[]]. apply nodeId_in_ids.
  - left. apply ids_children. auto.
  - right. now apply IH.
Qed.

Lemma descendants_ids (sel : Node -> bool) (s : Node) (n : Node) :
  In s (Dom.descendants sel n) ->
  In (nodeId s) (Dom.ids_list (Dom.childNodesOf n)).
Proof.
  induction n as [i d|i d|i tag attrs kids content shadow IHk _ _|i kids IHk]
    using Node_induction; rewrite descendants_unfold; simpl; try tauto;
    now apply walk_ids.
Qed.

Lemma walk_in_ids (sel : Node -> bool) (s : Node) (l : list Node) :
  In s (Dom.walk sel l) -> In (nodeId s) (Dom.ids_list l).
Proof.
  apply walk_ids. apply Forall_forall. intros n _. apply descendants_ids.
Qed.

Lemma grows_refl (doc : Dom.Document) : grows doc doc.
Proof. unfold grows. repeat split; auto. Qed.

Lemma grows_trans (a b c : Dom.Document) : grows a b -> grows b c -> grows a c.
Proof.
  intros (H1 & H2 & H3 & H4 & H5) (G1 & G2 & G3 & G4 & G5). unfold grows.
  split; [lia|]. split; [set_solver|]. split; [|split; congruence].
  intros i Hi. destruct (G3 i Hi) as [Hb|Hb]; [|lia].
  destruct (H3 i Hb); [auto|lia].
Qed.

Lemma fixupStep_in_grows (doc : Dom.Document) (forest : list Node) (s : Node) :
  grows doc (fst (fixupStep_in (doc, forest) s)).
Proof.
  unfold fixupStep_in. destruct (bool_decide _); [apply grows_refl|].
  destruct (scriptCopy_fresh s (Dom.nextId doc)) as (H1 & H2 & _).
  destruct (scriptCopy s (Dom.nextId doc)) as [new next]. simpl in *.
  unfold grows; simpl. split; [lia|]. split; [set_solver|].
  split; [|auto]. intros i Hi. apply elem_of_union in Hi as [Hi|Hi]; [|auto].
  apply elem_of_singleton in Hi. right. lia.
Qed.

Lemma fold_grows (scripts : list Node) : forall doc forest,
  grows doc (fst (fold_left fixupStep_in scripts (doc, forest))).
Proof.
  induction scripts as [|s r IH]; intros doc forest; cbn [fold_left].
  - apply grows_refl.
  - pose proof (fixupStep_in_grows doc forest s) as H.
    destruct (fixupStep_in (doc, forest) s) as [doc1 f1]. simpl in H.
    eapply grows_trans; [exact H|apply IH].
Qed.

(** Scripts that are in neither of two parts of a forest are dealt with as
    if these parts were not there. *)
Lemma fold_frame (scripts : list Node) (pre post : list Node) :
  (forall s, In s scripts ->
     ~ In (nodeId s) (Dom.ids_list pre) /\ ~ In (nodeId s) (Dom.ids_list post)) ->
  forall doc mid,
  fold_left fixupStep_in scripts (doc, pre ++ mid ++ post)
  = (fst (fold_left fixupStep_in scripts (doc, mid)),
     pre ++ snd (fold_left fixupStep_in scripts (doc, mid)) ++ post).
Proof.
  induction scripts as [|s r IH]; intros Hs doc mid; cbn [fold_left].
  - reflexivity.
  - destruct (Hs s (or_introl eq_refl)) as (Hpre & Hpost).
    unfold fixupStep_in at 2 4 6.
    destruct (bool_decide _).
    + apply IH. intros s' Hs'. apply Hs. now right.
    + destruct (scriptCopy s (Dom.nextId doc)) as [new next].
      rewrite !replace_in_app, (replace_in_absent _ _ pre Hpre),
        (replace_in_absent _ _ post Hpost).
      apply IH. intros s' Hs'. apply Hs. now right.
Qed.

Lemma fold_frame_after (scripts : list Node) (post : list Node) :
  (forall s, In s scripts -> ~ In (nodeId s) (Dom.ids_list post)) ->
  forall doc mid,
  fold_left fixupStep_in scripts (doc, mid ++ post)
  = (fst (fold_left fixupStep_in scripts (doc, mid)),
     snd (fold_left fixupStep_in scripts (doc, mid)) ++ post).
Proof.
  intros Hs doc mid.
  apply (fold_frame scripts [] post); intros s Hin; split; [simpl; tauto|auto].
Qed.

Lemma fold_frame_before (scripts : list Node) (pre : list Node) :
  (forall s, In s scripts -> ~ In (nodeId s) (Dom.ids_list pre)) ->
  forall doc mid,
  fold_left fixupStep_in scripts (doc, pre ++ mid)
  = (fst (fold_left fixupStep_in scripts (doc, mid)),
     pre ++ snd (fold_left fixupStep_in scripts (doc, mid))).
Proof.
  intros Hs doc mid.
  pose proof (fold_frame scripts pre [] ltac:(intros s Hin; split;
                [auto|simpl; tauto]) doc mid) as H.
  now rewrite !app_nil_r in H.
Qed.

(** Scripts below an element are dealt with among its children. *)
Lemma fold_descend (scripts : list Node) (shell : list Node -> Node) :
  (forall kids, nodeId (shell kids) = nodeId (shell [])) ->
  (forall old new kids,
     nodeId (shell []) <> old ->
     replaceWith old new (shell kids) = shell (replace_in old new kids)) ->
  (forall s, In s scripts -> nodeId s <> nodeId (shell [])) ->
  forall doc kids,
  fold_left fixupStep_in scripts (doc, [shell kids])
  = (fst (fold_left fixupStep_in scripts (doc, kids)),
     [shell (snd (fold_left fixupStep_in scripts (doc, kids)))]).
Proof.
  intros Hid Hrep.
  induction scripts as [|s r IH]; intros Hs doc kids; cbn [fold_left].
  - reflexivity.
  - assert (Hne := Hs s (or_introl eq_refl)).
    unfold fixupStep_in at 2 4 6.
    destruct (bool_decide _).
    + apply IH. intros s' Hs'. apply Hs. now right.
    + destruct (scriptCopy s (Dom.nextId doc)) as [new next].
      simpl replace_in. rewrite Hid.
      destruct (Nat.eqb_spec (nodeId (shell [])) (nodeId s)) as [E|Hn];
        [congruence|].
      rewrite Hrep by assumption.
      apply IH. intros s' Hs'. apply Hs. now right.
Qed.

Lemma walk_cons (sel : Node -> bool) (c : Node) (r : list Node) :
  Dom.walk sel (c :: r) = Dom.walk sel [c] ++ Dom.walk sel r.
Proof. simpl. now rewrite app_nil_r, <- app_assoc. Qed.

Lemma ids_list_cons (c : Node) (r : list Node) :
  Dom.ids_list (c :: r) = Dom.ids c ++ Dom.ids_list r.
Proof. reflexivity. Qed.

Lemma ids_list_one (c : Node) : Dom.ids_list [c] = Dom.ids c.
Proof. unfold Dom.ids_list. simpl. apply app_nil_r. Qed.

(** The loop deals with a list of siblings one tree after the other. *)
Lemma reconstructs_siblings (l : list Node) :
  Forall (fun c => reconstructs [c]) l -> reconstructs l.
Proof.
  induction l as [|c r IH]; intros Hall doc S0 Hnd Hlt Hagree.
  - exists doc, []. split; [reflexivity|]. split; [apply grows_refl|].
    split; [intros; exact I|constructor].
  - inversion Hall as [|? ? Hc Hr]; subst. specialize (IH Hr).
    rewrite ids_list_cons in Hnd, Hlt, Hagree.
    apply NoDup_app in Hnd as (Hndc & Hdisj' & Hndr).
    assert (Hdisj : forall x, In x (Dom.ids c) -> In x (Dom.ids_list r) -> False).
    { intros x Hx Hx'. apply list_elem_of_In in Hx, Hx'.
      exact (Hdisj' x Hx Hx'). }
    apply Forall_app in Hlt as (Hltc & Hltr).
    destruct (Hc doc S0) as (doc1 & l1 & Hfold1 & Hg1 & Hrw1 & Hb1).
    { now rewrite ids_list_one. }
    { now rewrite ids_list_one. }
    { intros i Hi. rewrite ids_list_one in Hi. apply Hagree, in_or_app. now left. }
    assert (Hshape : exists c1, l1 = [c1]).
    { specialize (Hrw1 _ 0 (reflexivity _) ltac:(lia)).
      destruct l1 as [|c1 [|? ?]]; simpl in Hrw1;
        [contradiction|eauto|destruct Hrw1 as [_ []]]. }
    destruct Hshape as (c1 & ->).
    destruct (IH doc1 S0) as (doc2 & r2 & Hfold2 & Hg2 & Hrw2 & Hb2).
    { exact Hndr. }
    { eapply Forall_impl; [exact Hltr|]. simpl. destruct Hg1. intros; lia. }
    { intros i Hi. rewrite <- Hagree by (apply in_or_app; now right).
      destruct Hg1 as (_ & Hsub & Hnew & _). split; [|apply Hsub].
      intros Hin. destruct (Hnew i Hin) as [?|?]; [assumption|].
      rewrite Forall_forall in Hltr. apply list_elem_of_In in Hi.
      specialize (Hltr i Hi). lia. }
    exists doc2, (c1 :: r2). split.
    + assert (HfA : forall s, In s (Dom.walk Dom.script [c]) ->
                      ~ In (nodeId s) (Dom.ids_list r)).
      { intros s Hs. apply walk_in_ids in Hs. rewrite ids_list_one in Hs.
        intros Hs'. exact (Hdisj _ Hs Hs'). }
      assert (HfB : forall s, In s (Dom.walk Dom.script r) ->
                      ~ In (nodeId s) (Dom.ids_list [c1])).
      { intros s Hs. apply walk_in_ids in Hs. rewrite ids_list_one. intros Hs'.
        rewrite !ids_list_one in Hb1. rewrite Forall_forall in Hb1, Hltr.
        apply list_elem_of_In in Hs'.
        destruct (Hb1 _ Hs') as [Hin|Hfresh].
        - exact (Hdisj _ Hin Hs).
        - apply list_elem_of_In in Hs. specialize (Hltr _ Hs). lia. }
      rewrite walk_cons, fold_left_app.
      replace (doc, c :: r) with (doc, [c] ++ r) by reflexivity.
      rewrite (fold_frame_after _ r HfA doc [c]), Hfold1.
      cbn [fst snd].
      rewrite (fold_frame_before _ [c1] HfB doc1 r), Hfold2.
      reflexivity.
    + split; [eapply grows_trans; eassumption|]. split.
      * intros S' born HS' Hborn. simpl. split.
        -- assert (H1 : rewritten_in S0 S' born [c] [c1]).
           { apply Hrw1; [|assumption]. destruct Hg2 as (_ & Hsub2 & _).
             intros x Hx. apply HS', Hsub2, Hx. }
           simpl in H1. tauto.
        -- apply Hrw2; [assumption|]. destruct Hg1. lia.
      * rewrite ids_list_cons. apply Forall_app. split.
        -- rewrite !ids_list_one in Hb1. eapply Forall_impl; [exact Hb1|].
           simpl. intros i [Hi|Hi].
           ++ left. apply (in_or_app (Dom.ids c) (Dom.ids_list r)). now left.
           ++ right. destruct Hg2. lia.
        -- eapply Forall_impl; [exact Hb2|]. simpl. intros i [Hi|Hi].
           ++ left. apply (in_or_app (Dom.ids c) (Dom.ids_list r)). now right.
           ++ right. destruct Hg1. lia.
Qed.

Lemma fold_empty_forest (scripts : list Node) : forall doc,
  snd (fold_left fixupStep_in scripts (doc, [])) = [].
Proof.
  induction scripts as [|s r IH]; intros doc; cbn [fold_left]; [reflexivity|].
  unfold fixupStep_in at 2. destruct (bool_decide _); [apply IH|].
  destruct (scriptCopy s (Dom.nextId doc)). apply IH.
Qed.

(** A script that is not in the set gives its place to its copy; the
    scripts below it are then no longer in the tree. *)
Lemma reconstructs_script (c : Node) :
  Dom.script c = true -> forall doc fixed0,
  Forall (fun i => i < Dom.nextId doc) (Dom.ids c) ->
  nodeId c ∉ Dom.fixedScriptSet doc -> nodeId c ∉ fixed0 ->
  exists doc' c',
    fold_left fixupStep_in (Dom.walk Dom.script [c]) (doc, [c])
    = (doc', [c']) /\
    reconstructed doc doc' fixed0 [c] [c'].
Proof.
  intros Hscript doc S0 Hlt Hnot Hnot0.
  pose proof (scriptCopy_fresh c (Dom.nextId doc)) as (Hn & Hid & Hw).
  pose proof (scriptCopy_copy c (Dom.nextId doc)) as Hcopy.
  destruct (scriptCopy c (Dom.nextId doc)) as [new next] eqn:Em.
  cbn [fst snd] in *.
  set (doc1 := Dom.mkDocument next ({[nodeId new]} ∪ Dom.fixedScriptSet doc)
                 (Dom.head doc) (Dom.imports doc)).
  assert (Hstep : fixupStep_in (doc, [c]) c = (doc1, [new])).
  { unfold fixupStep_in. rewrite bool_decide_eq_false_2 by assumption.
    rewrite Em. simpl. now rewrite Nat.eqb_refl. }
  assert (Hrest : forall s, In s (Dom.descendants Dom.script c ++ []) ->
                    ~ In (nodeId s) (Dom.ids_list [new])).
  { intros s Hs. rewrite app_nil_r in Hs. apply descendants_ids in Hs.
    apply ids_children in Hs. rewrite ids_list_one. intros Hs'.
    unfold Dom.ids_within in Hw. rewrite Forall_forall in Hlt, Hw.
    apply list_elem_of_In in Hs, Hs'.
    specialize (Hlt _ Hs). specialize (Hw _ Hs'). lia. }
  set (rest := Dom.descendants Dom.script c ++ []) in *.
  exists (fst (fold_left fixupStep_in rest (doc1, []))), new. split.
  - simpl Dom.walk. rewrite Hscript. cbn [app fold_left]. fold rest.
    rewrite Hstep.
    pose proof (fold_frame_after rest [new] Hrest doc1 []) as Hf.
    rewrite fold_empty_forest in Hf. exact Hf.
  - assert (Hg1 : grows doc doc1).
    { pose proof (fixupStep_in_grows doc [c] c) as H. now rewrite Hstep in H. }
    pose proof (fold_grows rest doc1 []) as Hg2.
    split; [eapply grows_trans; eassumption|]. split.
    + intros S' born HS' Hborn. simpl. rewrite Hscript.
      rewrite bool_decide_eq_false_2 by assumption. simpl.
      split; [|exact I]. split; [exact Hcopy|]. split; [|lia].
      apply HS'. destruct Hg2 as (_ & Hsub & _). apply Hsub. simpl.
      apply elem_of_union_l, elem_of_singleton. reflexivity.
    + rewrite (ids_list_one new). eapply Forall_impl; [exact Hw|]. simpl.
      intros i Hi. right. destruct Hg2 as (Hle & _). simpl in Hle. lia.
Qed.

(** A node that stays (it is no script, or a script in the set): the loop
    deals with its children. *)
Lemma reconstructs_shell (shell : list Node -> Node) (kids : list Node)
    (extra : list nat) :
  (forall k, Dom.ids (shell k) = nodeId (shell []) :: Dom.ids_list k ++ extra) ->
  (forall k, nodeId (shell k) = nodeId (shell [])) ->
  (forall old new k,
     replaceWith old new (shell k) = shell (replace_in old new k)) ->
  (forall k, Dom.descendants Dom.script (shell k) = Dom.walk Dom.script k) ->
  (forall S S' born k k',
     rewritten_in S S' born k k' -> rewritten S S' born (shell k) (shell k')) ->
  reconstructs kids ->
  forall doc fixed0,
  Dom.script (shell kids)
  && negb (bool_decide (nodeId (shell kids) ∈ Dom.fixedScriptSet doc)) = false ->
  NoDup (Dom.ids_list [shell kids]) ->
  Forall (fun i => i < Dom.nextId doc) (Dom.ids_list [shell kids]) ->
  (forall i, In i (Dom.ids_list [shell kids]) ->
     (i ∈ Dom.fixedScriptSet doc <-> i ∈ fixed0)) ->
  exists doc' c',
    fold_left fixupStep_in (Dom.walk Dom.script [shell kids])
      (doc, [shell kids]) = (doc', [c']) /\
    reconstructed doc doc' fixed0 [shell kids] [c'].
Proof.
  intros Hids Hid Hrep Hdesc Hrw Hkids doc S0 Htest Hnd Hlt Hagree.
  rewrite ids_list_one, Hids in Hnd, Hlt, Hagree.
  apply NoDup_cons in Hnd as (Hroot & Hnd).
  apply NoDup_app in Hnd as (Hndk & _ & _).
  apply Forall_cons in Hlt as (_ & Hlt). apply Forall_app in Hlt as (Hltk & _).
  destruct (Hkids doc S0 Hndk Hltk) as (doc' & kids' & Hfold & Hg & Hr & Hb).
  { intros i Hi. apply Hagree. right. apply in_or_app. now left. }
  exists doc', (shell kids'). split.
  - assert (Hskip : fold_left fixupStep_in (Dom.walk Dom.script [shell kids])
                      (doc, [shell kids])
                    = fold_left fixupStep_in (Dom.walk Dom.script kids)
                        (doc, [shell kids])).
    { simpl Dom.walk. rewrite Hdesc, app_nil_r.
      destruct (Dom.script (shell kids)) eqn:Es; [|reflexivity].
      cbn [app fold_left]. unfold fixupStep_in at 2.
      simpl in Htest. apply negb_false_iff in Htest. now rewrite Htest. }
    rewrite Hskip, (fold_descend _ shell Hid), Hfold; [reflexivity| |].
    + intros old new k _. apply Hrep.
    + intros s Hs E. apply walk_in_ids in Hs. rewrite E in Hs.
      apply Hroot. apply list_elem_of_In, in_or_app. now left.
  - split; [exact Hg|]. split.
    + intros S' born HS' Hborn. simpl.
      assert (Htest0 : Dom.script (shell kids)
                && negb (bool_decide (nodeId (shell kids) ∈ S0)) = false).
      { destruct (Dom.script (shell kids)); [|reflexivity]. simpl in *.
        apply negb_false_iff in Htest. apply bool_decide_eq_true in Htest.
        apply negb_false_iff, bool_decide_eq_true.
        refine (proj1 (Hagree _ _) Htest). left. symmetry. apply Hid. }
      rewrite Htest0. split; [|exact I]. apply Hrw, Hr; assumption.
    + rewrite !ids_list_one, !Hids. constructor; [left; now left|].
      apply Forall_app. split.
      * eapply Forall_impl; [exact Hb|]. simpl. intros i [Hi|Hi]; [|now right].
        left. right. apply in_or_app. now left.
      * apply Forall_forall. intros i Hi. left. right. apply in_or_app.
        right. now apply list_elem_of_In.
Qed.

Lemma reconstructs_node (c : Node) : reconstructs [c].
Proof.
  induction c as [i d|i d|i tag attrs kids content shadow IHk _ _|i kids IHk]
    using Node_induction; intros doc S0 Hnd Hlt Hagree.
  - exists doc, [TextNode i d]. split; [reflexivity|].
    split; [apply grows_refl|]. split; [intros; simpl; auto|].
    apply Forall_forall. intros x Hx. left. now apply list_elem_of_In.
  - exists doc, [CommentNode i d]. split; [reflexivity|].
    split; [apply grows_refl|]. split; [intros; simpl; auto|].
    apply Forall_forall. intros x Hx. left. now apply list_elem_of_In.
  - set (c := ElementNode i tag attrs kids content shadow) in *.
    destruct (Dom.script c && negb (bool_decide (nodeId c ∈ Dom.fixedScriptSet doc)))
      eqn:Etest.
    + apply andb_prop in Etest as (Hs & Hn).
      apply negb_true_iff, bool_decide_eq_false in Hn.
      destruct (reconstructs_script c Hs doc S0) as (doc' & c' & H1 & H2).
      * now rewrite ids_list_one in Hlt.
      * exact Hn.
      * intros H0. apply Hn. refine (proj2 (Hagree _ _) H0).
        rewrite ids_list_one. apply nodeId_in_ids.
      * exists doc', [c']. auto.
    + destruct (reconstructs_shell
               (fun k => ElementNode i tag attrs k content shadow) kids
               (Dom.ids_list content
                ++ match shadow with
                   | Some (_, l) => Dom.ids_list l
                   | None => []
                   end)) with (doc := doc) (fixed0 := S0)
        as (doc' & c' & H1 & H2); auto.
      * intros S S' born k k' H. rewrite rewritten_unfold. eauto.
      * now apply reconstructs_siblings.
      * exists doc', [c']. auto.
  - destruct (reconstructs_shell (fun k => DocumentFragmentNode i k) kids [])
      with (doc := doc) (fixed0 := S0) as (doc' & c' & H1 & H2); auto.
    + intros k. now rewrite ids_unfold, app_nil_r.
    + intros S S' born k k' H. rewrite rewritten_unfold. eauto.
    + now apply reconstructs_siblings.
    + exists doc', [c']. auto.
Qed.

Lemma reconstructs_all (l : list Node) : reconstructs l.
Proof.
  apply reconstructs_siblings, Forall_forall. intros c _.
  apply reconstructs_node.
Qed.

(** *** The clone handed to [fixupScripts] has distinct identities *)

Lemma NoDup_ranges (a b : list nat) (lo mid hi : nat) :
  NoDup a -> NoDup b ->
  Forall (fun i => lo <= i < mid) a -> Forall (fun i => mid <= i < hi) b ->
  NoDup (a ++ b).
Proof.
  intros Ha Hb Hra Hrb. apply NoDup_app. split; [exact Ha|]. split; [|exact Hb].
  rewrite Forall_forall in Hra, Hrb. intros x Hx Hx'.
  specialize (Hra x Hx). specialize (Hrb x Hx'). lia.
Qed.

Lemma importNodes_NoDup_from (l : list Node) :
  Forall (fun n => forall next,
            NoDup (Dom.ids (fst (Dom.importNode n next)))) l ->
  forall k, NoDup (Dom.ids_list (fst (Dom.importNodes l k))).
Proof.
  induction l as [|c r IH]; intros Hall k; simpl; [constructor|].
  inversion Hall as [|? ? Hc Hr]; subst.
  pose proof (importNode_fresh c k) as (Hk1 & Hw1). specialize (Hc k).
  destruct (Dom.importNode c k) as [c' n1]. cbn [fst snd] in *.
  pose proof (importNodes_fresh r n1) as (Hk2 & Hw2). specialize (IH Hr n1).
  destruct (Dom.importNodes r n1) as [r' n2]. cbn [fst snd] in *.
  rewrite ids_list_cons. eapply NoDup_ranges; eauto.
Qed.

Lemma importNode_NoDup (n : Node) : forall next,
  NoDup (Dom.ids (fst (Dom.importNode n next))).
Proof.
  induction n as [i d|i d|i tag attrs kids content shadow IHk IHc _|i kids IHk]
    using Node_induction; intros next; rewrite importNode_unfold.
  - simpl. apply NoDup_singleton.
  - simpl. apply NoDup_singleton.
  - pose proof (importNodes_fresh kids (S next)) as (H1 & H2).
    pose proof (importNodes_NoDup_from kids IHk (S next)) as H3.
    destruct (Dom.importNodes kids (S next)) as [kids' n1]. cbn [fst snd] in *.
    pose proof (importNodes_fresh content n1) as (H4 & H5).
    pose proof (importNodes_NoDup_from content IHc n1) as H6.
    destruct (Dom.importNodes content n1) as [content' n2]. cbn [fst snd] in *.
    rewrite ids_unfold, app_nil_r.
    change (next :: Dom.ids_list kids' ++ Dom.ids_list content')
      with ([next] ++ Dom.ids_list kids' ++ Dom.ids_list content').
    apply (NoDup_ranges _ _ next (S next) n2).
    + apply NoDup_singleton.
    + eapply NoDup_ranges; eauto.
    + repeat constructor; lia.
    + apply Forall_app. split.
      * eapply Forall_impl; [exact H2|]. simpl. intros; lia.
      * eapply Forall_impl; [exact H5|]. simpl. intros; lia.
  - pose proof (importNodes_fresh kids (S next)) as (H1 & H2).
    pose proof (importNodes_NoDup_from kids IHk (S next)) as H3.
    destruct (Dom.importNodes kids (S next)) as [kids' n1]. cbn [fst snd] in *.
    rewrite ids_unfold.
    change (next :: Dom.ids_list kids') with ([next] ++ Dom.ids_list kids').
    apply (NoDup_ranges _ _ next (S next) n1);
      [apply NoDup_singleton|exact H3|repeat constructor; lia|exact H2].
Qed.

Lemma importNodes_NoDup (l : list Node) (k : nat) :
  NoDup (Dom.ids_list (fst (Dom.importNodes l k))).
Proof.
  apply importNodes_NoDup_from, Forall_forall. intros n _.
  apply importNode_NoDup.
Qed.

Lemma submseteq_NoDup_inv (l k : list nat) : l ⊆+ k -> NoDup k -> NoDup l.
Proof.
  intros Hsub Hk. apply submseteq_Permutation in Hsub as (k' & Hp).
  rewrite Hp in Hk. now apply NoDup_app in Hk as (? & _).
Qed.

Lemma ids_list_filter_sub (f : Node -> bool) (l : list Node) :
  Dom.ids_list (List.filter f l) ⊆+ Dom.ids_list l.
Proof.
  unfold Dom.ids_list. induction l as [|c r IH]; simpl; [reflexivity|].
  destruct (f c); simpl.
  - now apply submseteq_skips_l.
  - now apply submseteq_inserts_l.
Qed.

Section StampSub.
Variables (can : string -> bool) (template : nat) (mode : string)
  (contents : list Node).

Lemma stamp_in_sub (l : list Node) :
  Forall (fun n => forall r,
            stamp can template mode contents n = Some (Return r) ->
            Dom.ids r ⊆+ Dom.ids n ++ Dom.ids_list contents) l ->
  forall l', stamp_in can template mode contents l = Some (Return l') ->
  Dom.ids_list l' ⊆+ Dom.ids_list l ++ Dom.ids_list contents.
Proof.
  induction l as [|c r IH]; intros Hall l'; simpl; [discriminate|].
  inversion Hall as [|? ? Hc Hr]; subst.
  destruct (stamp can template mode contents c) as [[c'|e]|] eqn:Ec.
  - intros [= <-]. rewrite !ids_list_cons.
    transitivity ((Dom.ids c ++ Dom.ids_list contents) ++ Dom.ids_list r).
    + apply submseteq_skips_r. now apply Hc.
    + rewrite <- !app_assoc. apply submseteq_skips_l.
      apply Permutation_submseteq, Permutation_app_comm.
  - discriminate.
  - destruct (stamp_in can template mode contents r) as [[r'|e]|] eqn:Er;
      try discriminate.
    intros [= <-]. rewrite !ids_list_cons, <- app_assoc.
    apply submseteq_skips_l. now apply IH.
Qed.

Lemma stamp_sub (root : Node) : forall r,
  stamp can template mode contents root = Some (Return r) ->
  Dom.ids r ⊆+ Dom.ids root ++ Dom.ids_list contents.
Proof.
  induction root as [i d|i d|i tag attrs kids content shadow IHk _ _|i kids IHk]
    using Node_induction; intros r; rewrite stamp_unfold; try discriminate.
  - destruct (existsb _ kids).
    + destruct (negb _); [discriminate|].
      destruct (negb _); [discriminate|].
      destruct shadow; [discriminate|]. intros [= <-].
      rewrite !ids_unfold, app_nil_r. simpl. apply submseteq_skip.
      rewrite <- !app_assoc. apply submseteq_app; [|reflexivity].
      apply ids_list_filter_sub.
    + destruct (stamp_in can template mode contents kids) as [[kids'|e]|] eqn:E;
        try discriminate.
      intros [= <-]. rewrite !ids_unfold. simpl. apply submseteq_skip.
      pose proof (stamp_in_sub kids IHk kids' E) as Hk.
      set (rest := Dom.ids_list content ++ _).
      transitivity ((Dom.ids_list kids ++ Dom.ids_list contents) ++ rest).
      * now apply submseteq_skips_r.
      * rewrite <- !app_assoc. apply submseteq_skips_l.
        apply Permutation_submseteq, Permutation_app_comm.
  - destruct (existsb _ kids); [discriminate|].
    destruct (stamp_in can template mode contents kids) as [[kids'|e]|] eqn:E;
      try discriminate.
    intros [= <-]. rewrite !ids_unfold. simpl. apply submseteq_skip.
    now apply (stamp_in_sub kids IHk).
Qed.

End StampSub.

(** The templates are stamped into a tree whose identities stay distinct. *)
Lemma stampTemplates_NoDup (can : string -> bool) (lo : nat)
    (templates : list Node) :
  forall doc root doc' r,
  lo <= Dom.nextId doc -> Dom.ids_within lo (Dom.nextId doc) root ->
  NoDup (Dom.ids root) ->
  stampTemplates can templates doc root = (doc', Return r) ->
  NoDup (Dom.ids r).
Proof.
  induction templates as [|t rest IH]; intros doc root doc' r Hlo Hroot Hnd;
    simpl.
  - now intros [= <- <-].
  - destruct (Dom.getAttribute (Dom.attributesOf t) "shadowroot")
      as [[|a mode]|]; try (now apply IH).
    set (content := match t with
                    | ElementNode _ _ _ _ c _ => c
                    | _ => []
                    end).
    destruct (importNodes_fresh content (Dom.nextId doc)) as (Hn & Hc).
    pose proof (importNodes_NoDup content (Dom.nextId doc)) as Hcd.
    destruct (Dom.importNodes content (Dom.nextId doc)) as [contents next].
    cbn [fst snd] in *.
    destruct (stamp can (nodeId t) (String a mode) contents root)
      as [[root'|e]|] eqn:Es; try discriminate.
    apply IH; simpl; [lia| |].
    + apply (stamp_ids (fun i => lo <= i < next) can (nodeId t)
               (String a mode) contents) with (root := root); [| |exact Es].
      * eapply Forall_impl; [exact Hc|]. simpl. intros; lia.
      * eapply Forall_impl; [exact Hroot|]. simpl. intros; lia.
    + apply stamp_sub in Es. apply (submseteq_NoDup_inv _ _ Es).
      apply (NoDup_ranges _ _ lo (Dom.nextId doc) next); auto.
Qed.

(** *** The steps of [fixupScripts] on a whole tree *)

Lemma fold_root (scripts : list Node) (shell : list Node -> Node) :
  (forall old new k,
     replaceWith old new (shell k) = shell (replace_in old new k)) ->
  forall doc kids,
  fold_left fixupStep scripts (doc, shell kids)
  = (fst (fold_left fixupStep_in scripts (doc, kids)),
     shell (snd (fold_left fixupStep_in scripts (doc, kids)))).
Proof.
  intros Hrep.
  induction scripts as [|s r IH]; intros doc kids; cbn [fold_left].
  - reflexivity.
  - unfold fixupStep at 2. unfold fixupStep_in at 2 4.
    destruct (bool_decide _); [apply IH|].
    destruct (scriptCopy s (Dom.nextId doc)) as [new next].
    rewrite Hrep. apply IH.
Qed.

Lemma fold_skip (scripts : list Node) (doc : Dom.Document) (root : Node) :
  (forall s, In s scripts -> nodeId s ∈ Dom.fixedScriptSet doc) ->
  fold_left fixupStep scripts (doc, root) = (doc, root).
Proof.
  induction scripts as [|s r IH]; intros Hs; cbn [fold_left]; [reflexivity|].
  unfold fixupStep at 2.
  rewrite bool_decide_eq_true_2 by (apply Hs; now left).
  apply IH. intros s' Hs'. apply Hs. now right.
Qed.

(** After the loop every script of the tree is in the set. *)
Lemma rewritten_in_scripts (S S' : gset nat) (born : nat) (l : list Node) :
  S ⊆ S' ->
  Forall (fun c => forall c', rewritten S S' born c c' ->
            forall s, In s (Dom.descendants Dom.script c') -> nodeId s ∈ S') l ->
  forall l', rewritten_in S S' born l l' ->
  forall s, In s (Dom.walk Dom.script l') -> nodeId s ∈ S'.
Proof.
  intros Hsub.
  induction l as [|c r IH]; intros Hall [|c' r'] Hrw s; simpl in *;
    try contradiction.
  inversion Hall as [|? ? Hc Hr]; subst. destruct Hrw as (Hhead & Htail).
  rewrite !in_app_iff. intros [Hs|[Hs|Hs]]; [| |now apply (IH Hr r')].
  - destruct (Dom.script c') eqn:Esc; [|contradiction].
    destruct Hs as [<-|[]].
    destruct (Dom.script c && negb (bool_decide (nodeId c ∈ S))) eqn:Et.
    + tauto.
    + assert (Hsame : nodeId c' = nodeId c /\ Dom.script c = Dom.script c').
      { rewrite rewritten_unfold in Hhead.
        destruct c; try (subst; auto; fail);
          destruct Hhead as (k & -> & _); auto. }
      destruct Hsame as (-> & Hsc). rewrite Hsc, Esc in Et. simpl in Et.
      apply negb_false_iff, bool_decide_eq_true in Et. now apply Hsub.
  - destruct (Dom.script c && negb (bool_decide (nodeId c ∈ S))) eqn:Et.
    + destruct Hhead as (Hcopy & _). exfalso.
      destruct c' as [| |i tag attrs kids content shadow|]; try contradiction.
      destruct Hcopy as (_ & _ & _ & [->|(j & ->)] & _); simpl in Hs; tauto.
    + now apply (Hc c').
Qed.

Lemma rewritten_scripts (S S' : gset nat) (born : nat) (n : Node) :
  S ⊆ S' -> forall n', rewritten S S' born n n' ->
  forall s, In s (Dom.descendants Dom.script n') -> nodeId s ∈ S'.
Proof.
  intros Hsub.
  induction n as [i d|i d|i tag attrs kids content shadow IHk _ _|i kids IHk]
    using Node_induction; intros n' Hrw s; rewrite rewritten_unfold in Hrw.
  - subst. simpl. tauto.
  - subst. simpl. tauto.
  - destruct Hrw as (kids' & -> & Hk). rewrite descendants_unfold. simpl.
    now apply (rewritten_in_scripts S S' born kids Hsub IHk).
  - destruct Hrw as (kids' & -> & Hk). rewrite descendants_unfold. simpl.
    now apply (rewritten_in_scripts S S' born kids Hsub IHk).
Qed.

(** [fixupSteps] on a tree of distinct identities: every script below the
    root that is not in the set is replaced where it stands by a copy, a
    new node recorded in the set; a second run over the result changes
    nothing. *)
Lemma fixupSteps_reconstructs (root : Node) (doc : Dom.Document) :
  NoDup (Dom.ids root) ->
  Forall (fun i => i < Dom.nextId doc) (Dom.ids root) ->
  rewritten (Dom.fixedScriptSet doc)
    (Dom.fixedScriptSet (fst (fixupSteps root doc))) (Dom.nextId doc)
    root (snd (fixupSteps root doc)) /\
  grows doc (fst (fixupSteps root doc)) /\
  (forall s, In s (Dom.querySelectorAll Dom.script (snd (fixupSteps root doc))) ->
     nodeId s ∈ Dom.fixedScriptSet (fst (fixupSteps root doc))) /\
  fixupSteps (snd (fixupSteps root doc)) (fst (fixupSteps root doc))
  = fixupSteps root doc.
Proof.
  intros Hnd Hlt.
  assert (Hmain : rewritten (Dom.fixedScriptSet doc)
            (Dom.fixedScriptSet (fst (fixupSteps root doc))) (Dom.nextId doc)
            root (snd (fixupSteps root doc)) /\
          grows doc (fst (fixupSteps root doc))).
  { unfold fixupSteps, Dom.querySelectorAll.
    destruct root as [i d|i d|i tag attrs kids content shadow|i kids].
    - simpl. split; [reflexivity|apply grows_refl].
    - simpl. split; [reflexivity|apply grows_refl].
    - rewrite descendants_unfold. simpl Dom.childNodesOf.
      rewrite (fold_root _ (fun k => ElementNode i tag attrs k content shadow))
        by (intros; apply replaceWith_unfold).
      rewrite ids_unfold in Hnd, Hlt.
      apply NoDup_cons in Hnd as (_ & Hnd). apply NoDup_app in Hnd as (Hnd & _).
      apply Forall_cons in Hlt as (_ & Hlt). apply Forall_app in Hlt as (Hlt & _).
      destruct (reconstructs_all kids doc (Dom.fixedScriptSet doc) Hnd Hlt)
        as (doc' & kids' & Hfold & Hg & Hrw & _); [tauto|].
      rewrite Hfold. cbn [fst snd]. split; [|exact Hg].
      rewrite rewritten_unfold. exists kids'. split; [reflexivity|].
      apply Hrw; [reflexivity|lia].
    - rewrite descendants_unfold. simpl Dom.childNodesOf.
      rewrite (fold_root _ (fun k => DocumentFragmentNode i k))
        by (intros; apply replaceWith_unfold).
      rewrite ids_unfold in Hnd, Hlt.
      apply NoDup_cons in Hnd as (_ & Hnd).
      apply Forall_cons in Hlt as (_ & Hlt).
      destruct (reconstructs_all kids doc (Dom.fixedScriptSet doc) Hnd Hlt)
        as (doc' & kids' & Hfold & Hg & Hrw & _); [tauto|].
      rewrite Hfold. cbn [fst snd]. split; [|exact Hg].
      rewrite rewritten_unfold. exists kids'. split; [reflexivity|].
      apply Hrw; [reflexivity|lia]. }
  destruct Hmain as (Hrw & Hg).
  assert (Hscripts : forall s,
    In s (Dom.querySelectorAll Dom.script (snd (fixupSteps root doc))) ->
    nodeId s ∈ Dom.fixedScriptSet (fst (fixupSteps root doc))).
  { apply (rewritten_scripts (Dom.fixedScriptSet doc) _ (Dom.nextId doc) root);
      [|exact Hrw].
    destruct Hg as (_ & Hsub & _). exact Hsub. }
  split; [exact Hrw|]. split; [exact Hg|]. split; [exact Hscripts|].
  unfold fixupSteps at 1. rewrite fold_skip by exact Hscripts.
  now destruct (fixupSteps root doc).
Qed.

(** C5 (as amended). When [cloneContent] returns a clone of an element or
    a fragment, every script found below the root of the imported and
    stamped tree that is not in the set of fixed scripts has been replaced,
    where it stands, by a new script element with the same attributes and
    text content, which is recorded in the set; afterwards every script
    below the root of the clone is in the set, so that [fixupScripts] run
    again over the clone changes nothing. Cloning a wrapper of the clone
    makes a tree of new nodes and leaves the clone as it is. *)
Theorem cloneContent_reconstructs_scripts (can valid : string -> bool)
    (fragment : Fragment) (doc doc' : Dom.Document) (clone : Node) :
  cloneContent can valid fragment doc = (doc', Return clone) ->
  nodeType (node fragment) = ELEMENT_NODE \/
  nodeType (node fragment) = DOCUMENT_FRAGMENT_NODE ->
  exists doc2 stamped,
    fixupDeclarativeShadowDom can
      (fst (Dom.importNode (node fragment) (Dom.nextId doc)))
      (Dom.mkDocument (snd (Dom.importNode (node fragment) (Dom.nextId doc)))
         (Dom.fixedScriptSet doc) (Dom.head doc) (Dom.imports doc))
    = (doc2, Return stamped) /\
    fixupScripts valid stamped doc2 = (doc', clone, Return tt) /\
    Dom.fixedScriptSet doc2 = Dom.fixedScriptSet doc /\
    rewritten (Dom.fixedScriptSet doc) (Dom.fixedScriptSet doc')
      (Dom.nextId doc2) stamped clone /\
    (forall s, In s (Dom.querySelectorAll Dom.script clone) ->
       nodeId s ∈ Dom.fixedScriptSet doc') /\
    fixupScripts valid clone doc' = (doc', clone, Return tt) /\
    (forall doc'' again,
       cloneContent can valid (Fragment_of clone) doc' = (doc'', Return again) ->
       forall i, In i (Dom.ids clone) -> ~ In i (Dom.ids again)).
Proof.
  intros Hclone Hkind.
  pose proof (cloneContent_within can valid fragment doc doc' clone Hclone)
    as (Hle & Hwithin).
  unfold cloneContent in Hclone.
  pose proof (importNode_fresh (node fragment) (Dom.nextId doc)) as (Hn & Hw).
  pose proof (importNode_NoDup (node fragment) (Dom.nextId doc)) as Hnd.
  assert (Hty : nodeType (fst (Dom.importNode (node fragment) (Dom.nextId doc)))
                = nodeType (node fragment)).
  { rewrite importNode_unfold. destruct (node fragment); simpl; auto.
    - now destruct (Dom.importNodes _ _), (Dom.importNodes _ _).
    - now destruct (Dom.importNodes _ _). }
  destruct (Dom.importNode (node fragment) (Dom.nextId doc)) as [c next].
  cbn [fst snd] in *.
  set (doc1 := Dom.mkDocument next (Dom.fixedScriptSet doc) (Dom.head doc)
                 (Dom.imports doc)) in *.
  assert (Hbody :
    match fixupDeclarativeShadowDom can c doc1 with
    | (doc2, Throw e) => (doc2, Throw e)
    | (doc2, Return clone2) =>
        match fixupScripts valid clone2 doc2 with
        | (doc3, clone3, Return _) => (doc3, Return clone3)
        | (doc3, _, Throw e) => (doc3, Throw e)
        end
    end = (doc', Return clone)).
  { destruct c; try exact Hclone; simpl in Hty; destruct Hkind as [H|H];
      rewrite <- Hty in H; discriminate H. }
  clear Hclone. unfold fixupDeclarativeShadowDom in *.
  destruct (stampTemplates can _ doc1 c) as [doc2 [stamped|e]] eqn:Es;
    [|discriminate].
  assert (Hlo : Dom.nextId doc <= Dom.nextId doc1) by (simpl; lia).
  pose proof (stampTemplates_within can (Dom.nextId doc) _ _ _ _ _
                Hlo Hw Es) as (H1 & H2 & H3).
  pose proof (stampTemplates_NoDup can (Dom.nextId doc) _ _ _ _ _
                Hlo Hw Hnd Es) as H4.
  assert (Hlt : Forall (fun i => i < Dom.nextId doc2) (Dom.ids stamped)).
  { eapply Forall_impl; [exact H2|]. simpl. intros; lia. }
  destruct (fixupSteps_reconstructs stamped doc2 H4 Hlt)
    as (Hrw & Hg & Hscripts & Hidem).
  destruct (fixupScripts valid stamped doc2) as [[doc3 clone3] [[]|e]] eqn:Ef;
    [|discriminate].
  pose proof (fixupLoop_returns valid _ _ _ _ _ Ef) as Esteps.
  fold (fixupSteps stamped doc2) in Esteps. rewrite Esteps in *.
  injection Hbody as <- <-. cbn [fst snd] in *.
  exists doc2, stamped. split; [reflexivity|]. split; [exact Ef|].
  unfold doc1 in H3. simpl in H3.
  split; [exact H3|]. split; [rewrite H3 in Hrw; exact Hrw|].
  split; [exact Hscripts|].
  split; [now apply fixupLoop_skip|].
  intros doc'' again Hagain i Hi Hi'.
  apply cloneContent_within in Hagain as (_ & Hw2).
  unfold Dom.ids_within in *. rewrite Forall_forall in Hwithin, Hw2.
  apply list_elem_of_In in Hi, Hi'.
  specialize (Hwithin i Hi). specialize (Hw2 i Hi'). lia.
Qed.

Lemma cloneContent_reconstructs_scripts_witness :
  let source := DocumentFragmentNode 0
    [ElementNode 1 "script" [("src", "/a.js"); ("type", "module")] [] [] None] in
  let doc := Dom.mkDocument 2 ∅ [] [] in
  let clone := DocumentFragmentNode 2
    [ElementNode 4 "script" [("src", "/a.js"); ("type", "module")] [] [] None] in
  let doc' := fst (cloneContent (fun _ => true) (fun _ => true)
                     (Fragment_of source) doc) in
  cloneContent (fun _ => true) (fun _ => true) (Fragment_of source) doc
  = (doc', Return clone) /\
  fixupScripts (fun _ => true) clone doc' = (doc', clone, Return tt).
Proof.
  intros source doc clone doc'.
  assert (E : cloneContent (fun _ => true) (fun _ => true)
                (Fragment_of source) doc
              = (doc', Return clone)) by (vm_compute; reflexivity).
  split; [exact E|].
  destruct (cloneContent_reconstructs_scripts (fun _ => true) (fun _ => true)
              (Fragment_of source) doc doc' clone E (or_intror eq_refl))
    as (doc2 & stamped & _ & _ & _ & _ & _ & H & _).
  exact H.
Defined.

(** C5 (as stated) fails: the set records the new script of the clone, not
    the copy of it that [importNode] makes when a wrapper of the clone is
    cloned. That copy is not in the set, and it is reconstructed once
    more. *)
Lemma recloned_script_counterexample :
  let source := DocumentFragmentNode 0
    [ElementNode 1 "script" [("src", "/a.js"); ("type", "module")] [] [] None] in
  let doc := Dom.mkDocument 2 ∅ [] [] in
  let r1 := cloneContent (fun _ => true) (fun _ => true) (Fragment_of source) doc in
  let c1 := DocumentFragmentNode 2
    [ElementNode 4 "script" [("src", "/a.js"); ("type", "module")] [] [] None] in
  let r2 := cloneContent (fun _ => true) (fun _ => true) (Fragment_of c1) (fst r1) in
  let c2 := DocumentFragmentNode 5
    [ElementNode 7 "script" [("src", "/a.js"); ("type", "module")] [] [] None] in
  snd r1 = Return c1 /\ snd r2 = Return c2 /\
  elements (Dom.fixedScriptSet (fst r1)) = [4] /\
  fst (Dom.importNode c1 (Dom.nextId (fst r1)))
  = DocumentFragmentNode 5
      [ElementNode 6 "script" [("src", "/a.js"); ("type", "module")] [] [] None] /\
  (7 ∈ Dom.fixedScriptSet (fst r2)) /\ (7 ∉ Dom.fixedScriptSet (fst r1)) /\
  ~ (forall can valid fragment doc doc1 c1 doc2 c2,
       cloneContent can valid fragment doc = (doc1, Return c1) ->
       cloneContent can valid (Fragment_of c1) doc1 = (doc2, Return c2) ->
       Dom.fixedScriptSet doc2 = Dom.fixedScriptSet doc1).
Proof.
  intros source doc r1 c1 r2 c2.
  assert (E1 : r1 = (fst r1, Return c1)) by (vm_compute; reflexivity).
  assert (E2 : r2 = (fst r2, Return c2)) by (vm_compute; reflexivity).
  assert (H7 : 7 ∈ Dom.fixedScriptSet (fst r2)) by (vm_compute; reflexivity).
  assert (H7' : 7 ∉ Dom.fixedScriptSet (fst r1)).
  { intros H. apply elem_of_elements in H.
    replace (elements (Dom.fixedScriptSet (fst r1))) with [4] in H
      by (vm_compute; reflexivity).
    apply list_elem_of_singleton in H. discriminate H. }
  split; [now rewrite E1|]. split; [now rewrite E2|].
  split; [vm_compute; reflexivity|]. split; [reflexivity|].
  split; [exact H7|]. split; [exact H7'|].
  intros H.
  specialize (H (fun _ => true) (fun _ => true) (Fragment_of source) doc
                (fst r1) c1 (fst r2) c2 E1 E2).
  apply H7'. rewrite <- H. exact H7.
Qed.

(** * Further properties of the code *)

(** ** [convertSubscribableToIterator]: the closure state *)

Section AdapterMore.
Context {T : Type}.
Implicit Types (s : Adapter.state T) (t : list (Adapter.call T)).

Lemma run_app s t1 t2 :
  Adapter.run s (t1 ++ t2) = Adapter.run (Adapter.run s t1) t2.
Proof. unfold Adapter.run. apply fold_left_app. Qed.

(** A promise that is neither stored nor settled, and older than the
    allocation counter, stays that way. *)
Lemma lost_step s c p :
  p < Adapter.promises s ->
  Adapter.pendingResolve s <> Some p ->
  p ∉ map fst (Adapter.settled s) ->
  p < Adapter.promises (Adapter.step s c) /\
  Adapter.pendingResolve (Adapter.step s c) <> Some p /\
  p ∉ map fst (Adapter.settled (Adapter.step s c)).
Proof.
  intros Hlt Hp Hs. destruct c as [v|]; simpl.
  - unfold Adapter.emit.
    destruct (Adapter.pendingResolve s) as [q|] eqn:E; simpl.
    + split; [exact Hlt|]. split; [congruence|].
      rewrite map_app, elem_of_app. simpl. intros [H|H]; [auto|].
      apply list_elem_of_singleton in H. congruence.
    + split; [exact Hlt|]. split; [congruence|exact Hs].
  - unfold Adapter.next. destruct (Adapter.resultQueue s); simpl.
    + split; [lia|]. split; [|exact Hs]. intros [= H]. lia.
    + split; [lia|]. split; [exact Hp|].
      rewrite map_app, elem_of_app. simpl. intros [H|H]; [auto|].
      apply list_elem_of_singleton in H. lia.
Qed.

Lemma lost_run t : forall s p,
  p < Adapter.promises s ->
  Adapter.pendingResolve s <> Some p ->
  p ∉ map fst (Adapter.settled s) ->
  p ∉ map fst (Adapter.settled (Adapter.run s t)).
Proof.
  induction t as [|c t IH]; intros s p Hlt Hp Hs; simpl; [exact Hs|].
  destruct (lost_step s c p Hlt Hp Hs) as (H1 & H2 & H3).
  now apply IH.
Qed.

End AdapterMore.

(** X1. Whatever the interleaving of [emit] and [next()] calls, a stored
    [resolve] function and queued results never coexist, and every
    [next()] call hands out a new promise. *)
Theorem adapter_queue_and_request_exclusive {T} (t : list (Adapter.call T)) :
  let s := Adapter.run Adapter.init t in
  (Adapter.pendingResolve s = None \/ Adapter.resultQueue s = []) /\
  Adapter.promises s = Adapter.requests t.
Proof.
  intros s.
  pose proof (adapter_inv_run t _ adapter_inv_init) as (Hq & _).
  fold s in Hq. split.
  - destruct (Adapter.pendingResolve s) eqn:E; [right|left; reflexivity].
    apply Hq. congruence.
  - unfold s. now rewrite promises_run.
Qed.

(** X2. A request that is still pending when [next()] is called again is
    never answered: its [resolve] function is overwritten, and no later
    [emit] or [next()] settles its promise. *)
Theorem adapter_superseded_request_is_never_answered {T}
    (t1 t2 : list (Adapter.call T)) (p : nat) :
  Adapter.pendingResolve (Adapter.run Adapter.init t1) = Some p ->
  p ∉ map fst (Adapter.settled
                 (Adapter.run Adapter.init (t1 ++ Adapter.Next :: t2))).
Proof.
  intros Hp. rewrite run_app. simpl.
  pose proof (adapter_inv_run t1 _ adapter_inv_init) as (Hq & Hlt & _ & Hn & _).
  set (s := Adapter.run Adapter.init t1) in *.
  assert (Hnext : Adapter.next s
    = {| Adapter.pendingResolve := Some (Adapter.promises s);
         Adapter.resultQueue := [];
         Adapter.promises := S (Adapter.promises s);
         Adapter.settled := Adapter.settled s |}).
  { unfold Adapter.next. rewrite Hq by congruence. reflexivity. }
  specialize (Hlt _ Hp). specialize (Hn _ Hp).
  apply lost_run; rewrite Hnext; simpl.
  - lia.
  - intros [= H]. lia.
  - exact Hn.
Qed.

Lemma adapter_superseded_request_is_never_answered_witness :
  0 ∉ map fst (Adapter.settled
       (Adapter.run Adapter.init
          ([Adapter.Next] ++ Adapter.Next ::
           [Adapter.Emit (Adapter.Value 10); Adapter.Emit (Adapter.Value 20)]))).
Proof.
  apply (adapter_superseded_request_is_never_answered
           [Adapter.Next]
           [Adapter.Emit (Adapter.Value 10); Adapter.Emit (Adapter.Value 20)] 0).
  reflexivity.
Defined.

(** ** [parseText]: chunk boundaries, ASCII and the byte order mark *)

(** At the end of the stream the decoder of [parseText] is, up to the BOM
    flag, in the state the handler reaches on the concatenated bytes. *)
Lemma final_decoder_process stream : forall d,
  exists bom,
    Decoder.final_decoder d stream
    = Decoder.set_BOM_seen (fst (Decoder.process d (concat stream))) bom.
Proof.
  induction stream as [|c rest IH]; intros d; simpl.
  - exists (Decoder.BOM_seen d). now destruct d.
  - unfold Decoder.decode_stream. rewrite process_app.
    destruct (Decoder.process d c) as [d1 o1]. simpl.
    destruct (Decoder.serialize (Decoder.BOM_seen d1) o1) as [bom s]. simpl.
    destruct (IH (Decoder.set_BOM_seen d1 bom)) as [bom' ->].
    rewrite process_set_BOM. simpl. exists bom'. reflexivity.
Qed.

Lemma parseText_concat_of_bytes (stream : list Decoder.chunk) :
  Decoder.bytes_needed
    (fst (Decoder.process Decoder.new_TextDecoder (concat stream))) = 0%N ->
  concat (Decoder.parseText stream)
  = Decoder.decode Decoder.new_TextDecoder (concat stream).
Proof.
  intros H. apply parseText_concat_complete.
  destruct (final_decoder_process stream Decoder.new_TextDecoder) as [bom ->].
  exact H.
Qed.

(** X3. The text produced does not depend on where the chunk boundaries
    fall: two streams carrying the same bytes, not ending inside a
    multi-byte sequence, give the same text, which is the decoding of the
    bytes in one piece. *)
Theorem parseText_chunking_independent (s1 s2 : list Decoder.chunk) :
  concat s1 = concat s2 ->
  Decoder.bytes_needed
    (fst (Decoder.process Decoder.new_TextDecoder (concat s1))) = 0%N ->
  concat (Decoder.parseText s1) = concat (Decoder.parseText s2) /\
  concat (Decoder.parseText s1)
  = Decoder.decode Decoder.new_TextDecoder (concat s1).
Proof.
  intros Heq H. split.
  - rewrite (parseText_concat_of_bytes s1 H).
    rewrite Heq in H. rewrite (parseText_concat_of_bytes s2 H).
    now rewrite Heq.
  - apply parseText_concat_of_bytes, H.
Qed.

Lemma parseText_chunking_independent_witness :
  concat (Decoder.parseText [[0x41; 0xE2]; [0x82]; [0xAC; 0x42]])%N
  = concat (Decoder.parseText [[0x41]; []; [0xE2; 0x82; 0xAC]; [0x42]])%N /\
  concat (Decoder.parseText [[0x41; 0xE2]; [0x82]; [0xAC; 0x42]])%N
  = [0x41; 0x20AC; 0x42]%N.
Proof.
  destruct (parseText_chunking_independent
              [[0x41; 0xE2]; [0x82]; [0xAC; 0x42]]%N
              [[0x41]; []; [0xE2; 0x82; 0xAC]; [0x42]]%N
              eq_refl eq_refl) as [H1 H2].
  split; [exact H1|]. rewrite H2. reflexivity.
Defined.

(** An ASCII byte is its own code unit and leaves the decoder idle. *)
Lemma lead_ascii bom b :
  (b < 0x80)%N ->
  Decoder.lead bom b = (Decoder.mkDecoder 0 0 0 0x80 0xBF bom, [b]).
Proof.
  intros H. unfold Decoder.lead, Decoder.in_range.
  replace (b <=? 127)%N with true by (symmetry; apply N.leb_le; lia).
  replace (0 <=? b)%N with true by (symmetry; apply N.leb_le; lia).
  reflexivity.
Qed.

Lemma process_ascii c : forall bom,
  Forall (fun b => (b < 0x80)%N) c ->
  Decoder.process (Decoder.mkDecoder 0 0 0 0x80 0xBF bom) c
  = (Decoder.mkDecoder 0 0 0 0x80 0xBF bom, c).
Proof.
  induction c as [|b r IH]; intros bom H; simpl; [reflexivity|].
  inversion H as [|? ? Hb Hr]; subst.
  unfold Decoder.handler. simpl. rewrite lead_ascii by exact Hb.
  rewrite IH by exact Hr. reflexivity.
Qed.

Lemma serialize_ascii c : forall bom,
  Forall (fun b => (b < 0x80)%N) c ->
  snd (Decoder.serialize bom c) = c.
Proof.
  induction c as [|b r IH]; intros bom H; simpl; [reflexivity|].
  inversion H as [|? ? Hb Hr]; subst.
  replace (b =? 65279)%N with false by (symmetry; apply N.eqb_neq; lia).
  rewrite andb_false_r. specialize (IH true Hr).
  destruct (Decoder.serialize true r) as [bom' s]. simpl in *.
  unfold Decoder.code_units.
  replace (b <? 65536)%N with true by (symmetry; apply N.ltb_lt; lia).
  simpl. now rewrite IH.
Qed.

(** X4. A stream of ASCII bytes comes out unchanged, chunk by chunk: every
    text chunk has the code units of its byte chunk, an empty chunk gives an
    empty text. *)
Theorem parseText_ascii_unchanged (stream : list Decoder.chunk) :
  Forall (Forall (fun b => (b < 0x80)%N)) stream ->
  Decoder.parseText stream = stream.
Proof.
  unfold Decoder.parseText, Decoder.new_TextDecoder. generalize false.
  induction stream as [|c rest IH]; intros bom H; simpl; [reflexivity|].
  inversion H as [|? ? Hc Hrest]; subst.
  unfold Decoder.decode_stream. rewrite process_ascii by exact Hc. simpl.
  pose proof (serialize_ascii c bom Hc) as Hs.
  destruct (Decoder.serialize bom c) as [bom' s]. simpl in Hs. subst s.
  unfold Decoder.set_BOM_seen. simpl. now rewrite IH.
Qed.

Lemma parseText_ascii_unchanged_witness :
  Decoder.parseText [[0x3C; 0x70]; []; [0x3E]]%N = [[0x3C; 0x70]; []; [0x3E]]%N.
Proof.
  apply (parseText_ascii_unchanged [[0x3C; 0x70]; []; [0x3E]]%N).
  repeat constructor.
Defined.

(** X5. A byte order mark at the start of the stream is dropped, however
    its three bytes are spread over the chunks: a stream carrying EF BB BF
    followed by ASCII bytes gives the ASCII text alone. *)
Theorem parseText_drops_leading_BOM (stream : list Decoder.chunk)
    (text : Decoder.chunk) :
  concat stream = [0xEF; 0xBB; 0xBF]%N ++ text ->
  Forall (fun b => (b < 0x80)%N) text ->
  concat (Decoder.parseText stream) = text.
Proof.
  intros Hbytes Hascii.
  assert (Hp : Decoder.process Decoder.new_TextDecoder (concat stream)
               = (Decoder.new_TextDecoder, 0xFEFF%N :: text)).
  { rewrite Hbytes. rewrite process_app.
    change (Decoder.process Decoder.new_TextDecoder [0xEF; 0xBB; 0xBF]%N)
      with (Decoder.new_TextDecoder, [0xFEFF%N]).
    simpl. unfold Decoder.new_TextDecoder.
    rewrite process_ascii by exact Hascii. reflexivity. }
  rewrite parseText_concat_of_bytes by now rewrite Hp.
  unfold Decoder.decode. rewrite Hp. simpl. rewrite app_nil_r.
  apply serialize_ascii, Hascii.
Qed.

Lemma parseText_drops_leading_BOM_witness :
  concat (Decoder.parseText [[0xEF]; [0xBB; 0xBF; 0x68]; [0x69]])%N
  = [0x68; 0x69]%N.
Proof.
  apply (parseText_drops_leading_BOM
           [[0xEF]; [0xBB; 0xBF; 0x68]; [0x69]]%N [0x68; 0x69]%N).
  - reflexivity.
  - repeat constructor.
Defined.

(** ** [iterateReader] *)

(** X6. [iterateReader] yields the chunks read, in order, leaving out reads
    without a value, up to and including the read that reports [done]; it
    calls [read()] no more after that, whatever the reader would answer,
    and releases the lock. A rejected read ends it the same way, after the
    chunks read before. *)
Theorem iterateReader_stops_at_done {T} (values : list (option T))
    (last : option T) (e : exn) (rest : list (Streaming.ReadResult T)) :
  let before := map (fun v => Streaming.Read v false) values in
  Streaming.iterateReader (before ++ Streaming.Read last true :: rest)
  = (omap id values ++ omap id [last], Streaming.Completed) /\
  Streaming.reads_made (before ++ Streaming.Read last true :: rest)
  = S (length values) /\
  Streaming.iterateReader (before ++ Streaming.Rejected e :: rest)
  = (omap id values, Streaming.Failed e) /\
  Streaming.lockReleased
    (snd (Streaming.iterateReader (before ++ Streaming.Rejected e :: rest)))
  = true /\
  Streaming.iterateReader before = (omap id values, Streaming.Reading).
Proof.
  induction values as [|v values IH]; simpl.
  - repeat split; destruct last; reflexivity.
  - simpl in IH. destruct IH as (H1 & H2 & H3 & H4 & H5).
    rewrite H1, H2, H3, H5. simpl. repeat split; destruct v; reflexivity.
Qed.

(** ** [streamingParse] over the generator of top-level nodes *)

(** X7. The fragments delivered only grow: the fragments for a longer
    sequence of nodes start with the fragments for the shorter one, so a
    fragment once yielded is not affected by the nodes that follow. *)
Theorem streamingParse_prefix (nodes more : list Node) :
  Streaming.streamingParse (nodes ++ more)
  = Streaming.streamingParse nodes ++ Streaming.streamingParse more /\
  Streaming.streamingParse (map node (Streaming.streamingParse nodes))
  = Streaming.streamingParse nodes.
Proof.
  unfold Streaming.streamingParse. split.
  - rewrite <- map_app. f_equal.
    induction nodes as [|n r IH]; simpl; [reflexivity|].
    destruct (negb (Filter.isWhitespace n)); simpl; now rewrite IH.
  - f_equal. rewrite map_map. simpl. rewrite map_id.
    induction nodes as [|n r IH]; simpl; [reflexivity|].
    destruct (negb (Filter.isWhitespace n)) eqn:E; simpl; [|exact IH].
    rewrite E. now rewrite IH.
Qed.

(** ** The observer under any schedule *)

(** What the loop has taken from the stream: the chunks written, then
    what was taken in the turn that ended the loop. *)
Lemma stream_consumed_step (stream : list (completion Observer.write))
    (n : Nodes.state) (e : Nodes.event) :
  nodes_inv n ->
  (exists k, stream = map Return (Observer.written (Nodes.producer n)) ++ k
                      ++ Observer.stream (Nodes.producer n) /\
     (Observer.completed (Nodes.producer n) = false -> k = [])) ->
  exists k, stream = map Return (Observer.written (Nodes.producer (Nodes.step n e)))
                     ++ k ++ Observer.stream (Nodes.producer (Nodes.step n e)) /\
    (Observer.completed (Nodes.producer (Nodes.step n e)) = false -> k = []).
Proof.
  intros (Hp & _) (k & Hs & Hk). destruct e; simpl; [|now exists k..].
  unfold Nodes.turn, Observer.turn.
  destruct (Observer.completed (Nodes.producer n)) eqn:Ec;
    [exists k; simpl; rewrite Ec; auto|].
  rewrite (Hk eq_refl) in Hs. simpl in Hs.
  destruct (Observer.stream (Nodes.producer n)) as [|[chunk|x] rest] eqn:Es.
  - exists []. simpl. split; [exact Hs|auto].
  - destruct (Observer.canceled (Nodes.producer n)) eqn:Ex.
    + exists [Return chunk]. simpl. split; [exact Hs|discriminate].
    + destruct (doc_write_inv (Nodes.producer n) chunk rest Hp) as [_ Hn].
      unfold Observer.doc_write in *. simpl in *. exists []. simpl.
      split; [|auto]. rewrite map_app, <- app_assoc. exact Hs.
  - exists [Throw x]. simpl. split; [exact Hs|discriminate].
Qed.

Lemma stream_consumed_run (stream : list (completion Observer.write))
    (t : list Nodes.event) : forall n : Nodes.state,
  nodes_inv n ->
  (exists k, stream = map Return (Observer.written (Nodes.producer n)) ++ k
                      ++ Observer.stream (Nodes.producer n) /\
     (Observer.completed (Nodes.producer n) = false -> k = [])) ->
  map Return (Observer.written (Nodes.producer (Nodes.run n t)))
    `prefix_of` stream.
Proof.
  induction t as [|e t IH]; intros n Hn Hk; simpl.
  - destruct Hk as (k & -> & _). now eexists.
  - apply IH; [now apply nodes_inv_step|].
    now apply stream_consumed_step.
Qed.

(** X9. Whatever the order of producer turns, [next()] and [return()]
    calls, and whether the text stream ends or fails: the chunks given to
    [doc.write] are chunks of the stream, from its start and in order; the
    child nodes of [doc.body] are what those writes made; and all the
    observer has emitted is one end-of-stream result, exactly when the loop
    has completed, which the iterator has delivered or still holds. *)
Theorem observer_emits_only_end_of_stream
    (stream : list (completion Observer.write)) (t : list Nodes.event) :
  let s := Nodes.run (Nodes.create stream) t in
  map Return (Observer.written (Nodes.producer s)) `prefix_of` stream /\
  Observer.body (Nodes.producer s)
  = Detector.final_body (Observer.written (Nodes.producer s)) /\
  Nodes.emissions s
  = (if Observer.completed (Nodes.producer s) then [Adapter.Done] else []) /\
  Adapter.delivered (Nodes.iterator s) ++ Adapter.resultQueue (Nodes.iterator s)
  = Nodes.emissions s.
Proof.
  intros s.
  pose proof (nodes_inv_run t _ (nodes_inv_create stream))
    as ((Hb & _) & He & _ & Hd).
  split; [|now repeat split].
  apply stream_consumed_run; [apply nodes_inv_create|].
  exists []. simpl. auto.
Qed.

(** ** [cloneContent] without scripts and declarative shadow roots *)

(** [importNode] keeps the name and the attributes of an element. *)
Lemma importNode_shell (n : Node) (k : nat) (name : string) :
  Dom.isElementNamed name (fst (Dom.importNode n k)) = Dom.isElementNamed name n
  /\ Dom.attributesOf (fst (Dom.importNode n k)) = Dom.attributesOf n.
Proof.
  rewrite importNode_unfold.
  destruct n as [i d|i d|i tag attrs kids content shadow|i kids]; simpl; auto.
  - destruct (Dom.importNodes kids (S k)) as [kids' n1].
    destruct (Dom.importNodes content n1) as [content' n2]. simpl. auto.
  - destruct (Dom.importNodes kids (S k)) as [kids' n1]. simpl. auto.
Qed.

Lemma script_import (n : Node) (k : nat) :
  Dom.script (fst (Dom.importNode n k)) = Dom.script n.
Proof. apply importNode_shell. Qed.

Lemma template_shadowroot_import (n : Node) (k : nat) :
  Dom.template_shadowroot (fst (Dom.importNode n k))
  = Dom.template_shadowroot n.
Proof.
  unfold Dom.template_shadowroot.
  destruct (importNode_shell n k "template") as [-> ->]. reflexivity.
Qed.

Section ImportSelector.
Variable sel : Node -> bool.
Hypothesis sel_import :
  forall n k, sel (fst (Dom.importNode n k)) = sel n.

Lemma walk_import_length (l : list Node) :
  Forall (fun n => forall k,
    length (Dom.descendants sel (fst (Dom.importNode n k)))
    = length (Dom.descendants sel n)) l ->
  forall k,
    length (Dom.walk sel (fst (Dom.importNodes l k)))
    = length (Dom.walk sel l).
Proof.
  induction 1 as [|c r Hc Hr IH]; intros k; [reflexivity|].
  cbn [Dom.importNodes].
  pose proof (Hc k) as Hck. pose proof (sel_import c k) as Hs.
  destruct (Dom.importNode c k) as [c' n1]. cbn [fst] in *.
  specialize (IH n1). destruct (Dom.importNodes r n1) as [r' n2].
  cbn [fst] in *. cbn [Dom.walk]. rewrite !length_app, Hck, IH, Hs.
  now destruct (sel c).
Qed.

Lemma descendants_import_length (n : Node) : forall k,
  length (Dom.descendants sel (fst (Dom.importNode n k)))
  = length (Dom.descendants sel n).
Proof.
  induction n as [i d|i d|i tag attrs kids content shadow IHk IHc _|i kids IHk]
    using Node_induction; intros k; rewrite importNode_unfold.
  - reflexivity.
  - reflexivity.
  - pose proof (walk_import_length kids IHk (S k)) as H.
    destruct (Dom.importNodes kids (S k)) as [kids' n1].
    destruct (Dom.importNodes content n1) as [content' n2].
    cbn [fst] in *. now rewrite !descendants_unfold.
  - pose proof (walk_import_length kids IHk (S k)) as H.
    destruct (Dom.importNodes kids (S k)) as [kids' n1].
    cbn [fst] in *. now rewrite !descendants_unfold.
Qed.

Lemma descendants_import_nil (n : Node) (k : nat) :
  Dom.descendants sel n = [] ->
  Dom.descendants sel (fst (Dom.importNode n k)) = [].
Proof.
  intros H. apply length_zero_iff_nil.
  now rewrite descendants_import_length, H.
Qed.

End ImportSelector.

(** X11. For a fragment with no script and no [template[shadowroot]] below
    its node, [cloneContent] is [document.importNode(node, true)]: the clone
    is the imported copy, and of the document only the identities handed
    out to the copy are used up; the set of fixed scripts, [document.head]
    and the modules requested stay as they are. *)
Theorem cloneContent_is_importNode_without_fixups (can valid : string -> bool)
    (fragment : Fragment) (doc : Dom.Document) :
  Dom.querySelectorAll Dom.script (node fragment) = [] ->
  Dom.querySelectorAll Dom.template_shadowroot (node fragment) = [] ->
  cloneContent can valid fragment doc
  = (Dom.mkDocument (snd (Dom.importNode (node fragment) (Dom.nextId doc)))
       (Dom.fixedScriptSet doc) (Dom.head doc) (Dom.imports doc),
     Return (fst (Dom.importNode (node fragment) (Dom.nextId doc)))).
Proof.
  intros Hs Ht. unfold cloneContent.
  pose proof (descendants_import_nil Dom.script script_import
                (node fragment) (Dom.nextId doc) Hs) as Hs'.
  pose proof (descendants_import_nil Dom.template_shadowroot
                template_shadowroot_import
                (node fragment) (Dom.nextId doc) Ht) as Ht'.
  destruct (Dom.importNode (node fragment) (Dom.nextId doc)) as [clone next].
  cbn [fst snd] in *.
  unfold fixupDeclarativeShadowDom, fixupScripts, Dom.querySelectorAll.
  rewrite Ht'. cbn [stampTemplates]. rewrite Hs'. cbn [fixupLoop].
  now destruct clone.
Qed.

Lemma cloneContent_is_importNode_without_fixups_witness :
  cloneContent (fun _ => true) (fun _ => true)
    (Fragment_of (DocumentFragmentNode 0
       [ElementNode 1 "p" [("class", "x")] [TextNode 2 [104%N; 105%N]] [] None;
        ElementNode 3 "template" [] [] [TextNode 4 [65%N]] None]))
    (Dom.mkDocument 10 ∅ [] [])
  = (Dom.mkDocument 15 ∅ [] [],
     Return (DocumentFragmentNode 10
       [ElementNode 11 "p" [("class", "x")] [TextNode 12 [104%N; 105%N]] []
          None;
        ElementNode 13 "template" [] [] [TextNode 14 [65%N]] None])).
Proof.
  rewrite (cloneContent_is_importNode_without_fixups (fun _ => true) (fun _ => true));
    reflexivity.
Defined.

(** ** Declarative shadow roots at the top level of a fragment *)

Section StampTop.
Variables (can : string -> bool) (template : nat) (mode : string)
  (contents : list Node).

(** Stamping a template below a node keeps the identity of that node. *)
Lemma stamp_root_id (c c' : Node) :
  stamp can template mode contents c = Some (Return c') ->
  nodeId c' = nodeId c.
Proof.
  rewrite stamp_unfold.
  destruct c as [i d|i d|i tag attrs kids content shadow|i kids];
    try discriminate.
  - destruct (existsb _ kids).
    + destruct (negb (_ || _)); [discriminate|].
      destruct (negb (can tag)); [discriminate|].
      destruct shadow; [discriminate|]. now intros [= <-].
    + destruct (stamp_in can template mode contents kids) as [[k|e]|];
        try discriminate. now intros [= <-].
  - destruct (existsb _ kids); [discriminate|].
    destruct (stamp_in can template mode contents kids) as [[k|e]|];
      try discriminate. now intros [= <-].
Qed.

Lemma stamp_in_top_ids (l : list Node) : forall l',
  stamp_in can template mode contents l = Some (Return l') ->
  map nodeId l' = map nodeId l.
Proof.
  induction l as [|c r IH]; intros l'; simpl; [discriminate|].
  destruct (stamp can template mode contents c) as [[c'|e]|] eqn:E.
  - intros [= <-]. simpl. now rewrite (stamp_root_id _ _ E).
  - discriminate.
  - destruct (stamp_in can template mode contents r) as [[r'|e]|];
      try discriminate.
    intros [= <-]. simpl. now rewrite (IH r').
Qed.

End StampTop.

Lemma existsb_nodeId (l : list Node) (t : nat) :
  existsb (fun c => Nat.eqb (nodeId c) t) l = true <-> In t (map nodeId l).
Proof.
  rewrite existsb_exists, in_map_iff. split.
  - intros (c & Hc & E). apply Nat.eqb_eq in E. eauto.
  - intros (c & E & Hc). exists c. split; [exact Hc|now apply Nat.eqb_eq].
Qed.

(** While a template with a non-empty [shadowroot] attribute that is a
    child of the fragment is still to be visited, the loop cannot end
    normally. *)
Lemma stampTemplates_top_level (can : string -> bool) (templates : list Node) :
  forall doc i kids x mode,
  In x templates ->
  Dom.getAttribute (Dom.attributesOf x) "shadowroot" = Some mode ->
  mode <> EmptyString ->
  In (nodeId x) (map nodeId kids) ->
  exists e,
    snd (stampTemplates can templates doc (DocumentFragmentNode i kids))
    = Throw e.
Proof.
  induction templates as [|y rest IH]; intros doc i kids x mode Hin Hx Hm Hk;
    [destruct Hin|].
  cbn [stampTemplates].
  destruct (Dom.getAttribute (Dom.attributesOf y) "shadowroot")
    as [[|a my]|] eqn:Ey.
  - destruct Hin as [->|Hin]; [congruence|]. now apply (IH _ _ _ x mode).
  - destruct (Dom.importNodes _ (Dom.nextId doc)) as [contents next].
    rewrite stamp_unfold.
    destruct (existsb (fun c => Nat.eqb (nodeId c) (nodeId y)) kids) eqn:Ee.
    { eexists. reflexivity. }
    destruct (stamp_in can (nodeId y) (String a my) contents kids)
      as [[kids'|e]|] eqn:Es.
    + assert (Hne : x <> y).
      { intros ->. apply existsb_nodeId in Hk. congruence. }
      destruct Hin as [E|Hin]; [congruence|].
      apply (IH _ _ _ x mode Hin Hx Hm).
      now rewrite (stamp_in_top_ids _ _ _ _ _ _ Es).
    + eexists. reflexivity.
    + eexists. reflexivity.
  - destruct Hin as [->|Hin]; [congruence|]. now apply (IH _ _ _ x mode).
Qed.

Lemma walk_child (sel : Node -> bool) (c : Node) (l : list Node) :
  In c l -> sel c = true -> In c (Dom.walk sel l).
Proof.
  induction l as [|a r IH]; intros Hin Hs; [destruct Hin|].
  cbn [Dom.walk]. destruct Hin as [->|Hin].
  - rewrite Hs. now left.
  - apply in_or_app. right. apply in_or_app. right. now apply IH.
Qed.

Lemma importNodes_child (c : Node) (l : list Node) : forall k,
  In c l -> exists k', In (fst (Dom.importNode c k')) (fst (Dom.importNodes l k)).
Proof.
  induction l as [|a r IH]; intros k Hin; [destruct Hin|].
  cbn [Dom.importNodes].
  destruct (Dom.importNode a k) as [a' n1] eqn:Ea.
  destruct Hin as [->|Hin].
  - exists k. rewrite Ea. destruct (Dom.importNodes r n1). now left.
  - destruct (IH n1 Hin) as [k' Hk'].
    destruct (Dom.importNodes r n1) as [r' n2]. exists k'. now right.
Qed.

(** X12. A wrapped [DocumentFragment] that has, among its children, a
    [<template>] whose [shadowroot] attribute is not empty cannot be
    cloned: [cloneContent] throws, since such a template has no parent
    element to attach the shadow root to. When the template is the first
    child, the error is the [TypeError] of calling [attachShadow] on
    [null]. *)
Theorem cloneContent_top_level_template_throws (can valid : string -> bool)
    (i t : nat) (before after tkids content : list Node)
    (attrs : list (string * string)) (shadow : option (string * list Node))
    (mode : string) (doc : Dom.Document) :
  Dom.getAttribute attrs "shadowroot" = Some mode ->
  mode <> EmptyString ->
  let template := ElementNode t "template" attrs tkids content shadow in
  let fragment :=
    Fragment_of (DocumentFragmentNode i (before ++ template :: after)) in
  (exists e, snd (cloneContent can valid fragment doc) = Throw e) /\
  (before = [] ->
   snd (cloneContent can valid fragment doc) = Throw (HostException "TypeError")).
Proof.
  intros Hmode Hne template fragment. split.
  - unfold cloneContent, fragment. cbn [node]. rewrite importNode_unfold.
    destruct (importNodes_child template (before ++ template :: after)
                (S (Dom.nextId doc))) as [k' Hk'].
    { apply in_or_app. right. now left. }
    destruct (Dom.importNodes (before ++ template :: after)
                (S (Dom.nextId doc))) as [kids' n1].
    cbn [fst] in Hk'. set (x := fst (Dom.importNode template k')) in *.
    set (doc1 := Dom.mkDocument n1 _ _ _).
    assert (Hx : Dom.getAttribute (Dom.attributesOf x) "shadowroot" = Some mode).
    { unfold x. destruct (importNode_shell template k' "template") as [_ ->].
      exact Hmode. }
    assert (Hsel : Dom.template_shadowroot x = true).
    { unfold x. rewrite template_shadowroot_import.
      unfold Dom.template_shadowroot, template. simpl. now rewrite Hmode. }
    destruct (stampTemplates_top_level can
                (Dom.querySelectorAll Dom.template_shadowroot
                   (DocumentFragmentNode (Dom.nextId doc) kids'))
                doc1 (Dom.nextId doc) kids' x mode) as [e He].
    + unfold Dom.querySelectorAll. rewrite descendants_unfold. simpl.
      now apply walk_child.
    + exact Hx.
    + exact Hne.
    + now apply in_map.
    + exists e. unfold fixupDeclarativeShadowDom.
      destruct (stampTemplates _ _ _ _) as [doc2 [r|e']]; simpl in *;
        [discriminate|congruence].
  - intros ->. unfold cloneContent, fragment. cbn [node app].
    rewrite importNode_unfold. cbn [Dom.importNodes].
    rewrite importNode_unfold. unfold template.
    destruct (Dom.importNodes tkids _) as [tkids' n0].
    destruct (Dom.importNodes content n0) as [content' n1].
    destruct (Dom.importNodes after n1) as [after' n2].
    unfold fixupDeclarativeShadowDom, Dom.querySelectorAll.
    rewrite descendants_unfold. cbn [Dom.childNodesOf Dom.walk].
    unfold Dom.template_shadowroot at 1. cbn [Dom.attributesOf].
    rewrite Hmode. simpl Dom.isElementNamed. cbn [andb app stampTemplates].
    cbn [Dom.attributesOf]. rewrite Hmode.
    destruct mode as [|a m]; [congruence|].
    destruct (Dom.importNodes content' _) as [contents next].
    rewrite stamp_unfold. cbn [existsb nodeId]. rewrite Nat.eqb_refl.
    reflexivity.
Qed.

Lemma cloneContent_top_level_template_throws_witness :
  snd (cloneContent (fun _ => true) (fun _ => true)
         (Fragment_of (DocumentFragmentNode 0
            ([] ++ ElementNode 1 "template" [("shadowroot", "open")] []
                     [TextNode 2 [65%N]] None :: [])))
         (Dom.mkDocument 10 ∅ [] []))
  = Throw (HostException "TypeError").
Proof.
  refine (proj2 (cloneContent_top_level_template_throws (fun _ => true)
            (fun _ => true) 0 1 [] [] [] [TextNode 2 [65%N]] [("shadowroot", "open")] None
            "open" (Dom.mkDocument 10 ∅ [] []) _ _) _).
  - reflexivity.
  - discriminate.
  - reflexivity.
Defined.

(** ** The router: comparing routes *)

Lemma entriesEqual_combine (l1 : list (string * string)) :
  forall l2, length l1 = length l2 ->
  (Router.entriesEqual (combine l1 l2) = true <-> l1 = l2).
Proof.
  induction l1 as [|[n1 v1] l1 IH]; intros [|[n2 v2] l2] Hlen;
    try discriminate; simpl.
  - split; reflexivity.
  - injection Hlen as Hlen. specialize (IH l2 Hlen).
    destruct (String.eqb_spec n1 n2) as [->|Hn]; simpl.
    + destruct (String.eqb_spec v1 v2) as [->|Hv]; simpl.
      * rewrite IH. split; [now intros ->|now intros [= ->]].
      * split; [discriminate|]. intros [= E _]. contradiction.
    + split; [discriminate|]. intros [= E _]. contradiction.
Qed.

Lemma entriesEqual_sym (l1 : list (string * string)) : forall l2,
  Router.entriesEqual (combine l1 l2) = Router.entriesEqual (combine l2 l1).
Proof.
  induction l1 as [|[n1 v1] l1 IH]; intros [|[n2 v2] l2]; simpl; auto.
  rewrite (String.eqb_sym n2 n1), (String.eqb_sym v2 v1), IH. reflexivity.
Qed.

Lemma routeEquals_sym (a b : Router.Route) :
  Router.routeEquals a b = Router.routeEquals b a.
Proof.
  unfold Router.routeEquals, Router.zip.
  rewrite (String.eqb_sym (Router.path b)), (String.eqb_sym (Router.hash b)).
  rewrite (Nat.eqb_sym (length (Router.params b))).
  destruct (negb _); [reflexivity|]. destruct (negb _); [reflexivity|].
  destruct (negb _); [reflexivity|]. now rewrite entriesEqual_sym.
Qed.

Lemma routeEquals_refl (a : Router.Route) :
  Router.routeEquals a a = Return true.
Proof.
  unfold Router.routeEquals, Router.zip.
  rewrite !String.eqb_refl, Nat.eqb_refl. simpl. f_equal.
  now apply entriesEqual_combine.
Qed.

(** X13. [routeEquals] answers [true] exactly for two routes with the same
    path, hash and parameter entries in the same order; it throws, instead
    of answering [false], exactly when path and hash agree and the numbers
    of parameter entries differ; and it does not depend on the order of its
    arguments. *)
Theorem routeEquals_characterised (a b : Router.Route) :
  (Router.routeEquals a b = Return true <-> a = b) /\
  (Router.routeEquals a b = Throw (Error EmptyString) <->
   Router.path a = Router.path b /\ Router.hash a = Router.hash b /\
   length (Router.params a) <> length (Router.params b)) /\
  (forall e, Router.routeEquals a b = Throw e -> e = Error EmptyString) /\
  Router.routeEquals a b = Router.routeEquals b a.
Proof.
  split; [|split; [|split; [|apply routeEquals_sym]]].
  - split; [|intros ->; apply routeEquals_refl].
    unfold Router.routeEquals, Router.zip.
    destruct (String.eqb_spec (Router.path a) (Router.path b)) as [Hp|Hp];
      simpl; [|discriminate].
    destruct (String.eqb_spec (Router.hash a) (Router.hash b)) as [Hh|Hh];
      simpl; [|discriminate].
    destruct (Nat.eqb_spec (length (Router.params a)) (length (Router.params b)))
      as [Hl|Hl]; simpl; [|discriminate].
    intros [= H]. apply (entriesEqual_combine _ _ Hl) in H.
    destruct a, b; simpl in *; congruence.
  - unfold Router.routeEquals, Router.zip.
    destruct (String.eqb_spec (Router.path a) (Router.path b)) as [Hp|Hp];
      simpl; [|split; [discriminate|tauto]].
    destruct (String.eqb_spec (Router.hash a) (Router.hash b)) as [Hh|Hh];
      simpl; [|split; [discriminate|tauto]].
    destruct (Nat.eqb_spec (length (Router.params a)) (length (Router.params b)))
      as [Hl|Hl]; simpl; [split; [discriminate|tauto]|].
    split; auto.
  - intros e. unfold Router.routeEquals, Router.zip.
    destruct (negb _); [discriminate|]. destruct (negb _); [discriminate|].
    destruct (negb _); [|discriminate]. now intros [= <-].
Qed.

Lemma routeEquals_characterised_witness :
  Router.routeEquals (Router.mkRoute "/tweets" [("page", "2")] "#top")
    (Router.mkRoute "/tweets" [] "#top")
  = Throw (Error EmptyString).
Proof.
  apply (proj2 (proj1 (proj2 (routeEquals_characterised
           (Router.mkRoute "/tweets" [("page", "2")] "#top")
           (Router.mkRoute "/tweets" [] "#top"))))).
  split; [reflexivity|]. split; [reflexivity|]. simpl. lia.
Defined.

(** ** The router: navigation *)

Section NavigateFacts.
Variable serializeParams : list (string * string) -> string.
Variable route : nat -> Router.Route -> completion (list Node).

Lemma navigate_fresh_route (s : Router.state) (target : Router.Route) :
  Router.routeEquals (Router.currentRoute s) target = Return false ->
  Router.fragmentCache s !! Router.toString serializeParams target = None ->
  Router.navigate serializeParams route target s
  = match route (length (Router.routed s)) target with
    | Throw e =>
        (Router.mkState target (Router.fragmentCache s) (Router.content s)
           (Router.pushed s ++ [Router.path target +:+ Router.hash target])
           (Router.routed s ++ [target]), Throw e)
    | Return newFragment =>
        (Router.mkState target
           (<[Router.toString serializeParams (Router.currentRoute s) := Router.content s]>
              (Router.fragmentCache s))
           newFragment
           (Router.pushed s ++ [Router.path target +:+ Router.hash target])
           (Router.routed s ++ [target]), Return tt)
    end.
Proof.
  intros He Hc. unfold Router.navigate. rewrite He, Hc.
  destruct (route _ target); reflexivity.
Qed.

Lemma navigate_cached_route (s : Router.state) (target : Router.Route)
    (cached : list Node) :
  Router.routeEquals (Router.currentRoute s) target = Return false ->
  Router.fragmentCache s !! Router.toString serializeParams target = Some cached ->
  Router.toString serializeParams (Router.currentRoute s) <> Router.toString serializeParams target ->
  Router.navigate serializeParams route target s
  = (Router.mkState target
       (<[Router.toString serializeParams target := []]>
          (<[Router.toString serializeParams (Router.currentRoute s) := Router.content s]>
             (Router.fragmentCache s)))
       cached
       (Router.pushed s ++ [Router.path target +:+ Router.hash target])
       (Router.routed s), Return tt).
Proof.
  intros He Hc Hne. unfold Router.navigate. rewrite He, Hc.
  unfold Router.swap. simpl.
  apply String.eqb_neq in Hne. rewrite Hne. reflexivity.
Qed.

End NavigateFacts.

(** X14. Navigating to the route the router is at does nothing: no URL is
    pushed, [route()] is not called, cache and content stay as they are. *)
Theorem navigate_to_current_route_is_noop
    (serializeParams : list (string * string) -> string)
    (route : nat -> Router.Route -> completion (list Node))
    (s : Router.state) :
  Router.navigate serializeParams route (Router.currentRoute s) s
  = (s, Return tt).
Proof.
  unfold Router.navigate. rewrite routeEquals_refl. now destruct s.
Qed.

(** X15. Leaving a page and coming back restores it from the cache: after
    navigating from route [A] to a route [B] not yet cached and back to [A],
    the content root holds the very nodes it held at first, [route()] was
    called once, for [B], both URLs were pushed, the nodes of [B] are cached
    under its key, and the cached fragment of [A] is left empty. *)
Theorem navigate_back_restores_content
    (serializeParams : list (string * string) -> string)
    (route : nat -> Router.Route -> completion (list Node))
    (s : Router.state) (B : Router.Route) (fragB : list Node) :
  let A := Router.currentRoute s in
  let toString := Router.toString serializeParams in
  let navigate := Router.navigate serializeParams route in
  Router.routeEquals A B = Return false ->
  toString A <> toString B ->
  Router.fragmentCache s !! toString B = None ->
  route (length (Router.routed s)) B = Return fragB ->
  let s1 := fst (navigate B s) in
  let s2 := fst (navigate A s1) in
  Router.content s1 = fragB /\
  snd (navigate A s1) = Return tt /\
  Router.content s2 = Router.content s /\
  Router.currentRoute s2 = A /\
  Router.routed s2 = Router.routed s ++ [B] /\
  Router.pushed s2
  = Router.pushed s ++ [Router.path B +:+ Router.hash B;
                        Router.path A +:+ Router.hash A] /\
  Router.fragmentCache s2 !! toString B = Some fragB /\
  Router.fragmentCache s2 !! toString A = Some [].
Proof.
  intros A toString navigate Hne Hkeys Hcache Hroute s1 s2.
  assert (E1 : navigate B s
    = (Router.mkState B
         (<[toString A := Router.content s]> (Router.fragmentCache s))
         fragB
         (Router.pushed s ++ [Router.path B +:+ Router.hash B])
         (Router.routed s ++ [B]), Return tt)).
  { unfold navigate. rewrite navigate_fresh_route by assumption.
    now rewrite Hroute. }
  assert (E2 : navigate A s1
    = (Router.mkState A
         (<[toString A := []]>
            (<[toString B := fragB]>
               (<[toString A := Router.content s]> (Router.fragmentCache s))))
         (Router.content s)
         ((Router.pushed s ++ [Router.path B +:+ Router.hash B])
          ++ [Router.path A +:+ Router.hash A])
         (Router.routed s ++ [B]), Return tt)).
  { unfold s1. rewrite E1. cbn [fst]. unfold navigate.
    rewrite (navigate_cached_route _ _ _ A (Router.content s)); cbn.
    - reflexivity.
    - now rewrite routeEquals_sym.
    - apply lookup_insert_eq.
    - auto. }
  assert (F1 : s1 = fst (navigate B s)) by reflexivity.
  assert (F2 : s2 = fst (navigate A s1)) by reflexivity.
  rewrite E2 in F2 |- *. rewrite E1 in F1. cbn [fst snd] in *.
  rewrite F2, F1. cbn.
  split; [reflexivity|]. split; [reflexivity|]. split; [reflexivity|].
  split; [reflexivity|]. split; [reflexivity|].
  split; [now rewrite <- app_assoc|]. split.
  - rewrite lookup_insert_ne by auto. apply lookup_insert_eq.
  - apply lookup_insert_eq.
Qed.

Lemma navigate_back_restores_content_witness :
  let serializeParams := fun l : list (string * string) =>
    String.concat "&" (map (fun p => fst p +:+ "=" +:+ snd p) l) in
  let route := fun (_ : nat) (r : Router.Route) =>
    Return [TextNode 7 [66%N]] in
  let s := Router.mkState (Router.mkRoute "/" [] EmptyString) ∅
             [ElementNode 1 "h1" [] [TextNode 2 [65%N]] [] None] [] [] in
  let B := Router.mkRoute "/about" [("tab", "team")] EmptyString in
  let s1 := fst (Router.navigate serializeParams route B s) in
  let s2 := fst (Router.navigate serializeParams route
                   (Router.currentRoute s) s1) in
  Router.content s1 = [TextNode 7 [66%N]] /\
  Router.content s2 = [ElementNode 1 "h1" [] [TextNode 2 [65%N]] [] None] /\
  Router.routed s2 = [B].
Proof.
  intros serializeParams route s B s1 s2.
  destruct (navigate_back_restores_content serializeParams route s B
              [TextNode 7 [66%N]])
    as (H1 & _ & H2 & _ & H3 & _).
  - reflexivity.
  - discriminate.
  - reflexivity.
  - reflexivity.
  - split; [exact H1|]. split; [exact H2|exact H3].
Defined.

(** X16. When [route()] rejects, [navigate] rejects with the same error
    after the target has already become the current route and its URL has
    been pushed, while the content root and the cache are as before; asking
    for the same route again then does nothing, so the page asked for is
    not loaded by repeating the navigation. *)
Theorem navigate_rejected_route_is_not_retried
    (serializeParams : list (string * string) -> string)
    (route : nat -> Router.Route -> completion (list Node))
    (s : Router.state) (B : Router.Route) (e : exn) :
  Router.routeEquals (Router.currentRoute s) B = Return false ->
  Router.fragmentCache s !! Router.toString serializeParams B = None ->
  route (length (Router.routed s)) B = Throw e ->
  let s1 := fst (Router.navigate serializeParams route B s) in
  snd (Router.navigate serializeParams route B s) = Throw e /\
  s1 = Router.mkState B (Router.fragmentCache s) (Router.content s)
         (Router.pushed s ++ [Router.path B +:+ Router.hash B])
         (Router.routed s ++ [B]) /\
  Router.navigate serializeParams route B s1 = (s1, Return tt).
Proof.
  intros He Hc Hr s1. unfold s1.
  rewrite navigate_fresh_route, Hr by assumption. cbn [fst snd].
  split; [reflexivity|]. split; [reflexivity|].
  apply (navigate_to_current_route_is_noop serializeParams route
           (Router.mkState B _ _ _ _)).
Qed.

Lemma navigate_rejected_route_is_not_retried_witness :
  let serializeParams := fun _ : list (string * string) => EmptyString in
  let route := fun (_ : nat) (_ : Router.Route) =>
    @Throw (list Node) (HostException "TypeError") in
  let s := Router.mkState (Router.mkRoute "/" [] EmptyString) ∅
             [TextNode 1 [65%N]] [] [] in
  let B := Router.mkRoute "/about" [] EmptyString in
  let s1 := fst (Router.navigate serializeParams route B s) in
  Router.content s1 = [TextNode 1 [65%N]] /\
  Router.navigate serializeParams route B s1 = (s1, Return tt).
Proof.
  intros serializeParams route s B s1.
  destruct (navigate_rejected_route_is_not_retried serializeParams route s B
              (HostException "TypeError"))
    as (_ & H1 & H2).
  - reflexivity.
  - reflexivity.
  - reflexivity.
  - fold s1 in H1, H2. split; [now rewrite H1|exact H2].
Defined.

(** X17. Navigating to a URL with the path and hash of the current route
    but another number of search parameters fails: [navigate] rejects with
    the error of [zip], nothing is pushed, fetched or swapped, yet the
    target has become the current route, so that asking for it again does
    nothing. *)
Theorem navigate_other_parameter_count_throws
    (serializeParams : list (string * string) -> string)
    (route : nat -> Router.Route -> completion (list Node))
    (s : Router.state) (B : Router.Route) :
  Router.path (Router.currentRoute s) = Router.path B ->
  Router.hash (Router.currentRoute s) = Router.hash B ->
  length (Router.params (Router.currentRoute s)) <> length (Router.params B) ->
  let s1 := fst (Router.navigate serializeParams route B s) in
  snd (Router.navigate serializeParams route B s) = Throw (Error EmptyString) /\
  s1 = Router.mkState B (Router.fragmentCache s) (Router.content s)
         (Router.pushed s) (Router.routed s) /\
  Router.navigate serializeParams route B s1 = (s1, Return tt).
Proof.
  intros Hp Hh Hl s1.
  assert (E : Router.routeEquals (Router.currentRoute s) B
              = Throw (Error EmptyString)).
  { unfold Router.routeEquals, Router.zip. rewrite Hp, Hh, !String.eqb_refl.
    apply Nat.eqb_neq in Hl. rewrite Hl. reflexivity. }
  assert (Enav : Router.navigate serializeParams route B s
    = (Router.mkState B (Router.fragmentCache s) (Router.content s)
         (Router.pushed s) (Router.routed s), Throw (Error EmptyString)))
    by (unfold Router.navigate; now rewrite E).
  unfold s1. rewrite Enav. cbn [fst snd].
  split; [reflexivity|]. split; [reflexivity|].
  apply (navigate_to_current_route_is_noop serializeParams route
           (Router.mkState B _ _ _ _)).
Qed.

Lemma navigate_other_parameter_count_throws_witness :
  let serializeParams := fun _ : list (string * string) => EmptyString in
  let route := fun (_ : nat) (_ : Router.Route) => Return [TextNode 9 []] in
  let s := Router.mkState (Router.mkRoute "/tweets" [("page", "2")] EmptyString)
             ∅ [TextNode 1 [65%N]] [] [] in
  let B := Router.mkRoute "/tweets" [] EmptyString in
  snd (Router.navigate serializeParams route B s) = Throw (Error EmptyString) /\
  Router.content (fst (Router.navigate serializeParams route B s))
  = [TextNode 1 [65%N]].
Proof.
  intros serializeParams route s B.
  destruct (navigate_other_parameter_count_throws serializeParams route s B)
    as (H1 & H2 & _).
  - reflexivity.
  - reflexivity.
  - simpl. lia.
  - split; [exact H1|now rewrite H2].
Defined.

(** ** The [<em-bed>] element *)

Lemma embed_loaded_stays (srcs : list (option string)) : forall s,
  Embed.loaded s = true -> Embed.connect_all srcs s = s.
Proof.
  induction srcs as [|src srcs IH]; intros s H; simpl; [reflexivity|].
  unfold Embed.connectedCallback at 1. rewrite H. simpl. now apply IH.
Qed.

(** X18. However often the element is attached, and whatever its [src]
    attribute is each time, at most one request is made: for the [src] at
    the first attachment at which it was present and not empty. Until then
    an attachment without a [src] throws and changes nothing; afterwards
    every attachment returns at once, with or without a [src]. *)
Theorem embed_fetches_at_most_once (srcs : list (option string)) :
  Embed.fetched (Embed.connect_all srcs Embed.init)
  = take 1 (flat_map (fun src =>
      match src with
      | Some (String c r) => [String c r]
      | _ => []
      end) srcs) /\
  Embed.loaded (Embed.connect_all srcs Embed.init)
  = existsb (fun src =>
      match src with
      | Some (String _ _) => true
      | _ => false
      end) srcs /\
  (forall src,
     Embed.connectedCallback src (Embed.connect_all srcs Embed.init)
     = if Embed.loaded (Embed.connect_all srcs Embed.init)
       then (Embed.connect_all srcs Embed.init, Return tt)
       else match src with
            | Some (String c r) =>
                (Embed.mkState true [String c r], Return tt)
            | _ =>
                (Embed.init,
                 Throw (Error "<em-bed /> requires a `src` attribute."))
            end).
Proof.
  induction srcs as [|src srcs IH].
  - split; [reflexivity|]. split; [reflexivity|].
    intros [[|c r]|]; reflexivity.
  - cbn [Embed.connect_all fold_left]. fold (Embed.connect_all srcs).
    destruct src as [[|c r]|]; simpl; try exact IH.
    rewrite embed_loaded_stays by reflexivity.
    split; [reflexivity|]. split; [reflexivity|]. reflexivity.
Qed.

(** ** The node iterator after the end of the stream *)

(** X19. Once the producer's loop has completed and the queue has been
    read empty, nothing is delivered any more: every later [next()] returns
    a promise that is never settled, not even with an end-of-stream result,
    whatever turns and calls follow. *)
Theorem next_after_end_is_never_answered (s : Nodes.state)
    (t : list Nodes.event) :
  Observer.completed (Nodes.producer s) = true ->
  Adapter.resultQueue (Nodes.iterator s) = [] ->
  Adapter.settled (Nodes.iterator (Nodes.run s t))
  = Adapter.settled (Nodes.iterator s) /\
  Adapter.resultQueue (Nodes.iterator (Nodes.run s t)) = [] /\
  Adapter.promises (Nodes.iterator (Nodes.run s t))
  = Adapter.promises (Nodes.iterator s)
    + length (List.filter (fun e => match e with
                                    | Nodes.Next => true
                                    | _ => false
                                    end) t).
Proof.
  revert s. induction t as [|e t IH]; intros s Hc Hq; simpl.
  - split; [reflexivity|]. split; [exact Hq|lia].
  - assert (Hstep :
      Observer.completed (Nodes.producer (Nodes.step s e)) = true /\
      Adapter.resultQueue (Nodes.iterator (Nodes.step s e)) = [] /\
      Adapter.settled (Nodes.iterator (Nodes.step s e))
      = Adapter.settled (Nodes.iterator s) /\
      Adapter.promises (Nodes.iterator (Nodes.step s e))
      = Adapter.promises (Nodes.iterator s)
        + match e with Nodes.Next => 1 | _ => 0 end).
    { destruct e; simpl.
      - unfold Nodes.turn, Observer.turn. rewrite Hc. simpl.
        repeat split; auto.
      - unfold Adapter.next. rewrite Hq. simpl. repeat split; auto. lia.
      - repeat split; auto. }
    destruct Hstep as (Hc' & Hq' & Hs' & Hp').
    destruct (IH _ Hc' Hq') as (H1 & H2 & H3).
    split; [congruence|]. split; [exact H2|].
    rewrite H3, Hp'. destruct e; simpl; lia.
Qed.

Lemma next_after_end_is_never_answered_witness :
  let stream := [Return [Observer.Append (TextNode 1 [65%N])]] in
  let s := Nodes.run (Nodes.create stream)
             [Nodes.Turn; Nodes.Turn; Nodes.Next; Nodes.Next] in
  let s' := Nodes.run s [Nodes.Next; Nodes.Turn; Nodes.Next; Nodes.Turn] in
  Adapter.settled (Nodes.iterator s') = [(0, Adapter.Done)] /\
  Adapter.promises (Nodes.iterator s') = 4.
Proof.
  intros stream s s'.
  destruct (next_after_end_is_never_answered s
              [Nodes.Next; Nodes.Turn; Nodes.Next; Nodes.Turn])
    as (H1 & _ & H3); [reflexivity|reflexivity|].
  fold s' in H1, H3. rewrite H1, H3. split; reflexivity.
Defined.

(** ** Declarative shadow roots: every template found is consumed *)

Section StampSelect.
Variables (can : string -> bool) (template : nat) (mode : string)
  (contents : list Node).

(** [stamp] answers only for a tree that holds the template. *)
Lemma stamp_in_found (l : list Node) :
  Forall (fun n => forall res,
            stamp can template mode contents n = Some res ->
            In template (Dom.ids n)) l ->
  forall res, stamp_in can template mode contents l = Some res ->
  In template (Dom.ids_list l).
Proof.
  induction l as [|c r IH]; intros Hall res; cbn [stamp_in]; [discriminate|].
  inversion Hall as [|? ? Hc Hr]; subst.
  rewrite ids_list_cons, in_app_iff.
  destruct (stamp can template mode contents c) as [res'|] eqn:Ec.
  - intros _. left. eauto.
  - destruct (stamp_in can template mode contents r) as [res'|] eqn:Er;
      [|discriminate].
    intros _. right. eauto.
Qed.

Lemma existsb_in_ids (l : list Node) :
  existsb (fun c => Nat.eqb (nodeId c) template) l = true ->
  In template (Dom.ids_list l).
Proof.
  induction l as [|c r IH]; cbn [existsb]; [discriminate|].
  rewrite ids_list_cons, in_app_iff.
  destruct (Nat.eqb_spec (nodeId c) template) as [<-|_]; cbn [orb].
  - intros _. left. apply nodeId_in_ids.
  - intros H. right. auto.
Qed.

Lemma stamp_found_below (n : Node) : forall res,
  stamp can template mode contents n = Some res ->
  In template (Dom.ids_list (Dom.childNodesOf n)).
Proof.
  induction n as [i d|i d|i tag attrs kids content shadow IHk _ _|i kids IHk]
    using Node_induction; intros res; rewrite stamp_unfold; try discriminate;
    cbn [Dom.childNodesOf]; intros H.
  - destruct (existsb _ kids) eqn:Ee; [now apply existsb_in_ids|].
    destruct (stamp_in can template mode contents kids) as [res'|] eqn:Es;
      [|discriminate].
    apply (stamp_in_found kids) with (res := res'); [|exact Es].
    eapply Forall_impl; [exact IHk|]. intros c Hc res'' E.
    eapply ids_children, Hc, E.
  - destruct (existsb _ kids) eqn:Ee; [now apply existsb_in_ids|].
    destruct (stamp_in can template mode contents kids) as [res'|] eqn:Es;
      [|discriminate].
    apply (stamp_in_found kids) with (res := res'); [|exact Es].
    eapply Forall_impl; [exact IHk|]. intros c Hc res'' E.
    eapply ids_children, Hc, E.
Qed.

Lemma stamp_found (n : Node) (res : completion Node) :
  stamp can template mode contents n = Some res -> In template (Dom.ids n).
Proof. intros H. eapply ids_children, stamp_found_below, H. Qed.

Lemma stamp_in_found_all (l : list Node) (res : completion (list Node)) :
  stamp_in can template mode contents l = Some res ->
  In template (Dom.ids_list l).
Proof.
  apply stamp_in_found. apply Forall_forall. intros n _ r. apply stamp_found.
Qed.

(** In a tree of distinct nodes the template found below a node is not
    that node. *)
Lemma stamp_root_differs (n : Node) (res : completion Node) :
  NoDup (Dom.ids n) ->
  stamp can template mode contents n = Some res -> nodeId n <> template.
Proof.
  intros Hnd H. apply stamp_found_below in H.
  rewrite ids_unfold in Hnd.
  destruct n as [i d|i d|i tag attrs kids content shadow|i kids];
    cbn [Dom.childNodesOf nodeId] in *; try contradiction;
    apply NoDup_cons in Hnd as [Hi _]; intros ->; apply Hi;
    apply list_elem_of_In; [apply in_or_app; now left|exact H].
Qed.

(** Stamping below a node keeps what the selector looks at. *)
Lemma stamp_root_selected (c c' : Node) :
  stamp can template mode contents c = Some (Return c') ->
  Dom.template_shadowroot c' = Dom.template_shadowroot c /\
  Dom.attributesOf c' = Dom.attributesOf c.
Proof.
  rewrite stamp_unfold.
  destruct c as [i d|i d|i tag attrs kids content shadow|i kids];
    try discriminate.
  - destruct (existsb _ kids).
    + destruct (negb (_ || _)); [discriminate|].
      destruct (negb (can tag)); [discriminate|].
      destruct shadow; [discriminate|]. now intros [= <-].
    + destruct (stamp_in can template mode contents kids) as [[k|e]|];
        try discriminate. now intros [= <-].
  - destruct (existsb _ kids); [discriminate|].
    destruct (stamp_in can template mode contents kids) as [[k|e]|];
      try discriminate. now intros [= <-].
Qed.

End StampSelect.

Lemma walk_selected_ids (sel : Node -> bool) (c x : Node) :
  In x ((if sel c then [c] else []) ++ Dom.descendants sel c) ->
  In (nodeId x) (Dom.ids c).
Proof.
  rewrite in_app_iff. intros [H|H].
  - destruct (sel c); [|contradiction]. destruct H as [<-|[]].
    apply nodeId_in_ids.
  - apply ids_children. now apply (descendants_ids sel).
Qed.

Lemma NoDup_ids_cons (c : Node) (r : list Node) :
  NoDup (Dom.ids_list (c :: r)) ->
  NoDup (Dom.ids c) /\ NoDup (Dom.ids_list r) /\
  (forall i, In i (Dom.ids c) -> In i (Dom.ids_list r) -> False).
Proof.
  rewrite ids_list_cons. intros H. apply NoDup_app in H as (H1 & H2 & H3).
  split; [exact H1|]. split; [exact H3|].
  intros i Hi Hi'. apply (H2 i); now apply list_elem_of_In.
Qed.

Lemma map_nodeId_in_ids (t : nat) (l : list Node) :
  In t (map nodeId l) -> In t (Dom.ids_list l).
Proof.
  induction l as [|c r IH]; [intros []|].
  cbn [map]. rewrite ids_list_cons, in_app_iff. intros [<-|H].
  - left. apply nodeId_in_ids.
  - right. auto.
Qed.

Lemma walk_filter_sub (sel f : Node -> bool) (x : Node) (l : list Node) :
  In x (Dom.walk sel (List.filter f l)) -> In x (Dom.walk sel l).
Proof.
  induction l as [|c r IH]; [intros []|].
  cbn [List.filter]. destruct (f c).
  - cbn [Dom.walk]. rewrite !app_assoc, !in_app_iff. intros [H|H]; auto.
  - intros H. cbn [Dom.walk]. rewrite !in_app_iff. right. right. auto.
Qed.

Section StampKeeps.
Variables (can : string -> bool) (template : nat) (mode : string)
  (contents : list Node).

(** Removing the template from the children of its host removes it from
    what the selector finds, and nothing else. *)
Lemma walk_filter_kept (sel : Node -> bool) (kids : list Node) :
  NoDup (Dom.ids_list kids) -> In template (map nodeId kids) ->
  forall x,
  In x (Dom.walk sel
          (List.filter (fun c => negb (Nat.eqb (nodeId c) template)) kids)) ->
  In x (Dom.walk sel kids) /\ nodeId x <> template.
Proof.
  induction kids as [|c r IH]; intros Hnd Hin x; [intros []|].
  apply NoDup_ids_cons in Hnd as (Hc & Hr & Hdisj).
  cbn [List.filter].
  destruct (Nat.eqb_spec (nodeId c) template) as [E|E]; cbn [negb].
  - intros Hx. apply walk_filter_sub in Hx. split.
    + cbn [Dom.walk]. rewrite !in_app_iff. auto.
    + intros E'. apply (Hdisj template).
      * rewrite <- E. apply nodeId_in_ids.
      * rewrite <- E'. now apply (walk_in_ids sel).
  - destruct Hin as [Hin|Hin]; [contradiction|].
    cbn [Dom.walk]. rewrite app_assoc, in_app_iff. intros [Hx|Hx].
    + split.
      * rewrite app_assoc, in_app_iff. now left.
      * intros E'. apply (Hdisj template).
        -- rewrite <- E'. now apply (walk_selected_ids sel).
        -- now apply map_nodeId_in_ids.
    + destruct (IH Hr Hin x Hx) as [H1 H2]. split; [|exact H2].
      rewrite !in_app_iff. auto.
Qed.

Lemma stamp_in_selected (l : list Node) :
  Forall (fun n => NoDup (Dom.ids n) -> forall r,
    stamp can template mode contents n = Some (Return r) ->
    forall x, In x (Dom.descendants Dom.template_shadowroot r) ->
    (exists x0, In x0 (Dom.descendants Dom.template_shadowroot n) /\
       nodeId x0 = nodeId x /\ Dom.attributesOf x0 = Dom.attributesOf x) /\
    nodeId x <> template) l ->
  NoDup (Dom.ids_list l) -> forall l',
  stamp_in can template mode contents l = Some (Return l') ->
  forall x, In x (Dom.walk Dom.template_shadowroot l') ->
  (exists x0, In x0 (Dom.walk Dom.template_shadowroot l) /\
     nodeId x0 = nodeId x /\ Dom.attributesOf x0 = Dom.attributesOf x) /\
  nodeId x <> template.
Proof.
  induction l as [|c r IH]; intros Hall Hnd l'; cbn [stamp_in];
    [discriminate|].
  inversion Hall as [|? ? Hc Hr]; subst.
  apply NoDup_ids_cons in Hnd as (Hndc & Hndr & Hdisj).
  destruct (stamp can template mode contents c) as [[c'|e]|] eqn:Ec.
  - intros [= <-] x. cbn [Dom.walk]. rewrite !in_app_iff.
    destruct (stamp_root_selected _ _ _ _ _ _ Ec) as [Hsel Hattrs].
    pose proof (stamp_root_id _ _ _ _ _ _ Ec) as Hid.
    intros [Hx|[Hx|Hx]].
    + rewrite Hsel in Hx.
      destruct (Dom.template_shadowroot c) eqn:Es; [|contradiction].
      destruct Hx as [<-|[]]. split.
      * exists c. split; [now left|]. auto.
      * rewrite Hid. eapply stamp_root_differs; eauto.
    + destruct (Hc Hndc c' eq_refl x Hx) as [(x0 & H0 & H1 & H2) Hne].
      split; [|exact Hne]. exists x0. rewrite !in_app_iff. auto.
    + split.
      * exists x. rewrite !in_app_iff. auto.
      * intros E. apply (Hdisj template).
        -- eapply stamp_found, Ec.
        -- rewrite <- E. now apply (walk_in_ids Dom.template_shadowroot).
  - discriminate.
  - destruct (stamp_in can template mode contents r) as [[r'|e]|] eqn:Er;
      try discriminate.
    intros [= <-] x. cbn [Dom.walk]. rewrite app_assoc, in_app_iff.
    intros [Hx|Hx].
    + split.
      * exists x. rewrite app_assoc, in_app_iff. auto.
      * intros E. apply (Hdisj template).
        -- rewrite <- E. now apply (walk_selected_ids Dom.template_shadowroot).
        -- eapply stamp_in_found_all, Er.
    + destruct (IH Hr Hndr r' eq_refl x Hx) as [(x0 & H0 & H1 & H2) Hne].
      split; [|exact Hne]. exists x0. rewrite !in_app_iff. auto.
Qed.

Lemma NoDup_ids_kids (n : Node) :
  NoDup (Dom.ids n) -> NoDup (Dom.ids_list (Dom.childNodesOf n)).
Proof.
  rewrite ids_unfold.
  destruct n as [i d|i d|i tag attrs kids content shadow|i kids];
    cbn [Dom.childNodesOf]; intros H; try apply NoDup_nil_2.
  - apply NoDup_cons in H as [_ H]. now apply NoDup_app in H as (H & _).
  - now apply NoDup_cons in H as [_ H].
Qed.

Lemma stamp_selected (n : Node) :
  NoDup (Dom.ids n) -> forall r,
  stamp can template mode contents n = Some (Return r) ->
  forall x, In x (Dom.descendants Dom.template_shadowroot r) ->
  (exists x0, In x0 (Dom.descendants Dom.template_shadowroot n) /\
     nodeId x0 = nodeId x /\ Dom.attributesOf x0 = Dom.attributesOf x) /\
  nodeId x <> template.
Proof.
  induction n as [i d|i d|i tag attrs kids content shadow IHk _ _|i kids IHk]
    using Node_induction; intros Hnd r; rewrite stamp_unfold;
    try discriminate; apply NoDup_ids_kids in Hnd; cbn [Dom.childNodesOf] in Hnd.
  - destruct (existsb _ kids) eqn:Ee.
    + destruct (negb (_ || _)); [discriminate|].
      destruct (negb (can tag)); [discriminate|].
      destruct shadow; [discriminate|]. intros [= <-] x.
      rewrite !descendants_unfold. cbn [Dom.childNodesOf]. intros Hx.
      apply existsb_nodeId in Ee.
      destruct (walk_filter_kept _ kids Hnd Ee x Hx) as [H1 H2].
      split; [|exact H2]. exists x. auto.
    + destruct (stamp_in can template mode contents kids) as [[kids'|e]|] eqn:E;
        try discriminate.
      intros [= <-] x. rewrite !descendants_unfold. cbn [Dom.childNodesOf].
      now apply (stamp_in_selected kids IHk Hnd kids').
  - destruct (existsb _ kids) eqn:Ee; [discriminate|].
    destruct (stamp_in can template mode contents kids) as [[kids'|e]|] eqn:E;
      try discriminate.
    intros [= <-] x. rewrite !descendants_unfold. cbn [Dom.childNodesOf].
    now apply (stamp_in_selected kids IHk Hnd kids').
Qed.

End StampKeeps.

Lemma walk_matches (sel : Node -> bool) (x : Node) (l : list Node) :
  Forall (fun n => In x (Dom.descendants sel n) -> sel x = true) l ->
  In x (Dom.walk sel l) -> sel x = true.
Proof.
  induction l as [|c r IH]; intros Hall; [intros []|].
  inversion Hall as [|? ? Hc Hr]; subst.
  cbn [Dom.walk]. rewrite !in_app_iff. intros [H|[H|H]]; auto.
  destruct (sel c) eqn:E; [|contradiction]. destruct H as [<-|[]]. exact E.
Qed.

Lemma descendants_match (sel : Node -> bool) (x n : Node) :
  In x (Dom.descendants sel n) -> sel x = true.
Proof.
  induction n as [i d|i d|i tag attrs kids content shadow IHk _ _|i kids IHk]
    using Node_induction; rewrite descendants_unfold; cbn [Dom.childNodesOf];
    try (intros []); now apply walk_matches.
Qed.

(** While the loop runs, every template with a non-empty [shadowroot]
    attribute still found below the root is one of those still to be
    visited. *)
Lemma stampTemplates_consumes (can : string -> bool) (lo : nat)
    (templates : list Node) :
  forall doc root doc' r,
  lo <= Dom.nextId doc -> Dom.ids_within lo (Dom.nextId doc) root ->
  NoDup (Dom.ids root) ->
  (forall x, In x (Dom.descendants Dom.template_shadowroot root) ->
     forall a m,
     Dom.getAttribute (Dom.attributesOf x) "shadowroot" = Some (String a m) ->
     exists y, In y templates /\ nodeId y = nodeId x /\
               Dom.attributesOf y = Dom.attributesOf x) ->
  stampTemplates can templates doc root = (doc', Return r) ->
  forall x, In x (Dom.descendants Dom.template_shadowroot r) ->
  Dom.getAttribute (Dom.attributesOf x) "shadowroot" = Some EmptyString.
Proof.
  induction templates as [|y rest IH];
    intros doc root doc' r Hlo Hroot Hnd Hinv; cbn [stampTemplates].
  - intros [= <- <-] x Hx.
    pose proof (descendants_match _ _ _ Hx) as Hsel.
    unfold Dom.template_shadowroot in Hsel.
    apply andb_true_iff in Hsel as [_ Hsel].
    destruct (Dom.getAttribute (Dom.attributesOf x) "shadowroot")
      as [[|a m]|] eqn:E; [reflexivity| |discriminate].
    destruct (Hinv x Hx a m E) as (y & [] & _).
  - assert (Hskip : forall m0,
      Dom.getAttribute (Dom.attributesOf y) "shadowroot" = m0 ->
      (forall a m, m0 <> Some (String a m)) ->
      forall x, In x (Dom.descendants Dom.template_shadowroot root) ->
      forall a m,
      Dom.getAttribute (Dom.attributesOf x) "shadowroot" = Some (String a m) ->
      exists y', In y' rest /\ nodeId y' = nodeId x /\
                 Dom.attributesOf y' = Dom.attributesOf x).
    { intros m0 Ey Hm0 x Hx a m E.
      destruct (Hinv x Hx a m E) as (y' & [<-|Hy'] & Hid & Hat); [|eauto].
      exfalso. apply (Hm0 a m). rewrite <- Ey, Hat. exact E. }
    destruct (Dom.getAttribute (Dom.attributesOf y) "shadowroot")
      as [[|a my]|] eqn:Ey.
    + apply IH; auto. apply (Hskip _ eq_refl). discriminate.
    + set (content := match y with
                      | ElementNode _ _ _ _ c _ => c
                      | _ => []
                      end).
      destruct (importNodes_fresh content (Dom.nextId doc)) as (Hn & Hc).
      pose proof (importNodes_NoDup content (Dom.nextId doc)) as Hcd.
      destruct (Dom.importNodes content (Dom.nextId doc)) as [contents next].
      cbn [fst snd] in *.
      destruct (stamp can (nodeId y) (String a my) contents root)
        as [[root'|e]|] eqn:Es; try discriminate.
      apply IH; cbn [Dom.nextId]; [lia| | |].
      * apply (stamp_ids (fun i => lo <= i < next) can (nodeId y)
                 (String a my) contents) with (root := root); [| |exact Es].
        -- eapply Forall_impl; [exact Hc|]. simpl. intros; lia.
        -- eapply Forall_impl; [exact Hroot|]. simpl. intros; lia.
      * pose proof (stamp_sub _ _ _ _ _ _ Es) as Hsub.
        apply (submseteq_NoDup_inv _ _ Hsub).
        apply (NoDup_ranges _ _ lo (Dom.nextId doc) next); auto.
      * intros x Hx b m E.
        destruct (stamp_selected can (nodeId y) (String a my) contents root
                    Hnd root' Es x Hx) as [(x0 & H0 & Hid & Hat) Hne].
        rewrite <- Hat in E.
        destruct (Hinv x0 H0 b m E) as (y' & [<-|Hy'] & Hid' & Hat').
        -- exfalso. apply Hne. congruence.
        -- exists y'. split; [exact Hy'|]. split; congruence.
    + apply IH; auto. apply (Hskip _ eq_refl). discriminate.
Qed.

(** X20. When [fixupDeclarativeShadowDom] returns normally on a tree of
    distinct nodes, no [<template>] with a non-empty [shadowroot] attribute
    is left below the root: each such template has been removed from its
    parent, and the templates the selector still finds are those with an
    empty [shadowroot] attribute, which the loop skips. The identities of
    the tree stay distinct. *)
Theorem fixupDeclarativeShadowDom_consumes_templates (can : string -> bool)
    (root : Node) (doc doc' : Dom.Document) (r : Node) :
  NoDup (Dom.ids root) ->
  Dom.ids_within 0 (Dom.nextId doc) root ->
  fixupDeclarativeShadowDom can root doc = (doc', Return r) ->
  (forall x, In x (Dom.querySelectorAll Dom.template_shadowroot r) ->
     Dom.getAttribute (Dom.attributesOf x) "shadowroot" = Some EmptyString) /\
  NoDup (Dom.ids r).
Proof.
  intros Hnd Hw H. unfold fixupDeclarativeShadowDom in H. split.
  - apply (stampTemplates_consumes can 0
             (Dom.querySelectorAll Dom.template_shadowroot root)
             doc root doc' r); [lia|exact Hw|exact Hnd| |exact H].
    intros x Hx a m E. exists x. auto.
  - apply (stampTemplates_NoDup can 0
             (Dom.querySelectorAll Dom.template_shadowroot root)
             doc root doc' r); [lia|exact Hw|exact Hnd|exact H].
Qed.

Lemma fixupDeclarativeShadowDom_consumes_templates_witness :
  let root := ElementNode 0 "div" []
    [ElementNode 1 "template" [("shadowroot", "open")] []
       [TextNode 2 [65%N]] None;
     ElementNode 3 "template" [("shadowroot", "")] [] [] None] [] None in
  let r := ElementNode 0 "div" []
    [ElementNode 3 "template" [("shadowroot", "")] [] [] None] []
    (Some ("open", [TextNode 10 [65%N]])) in
  fixupDeclarativeShadowDom (fun _ => true) root (Dom.mkDocument 10 ∅ [] [])
  = (Dom.mkDocument 11 ∅ [] [], Return r) /\
  forall x, In x (Dom.querySelectorAll Dom.template_shadowroot r) ->
    Dom.getAttribute (Dom.attributesOf x) "shadowroot" = Some EmptyString.
Proof.
  intros root r.
  assert (E : fixupDeclarativeShadowDom (fun _ => true) root
                (Dom.mkDocument 10 ∅ [] [])
              = (Dom.mkDocument 11 ∅ [] [], Return r))
    by (vm_compute; reflexivity).
  split; [exact E|].
  refine (proj1 (fixupDeclarativeShadowDom_consumes_templates (fun _ => true)
            root (Dom.mkDocument 10 ∅ [] []) (Dom.mkDocument 11 ∅ [] []) r
            _ _ E)).
  - apply (bool_decide_unpack _). vm_compute. exact I.
  - unfold Dom.ids_within. simpl. repeat constructor; lia.
Defined.

(** ** [fixupScripts] and what the selector does not reach *)

Lemma hidden_unfold (n : Node) :
  hidden n
  = match n with
    | ElementNode _ _ _ kids content shadow =>
        content
        ++ match shadow with Some (_, l) => l | None => [] end
        ++ hidden_in kids
    | DocumentFragmentNode _ kids => hidden_in kids
    | _ => []
    end.
Proof. destruct n; reflexivity. Qed.

Lemma rewritten_in_hidden (S S' : gset nat) (born : nat) (l : list Node) :
  Forall (fun c => forall c', rewritten S S' born c c' ->
            hidden c' `sublist_of` hidden c) l ->
  forall l', rewritten_in S S' born l l' ->
  hidden_in l' `sublist_of` hidden_in l.
Proof.
  induction l as [|c r IH]; intros Hall [|c' r'] Hrw; cbn [rewritten_in] in Hrw;
    try contradiction; [constructor|].
  inversion Hall as [|? ? Hc Hr]; subst. destruct Hrw as (Hhead & Htail).
  cbn [hidden_in]. apply sublist_app; [|now apply IH].
  destruct (Dom.script c && negb (bool_decide (nodeId c ∈ S))).
  - destruct Hhead as (Hcopy & _).
    destruct c' as [| |i tag attrs kids content shadow|]; try contradiction.
    destruct Hcopy as (_ & _ & _ & Hk & -> & ->). rewrite hidden_unfold.
    destruct Hk as [->|(j & ->)]; apply sublist_nil_l.
  - now apply Hc.
Qed.

Lemma rewritten_hidden (S S' : gset nat) (born : nat) (n : Node) :
  forall n', rewritten S S' born n n' -> hidden n' `sublist_of` hidden n.
Proof.
  induction n as [i d|i d|i tag attrs kids content shadow IHk _ _|i kids IHk]
    using Node_induction; intros n' Hrw; rewrite rewritten_unfold in Hrw.
  - now subst.
  - now subst.
  - destruct Hrw as (kids' & -> & Hk). rewrite !hidden_unfold.
    apply sublist_app; [reflexivity|]. apply sublist_app; [reflexivity|].
    now apply (rewritten_in_hidden S S' born kids IHk).
  - destruct Hrw as (kids' & -> & Hk). rewrite !hidden_unfold.
    now apply (rewritten_in_hidden S S' born kids IHk).
Qed.

Lemma in_ids_list (h : Node) (l : list Node) (i : nat) :
  In h l -> In i (Dom.ids h) -> In i (Dom.ids_list l).
Proof.
  intros Hh Hi. unfold Dom.ids_list. apply in_flat_map. eauto.
Qed.

Lemma hidden_in_ids (h : Node) (i : nat) (l : list Node) :
  Forall (fun n => In h (hidden n) -> In i (Dom.ids h) -> In i (Dom.ids n)) l ->
  In h (hidden_in l) -> In i (Dom.ids h) -> In i (Dom.ids_list l).
Proof.
  induction l as [|c r IH]; intros Hall; [intros []|].
  inversion Hall as [|? ? Hc Hr]; subst.
  cbn [hidden_in]. rewrite ids_list_cons, !in_app_iff.
  intros [H|H] Hi; [left|right]; auto.
Qed.

Lemma hidden_ids (h : Node) (i : nat) (n : Node) :
  In h (hidden n) -> In i (Dom.ids h) -> In i (Dom.ids n).
Proof.
  induction n as [j d|j d|j tag attrs kids content shadow IHk _ _|j kids IHk]
    using Node_induction; rewrite hidden_unfold.
  - intros [].
  - intros [].
  - rewrite (ids_unfold (ElementNode j tag attrs kids content shadow)).
    rewrite !in_app_iff. intros [H|[H|H]] Hi; right; rewrite !in_app_iff.
    + right. left. now apply (in_ids_list h).
    + right. right. destruct shadow as [[m l]|]; [|destruct H].
      now apply (in_ids_list h).
    + left. now apply (hidden_in_ids h).
  - rewrite (ids_unfold (DocumentFragmentNode j kids)).
    intros H Hi. right. now apply (hidden_in_ids h).
Qed.








(** X22. In a clone made by [cloneContent], no node kept in a shadow tree
    or in the content of a template is in the set of fixed scripts: a
    script that a declarative shadow root brings into the shadow tree of
    its host is the imported copy, not a reconstructed one. The set holds
    only nodes made before the call. *)
Theorem cloneContent_leaves_shadow_scripts_unfixed (can valid : string -> bool)
    (fragment : Fragment) (doc doc' : Dom.Document) (clone : Node) :
  cloneContent can valid fragment doc = (doc', Return clone) ->
  (forall j, j ∈ Dom.fixedScriptSet doc -> j < Dom.nextId doc) ->
  forall h i, In h (hidden clone) -> In i (Dom.ids h) ->
  i ∉ Dom.fixedScriptSet doc'.
Proof.
  unfold cloneContent. intros Hclone Hold.
  destruct (importNode_fresh (node fragment) (Dom.nextId doc)) as (Hn & Hc).
  pose proof (importNode_NoDup (node fragment) (Dom.nextId doc)) as Hnd.
  destruct (Dom.importNode (node fragment) (Dom.nextId doc)) as [c next].
  cbn [fst snd] in *.
  assert (Hfix :
    match fixupDeclarativeShadowDom can c
            (Dom.mkDocument next (Dom.fixedScriptSet doc) (Dom.head doc)
               (Dom.imports doc)) with
    | (doc2, Throw e) => (doc2, Throw e)
    | (doc2, Return clone2) =>
        match fixupScripts valid clone2 doc2 with
        | (doc3, clone3, Return _) => (doc3, Return clone3)
        | (doc3, _, Throw e) => (doc3, Throw e)
        end
    end = (doc', Return clone) ->
    forall h i, In h (hidden clone) -> In i (Dom.ids h) ->
    i ∉ Dom.fixedScriptSet doc').
  { clear Hclone. unfold fixupDeclarativeShadowDom.
    destruct (stampTemplates can _ _ c) as [doc2 [stamped|e]] eqn:Es;
      [|discriminate].
    assert (Hlo : Dom.nextId doc
                  <= Dom.nextId (Dom.mkDocument next (Dom.fixedScriptSet doc)
                                   (Dom.head doc) (Dom.imports doc)))
      by (simpl; lia).
    pose proof (stampTemplates_NoDup can (Dom.nextId doc) _ _ _ _ _
                  Hlo Hc Hnd Es) as Hnd2.
    apply (stampTemplates_within can (Dom.nextId doc)) in Es
      as (H1 & H2 & H3); [|simpl; lia|exact Hc].
    cbn [Dom.nextId Dom.fixedScriptSet] in H1, H3.
    assert (Hlt : Forall (fun i => i < Dom.nextId doc2) (Dom.ids stamped)).
    { eapply Forall_impl; [exact H2|]. simpl. intros; lia. }
    destruct (fixupSteps_reconstructs stamped doc2 Hnd2 Hlt)
      as (Hrw & Hg & _).
    destruct (fixupScripts valid stamped doc2) as [[doc3 clone3] [[]|e]] eqn:Ef;
      [|discriminate].
    apply fixupLoop_returns in Ef. fold (fixupSteps stamped doc2) in Ef.
    rewrite Ef in Hrw, Hg.
    cbn [fst snd] in *. intros [= <- <-] h i Hh Hi Hin.
    pose proof (rewritten_hidden _ _ _ _ _ Hrw) as Hsub.
    assert (Hroot : In i (Dom.ids stamped)).
    { apply (hidden_ids h); [|exact Hi].
      apply list_elem_of_In.
      eapply sublist_submseteq, elem_of_submseteq in Hsub;
        [exact Hsub|now apply list_elem_of_In]. }
    unfold Dom.ids_within in H2. rewrite Forall_forall in H2.
    apply list_elem_of_In, H2 in Hroot.
    destruct Hg as (_ & _ & Hnew & _).
    destruct (Hnew i Hin) as [H|H]; [|lia].
    rewrite H3 in H. apply Hold in H. lia. }
  destruct c; try (now apply Hfix);
    injection Hclone as <- <-; intros h i [].
Qed.

Lemma cloneContent_leaves_shadow_scripts_unfixed_witness :
  let source := ElementNode 0 "my-tweet" []
    [ElementNode 1 "template" [("shadowroot", "open")] []
       [ElementNode 2 "script" [("src", "/inner.js")] [] [] None] None;
     ElementNode 3 "script" [("src", "/tweet.js")] [] [] None] [] None in
  let res := cloneContent (fun _ => true) (fun _ => true) (Fragment_of source)
               (Dom.mkDocument 10 ∅ [] []) in
  snd res = Return (ElementNode 10 "my-tweet" []
    [ElementNode 15 "script" [("src", "/tweet.js")] [] [] None] []
    (Some ("open",
       [ElementNode 14 "script" [("src", "/inner.js")] [] [] None]))) /\
  14 ∉ Dom.fixedScriptSet (fst res).
Proof.
  intros source res.
  assert (E : res = (fst res, Return (ElementNode 10 "my-tweet" []
    [ElementNode 15 "script" [("src", "/tweet.js")] [] [] None] []
    (Some ("open",
       [ElementNode 14 "script" [("src", "/inner.js")] [] [] None])))))
    by (vm_compute; reflexivity).
  split; [now rewrite E|].
  apply (cloneContent_leaves_shadow_scripts_unfixed (fun _ => true) (fun _ => true)
           (Fragment_of source) (Dom.mkDocument 10 ∅ [] []) (fst res) _ E)
    with (h := ElementNode 14 "script" [("src", "/inner.js")] [] [] None).
  - intros j Hj. exfalso. revert Hj. apply not_elem_of_empty.
  - simpl. now left.
  - simpl. now left.
Defined.

(** ** [fixupScripts]: the error of [setAttribute] *)

Lemma copyAttributes_valid (valid : string -> bool)
    (old : list (string * string)) (names : list string) :
  forall acc r,
  copyAttributes valid old names acc = Return r -> forallb valid names = true.
Proof.
  induction names as [|name rest IH]; intros acc r; simpl; [reflexivity|].
  destruct (valid name); [apply IH|discriminate].
Qed.

Lemma manualClone_valid (valid : string -> bool) (oldScript : Node)
    (next : nat) (r : Node * nat) :
  manualClone valid oldScript next = Return r ->
  forallb valid (Dom.getAttributeNames (Dom.attributesOf oldScript)) = true.
Proof.
  unfold manualClone.
  destruct (copyAttributes valid _ _ []) as [attrs|e] eqn:E; [|discriminate].
  intros _. exact (copyAttributes_valid _ _ _ _ _ E).
Qed.

(** The loop over scripts made before the call: [known] is the set of
    fixed scripts at the start, to which the loop only adds new nodes. *)
Lemma fixupLoop_outcome (valid : string -> bool) (known : gset nat) (lo : nat)
    (scripts : list Node) : forall (doc : Dom.Document) (root : Node),
  (forall s, In s scripts -> nodeId s < lo) ->
  lo <= Dom.nextId doc ->
  (forall i, i ∈ Dom.fixedScriptSet doc -> i ∈ known \/ lo <= i) ->
  (forall i, i ∈ known -> i ∈ Dom.fixedScriptSet doc) ->
  match snd (fixupLoop valid scripts doc root) with
  | Throw e =>
      e = HostException "InvalidCharacterError" /\
      exists s, In s scripts /\ (nodeId s ∉ known) /\
        forallb valid (Dom.getAttributeNames (Dom.attributesOf s)) = false
  | Return _ =>
      forall s, In s scripts -> nodeId s ∉ known ->
        forallb valid (Dom.getAttributeNames (Dom.attributesOf s)) = true
  end.
Proof.
  induction scripts as [|s rest IH]; intros doc root Hlt Hlo Hup Hsub.
  - simpl. intros s [].
  - cbn [fixupLoop].
    assert (Hrest : forall x, In x rest -> nodeId x < lo)
      by (intros x Hx; apply Hlt; now right).
    destruct (bool_decide (nodeId s ∈ Dom.fixedScriptSet doc)) eqn:Eb.
    + apply bool_decide_eq_true_1 in Eb.
      assert (Hk : nodeId s ∈ known).
      { destruct (Hup _ Eb) as [H|H]; [exact H|].
        specialize (Hlt s (or_introl eq_refl)). lia. }
      specialize (IH doc root Hrest Hlo Hup Hsub).
      destruct (snd (fixupLoop valid rest doc root)) as [u|e].
      * intros x [<-|Hx] Hn; [contradiction|now apply IH].
      * destruct IH as (He & x & Hx & Hn & Hv).
        split; [exact He|]. exists x. split; [now right|auto].
    + apply bool_decide_eq_false_1 in Eb.
      assert (Hk : nodeId s ∉ known) by (intros H; apply Eb, Hsub, H).
      destruct (manualClone valid s (Dom.nextId doc)) as [[new next]|e] eqn:E.
      * pose proof (manualClone_valid _ _ _ _ E) as Hv.
        apply manualClone_returns in E.
        pose proof (scriptCopy_fresh s (Dom.nextId doc)) as (Hn & Hid & _).
        rewrite <- E in Hn, Hid. simpl in Hn, Hid.
        match goal with |- context [fixupLoop valid rest ?d ?r] =>
          specialize (IH d r Hrest) end.
        simpl in IH.
        assert (IH' := IH ltac:(lia)). clear IH.
        match type of IH' with ?A -> ?B -> _ =>
          assert (HA : A); [|assert (HB : B); [|specialize (IH' HA HB)]] end.
        { intros i Hi. apply elem_of_union in Hi as [Hi|Hi]; [|now apply Hup].
          apply elem_of_singleton in Hi. right. lia. }
        { intros i Hi. apply elem_of_union. right. now apply Hsub. }
        match goal with |- match snd ?L with _ => _ end =>
          destruct (snd L) as [u|e] end.
        -- intros x [<-|Hx] Hn'; [exact Hv|now apply IH'].
        -- destruct IH' as (He & x & Hx & Hn' & Hv').
           split; [exact He|]. exists x. split; [now right|auto].
      * apply manualClone_throws in E as [He Hv]. simpl.
        split; [exact He|]. exists s. split; [now left|auto].
Qed.

(** X23. [fixupScripts] on nodes made before the call ends with an error
    exactly when one of the scripts it finds that is not in the set of
    fixed scripts has an attribute whose name [setAttribute] rejects; the
    error is then the [InvalidCharacterError] of that call. *)
Theorem fixupScripts_throws_on_rejected_attribute_name
    (valid : string -> bool) (root : Node) (doc : Dom.Document) :
  Forall (fun i => i < Dom.nextId doc) (Dom.ids root) ->
  match snd (fixupScripts valid root doc) with
  | Throw e =>
      e = HostException "InvalidCharacterError" /\
      exists s, In s (Dom.querySelectorAll Dom.script root) /\
        (nodeId s ∉ Dom.fixedScriptSet doc) /\
        forallb valid (Dom.getAttributeNames (Dom.attributesOf s)) = false
  | Return _ =>
      forall s, In s (Dom.querySelectorAll Dom.script root) ->
        nodeId s ∉ Dom.fixedScriptSet doc ->
        forallb valid (Dom.getAttributeNames (Dom.attributesOf s)) = true
  end.
Proof.
  intros Hlt. unfold fixupScripts.
  apply (fixupLoop_outcome valid (Dom.fixedScriptSet doc) (Dom.nextId doc));
    auto.
  intros s Hs. rewrite Forall_forall in Hlt. apply Hlt.
  apply list_elem_of_In, ids_children, (descendants_ids Dom.script), Hs.
Qed.

Lemma fixupScripts_throws_on_rejected_attribute_name_witness :
  let valid name := negb (String.eqb name EmptyString || String.prefix "=" name) in
  let bad := ElementNode 2 "script" [("=x", "y")] [] [] None in
  let root := ElementNode 0 "div" []
    [ElementNode 1 "script" [("src", "/a.js")] [] [] None; bad] [] None in
  let doc := Dom.mkDocument 10 ∅ [] [] in
  fixupScripts valid root doc
  = (Dom.mkDocument 12 {[10]} [] [],
     ElementNode 0 "div" []
       [ElementNode 10 "script" [("src", "/a.js")] [] [] None; bad] [] None,
     Throw (HostException "InvalidCharacterError")) /\
  exists s, In s (Dom.querySelectorAll Dom.script root) /\
    (nodeId s ∉ Dom.fixedScriptSet doc) /\
    forallb valid (Dom.getAttributeNames (Dom.attributesOf s)) = false.
Proof.
  intros valid bad root doc.
  assert (E : fixupScripts valid root doc
    = (Dom.mkDocument 12 {[10]} [] [],
       ElementNode 0 "div" []
         [ElementNode 10 "script" [("src", "/a.js")] [] [] None; bad] [] None,
       Throw (HostException "InvalidCharacterError")))
    by (vm_compute; reflexivity).
  split; [exact E|].
  assert (Hlt : Forall (fun i => i < Dom.nextId doc) (Dom.ids root))
    by (simpl; repeat constructor; lia).
  pose proof (fixupScripts_throws_on_rejected_attribute_name valid root doc Hlt)
    as H.
  rewrite E in H. exact (proj2 H).
Defined.
